(** * The Stochastic oscillator of Highstock: [getValues]

    A shallow embedding of [ts/Stock/Indicators/StochasticIndicator.ts].
    The indicator reads the [xData] / [yData] parallel arrays of the linked
    series and produces, for each index from [periodK - 1] on, the raw
    oscillator value %K and its smoothed companion %D.

    JavaScript numbers are IEEE 754 binary64 values: they are embedded as
    the primitive [float] of the standard library, whose operations are the
    processor's, specified by [SpecFloat].  Array indices, array lengths and
    the two periods are integers and are embedded as [Z]. *)

From Stdlib Require Import ZArith List Bool Floats Lia.
Import ListNotations.

(* ================================================================== *)
(** * JavaScript values and arrays *)
(* ================================================================== *)

Module Js.

(** The JavaScript [number] type. *)
Definition number : Type := float.

(** Primitive values that a slot of the parallel arrays may hold: the
    declared type is [number], but the code itself tests its input
    ([yVal ? ... : 0], [isArray(yVal[0])]), so [null] and [undefined]
    are part of the picture. *)
Inductive value : Type :=
| VNum (x : number)
| VNull
| VUndef.

(** An element of [series.yData]: an array of values (OHLC and range
    series) or a primitive (line series, null points). *)
Inductive row : Type :=
| RArray (cells : list value)
| RPrim (v : value).

(** Outcome of an expression that may throw. The only exception the code
    can raise is the [TypeError] of a property read on [null] or
    [undefined]. *)
Inductive result (A : Type) : Type :=
| Ok (a : A)
| TypeError.
Arguments Ok {A} a.
Arguments TypeError {A}.

Definition bind {A B} (r : result A) (k : A -> result B) : result B :=
  match r with
  | Ok a => k a
  | TypeError => TypeError
  end.

(** Conversion of an integer to a [number] (correctly rounded). *)
Definition of_Z (z : Z) : number := SF2Prim (binary_normalize prec emax z 0 false).

(** [ToNumber] of the language specification, on primitives. *)
Definition ToNumber (v : value) : number :=
  match v with
  | VNum x => x
  | VNull => 0%float
  | VUndef => nan
  end.

(** [Math.min(a, b)] and [Math.max(a, b)] on two numbers: a NaN operand
    gives NaN, and -0 is smaller than +0. *)
Definition Math_min (a b : number) : number :=
  if is_nan a || is_nan b then nan
  else if (a <? b)%float then a
  else if (b <? a)%float then b
  else if get_sign a then a else b.

Definition Math_max (a b : number) : number :=
  if is_nan a || is_nan b then nan
  else if (a <? b)%float then b
  else if (b <? a)%float then a
  else if get_sign a then b else a.

(** [SameValueZero] of the language specification on numbers: NaN is the
    same as NaN, and +0 the same as -0. *)
Definition SameValueZero (a b : number) : bool :=
  (is_nan a && is_nan b) || (a =? b)%float.

(** [arr.length] as an integer. *)
Definition len {A} (arr : list A) : Z := Z.of_nat (length arr).

(** [arr[i]]: [None] stands for the [undefined] of a missing property
    (index out of range, or negative). *)
Definition at_index {A} (arr : list A) (i : Z) : option A :=
  if (i <? 0)%Z then None else nth_error arr (Z.to_nat i).

(** [arr[i]] on an array of primitives. *)
Definition get (arr : list value) (i : Z) : value :=
  match at_index arr i with
  | Some v => v
  | None => VUndef
  end.

(** [yVal[i]] on an array of rows. *)
Definition get_row (arr : list row) (i : Z) : row :=
  match at_index arr i with
  | Some r => r
  | None => RPrim VUndef
  end.

(** [target[k]] on a row: a property read on [null] or [undefined]
    throws; on a number it yields [undefined]. *)
Definition row_get (target : row) (k : Z) : result value :=
  match target with
  | RArray cells => Ok (get cells k)
  | RPrim (VNum _) => Ok VUndef
  | RPrim VNull => TypeError
  | RPrim VUndef => TypeError
  end.

Definition isArray (r : row) : bool :=
  match r with
  | RArray _ => true
  | RPrim _ => false
  end.

(** Relative index of [Array.prototype.slice]: negative counts from the
    end, and the result is clamped to [0 .. len]. *)
Definition rel_index (length k : Z) : Z :=
  if (k <? 0)%Z then Z.max (length + k) 0 else Z.min k length.

(** [arr.slice(start, stop)]. *)
Definition slice {A} (arr : list A) (start stop : Z) : list A :=
  let k := rel_index (len arr) start in
  let final := rel_index (len arr) stop in
  firstn (Z.to_nat (final - k)) (skipn (Z.to_nat k) arr).

(** [arr.slice(start)]. *)
Definition slice_from {A} (arr : list A) (start : Z) : list A :=
  slice arr start (len arr).

End Js.

Import Js.

Declare Scope js_scope.
Delimit Scope js_scope with js.
Notation "x <- c1 ;; c2" := (bind c1 (fun x => c2))
  (at level 61, c1 at next level, right associativity) : js_scope.
Local Open Scope js_scope.

(* ================================================================== *)
(** * Collaborators that live outside this file *)
(* ================================================================== *)

(** Modelled from the spec: [getArrayExtremes] of [Mixins/ReduceArray] is
    imported by the indicator and its code is not part of this file.
    Section 4.1 of the specification gives its contract: the minimum of the
    [low] field and the maximum of the [high] field across exactly the
    given slice, without skipping, as a pure function.  The minimum and the
    maximum are those of [Math.min] / [Math.max], whose neutral elements
    are +Infinity and -Infinity; each field is read with [target[index]]. *)
Definition getArrayExtremes (arr : list row) (minIndex maxIndex : Z)
  : result (number * number) :=
  fold_left
    (fun acc target =>
       prev <- acc ;;
       lo <- row_get target minIndex ;;
       hi <- row_get target maxIndex ;;
       Ok (Math_min (fst prev) (ToNumber lo), Math_max (snd prev) (ToNumber hi)))
    arr (Ok (infinity, neg_infinity)).

Module SMA.

(** Modelled from the spec: the simple moving average [SMA.prototype.getValues]
    belongs to [indicators.src] and is not part of this file.  Section 6
    gives its contract: from a sequence of samples and a period, the
    windowed arithmetic means, one per window of [period] consecutive
    samples.  On rows that are arrays it reads the field at index 0
    (section 9, "internal field-extraction behavior"): here the %K of each
    [[K, D]] row. *)
Definition sum (samples : list number) : number :=
  fold_left PrimFloat.add samples 0%float.

Definition mean (window : list number) (period : Z) : number :=
  (sum window / of_Z period)%float.

Fixpoint windows (n : nat) (samples : list number) : list (list number) :=
  if (n <=? length samples)%nat then
    firstn n samples ::
      match samples with
      | [] => []
      | _ :: rest => windows n rest
      end
  else [].

(** The [yData] of the returned object. *)
Definition getValues (xData : list value) (yData : list (number * value))
    (period : Z) : list value :=
  map (fun w => VNum (mean w period)) (windows (Z.to_nat period) (map fst yData)).

End SMA.

(* ================================================================== *)
(** * The indicator *)
(* ================================================================== *)

(** The linked series, as far as the indicator reads it.  [yData] may be
    missing: the code tests it before taking its length. *)
Record Series : Type := {
  xData : list value;
  yData : option (list row)
}.

(** [params.periods] is the pair [[periodK, periodD]]. *)
Record ParamsOptions : Type := {
  periodK : Z;
  periodD : Z
}.

(** The returned [IndicatorValuesObject]: [values] holds the triples
    [[x, K, D]], [xData] the x values, [yData] the pairs [[K, D]]. *)
Record IndicatorValues : Type := {
  values : list (value * number * value);
  ivXData : list value;
  ivYData : list (number * value)
}.

(** Field positions in an OHLC row. *)
Definition close : Z := 3.
Definition low : Z := 2.
Definition high : Z := 1.

(** The variables that the loop updates: the three output arrays and [D],
    which is declared outside the loop and initialised to [null]. *)
Record LoopState : Type := {
  SO : list (value * number * value);
  lsXData : list value;
  lsYData : list (number * value);
  D : value
}.

Definition initial : LoopState :=
  {| SO := []; lsXData := []; lsYData := []; D := VNull |}.

(** [rows[rows.length - 1][1] = d]. *)
Definition set_last_smoothed (rows : list (number * value)) (d : value)
  : list (number * value) :=
  match rev rows with
  | [] => rows
  | (k, _) :: before => rev before ++ [(k, d)]
  end.

(** %K from the close and the extremes of the window. *)
Definition percentK (c LL HH : number) : number :=
  let CL := (c - LL)%float in
  let HL := (HH - LL)%float in
  (CL / HL * 100)%float.

(** One iteration of the loop body, at index [i]. *)
Definition iteration (pK pD : Z) (xVal : list value) (yVal : list row)
    (i : Z) (st : LoopState) : result LoopState :=
  let slicedY := slice yVal (i - pK + 1) (i + 1) in
  extremes <- getArrayExtremes slicedY low high ;;
  let LL := fst extremes in
  c <- row_get (get_row yVal i) close ;;
  let K := percentK (ToNumber c) LL (snd extremes) in
  let xData1 := lsXData st ++ [get xVal i] in
  let yData1 := lsYData st ++ [(K, VNull)] in
  let D1 :=
    if (i >=? (pK - 1) + (pD - 1))%Z then
      get (SMA.getValues (slice_from xData1 (- pD)) (slice_from yData1 (- pD)) pD) 0
    else D st in
  Ok {| SO := SO st ++ [(get xVal i, K, D1)];
        lsXData := xData1;
        lsYData := set_last_smoothed yData1 D1;
        D := D1 |}.

(** [for (i = start; ...; i++)], unfolded [count] times. *)
Fixpoint iterate (pK pD : Z) (xVal : list value) (yVal : list row)
    (count : nat) (i : Z) (st : LoopState) : result LoopState :=
  match count with
  | O => Ok st
  | S count' =>
      st' <- iteration pK pD xVal yVal i st ;;
      iterate pK pD xVal yVal count' (i + 1) st'
  end.

(** [getValues(series, params)].  [Ok None] is the bare [return;].  The
    loop runs for [i = periodK - 1], ..., [yValLen - 1], that is
    [yValLen - (periodK - 1)] times when that number is positive. *)
Definition getValues (series : Series) (params : ParamsOptions)
  : result (option IndicatorValues) :=
  let pK := periodK params in
  let pD := periodD params in
  let xVal := xData series in
  let yValLen := match yData series with Some yVal => len yVal | None => 0%Z end in
  if (yValLen <? pK)%Z then Ok None
  else
    match yData series with
    | None => TypeError
    | Some yVal =>
        match get_row yVal 0 with
        | RArray cells =>
            if negb (len cells =? 4)%Z then Ok None
            else
              st <- iterate pK pD xVal yVal
                      (Z.to_nat (yValLen - (pK - 1))) (pK - 1) initial ;;
              Ok (Some {| values := SO st;
                          ivXData := lsXData st;
                          ivYData := lsYData st |})
        | RPrim _ => Ok None
        end
    end.

(* ================================================================== *)
(** * Observers used in the statements *)
(* ================================================================== *)

(** A row on which a property read does not throw. *)
Definition readable (r : row) : bool :=
  match r with
  | RPrim VNull => false
  | RPrim VUndef => false
  | _ => true
  end.

(** A well-shaped bar: an array of exactly four numbers
    (open, high, low, close). *)
Definition is_bar (r : row) : bool :=
  match r with
  | RArray [VNum o; VNum h; VNum l; VNum c] => true
  | _ => false
  end.

(** A bar of the data model: its four numbers are finite. *)
Definition is_finite_bar (r : row) : bool :=
  match r with
  | RArray [VNum o; VNum h; VNum l; VNum c] =>
      is_finite o && is_finite h && is_finite l && is_finite c
  | _ => false
  end.

(** The literal [[o, h, l, c]]. *)
Definition bar (o h l c : number) : row :=
  RArray [VNum o; VNum h; VNum l; VNum c].

(* ================================================================== *)
(** * Example series *)
(* ================================================================== *)

(** The scenario of the specification: four bars at x = 1, 2, 3, 4 with
    (close, low, high) = (5,4,6), (7,5,8), (6,4,7), (9,5,10). *)
Definition scenario : Series :=
  {| xData := [VNum 1; VNum 2; VNum 3; VNum 4]%float;
     yData := Some [bar 5 6 4 5; bar 7 8 5 7; bar 6 7 4 6; bar 9 10 5 9]%float |}.

(** The number that arithmetic sees in [r[k]] (on a readable row). *)
Definition field (r : row) (k : Z) : number :=
  match row_get r k with
  | Ok v => ToNumber v
  | TypeError => nan
  end.

(** The components of an emitted triple [[x, K, D]]. *)
Definition rec_x (t : value * number * value) : value := fst (fst t).
Definition rec_k (t : value * number * value) : number := snd (fst t).
Definition rec_d (t : value * number * value) : value := snd t.

(** The raw and the smoothed value at output position [j]. *)
Definition K_out (out : IndicatorValues) (j : Z) : option number :=
  option_map rec_k (at_index (values out) j).
Definition D_out (out : IndicatorValues) (j : Z) : option value :=
  option_map rec_d (at_index (values out) j).

(** [m] is a least (greatest) element of [l] for the IEEE order. *)
Definition is_lowest (m : number) (l : list number) : Prop :=
  In m l /\ forall x, In x l -> (m <=? x)%float = true.
Definition is_highest (m : number) (l : list number) : Prop :=
  In m l /\ forall x, In x l -> (x <=? m)%float = true.

(** The window of [pK] rows that ends at index [i], as the loop slices it. *)
Definition window (yVal : list row) (pK i : Z) : list row :=
  slice yVal (i - pK + 1) (i + 1).

(** %K at index [i], from the folds that [getArrayExtremes] performs. *)
Definition K_at (yVal : list row) (pK i : Z) : number :=
  let w := window yVal pK i in
  percentK (field (get_row yVal i) close)
    (fold_left Math_min (map (fun r => field r low) w) infinity)
    (fold_left Math_max (map (fun r => field r high) w) neg_infinity).

(** The first [n] raw values and x values, from index [pK - 1] on. *)
Definition Ks (yVal : list row) (pK : Z) (n : nat) : list number :=
  map (fun j => K_at yVal pK (pK - 1 + Z.of_nat j)) (seq 0 n).
Definition Xs (xVal : list value) (pK : Z) (n : nat) : list value :=
  map (fun j => get xVal (pK - 1 + Z.of_nat j)) (seq 0 n).

(** The smoothed value at output position [j], for [1 <= pD]. *)
Definition D_at (yVal : list row) (pK pD : Z) (j : nat) : value :=
  if (Z.of_nat j <? pD - 1)%Z then VNull
  else VNum (SMA.mean (slice (Ks yVal pK (S j)) (Z.of_nat j - pD + 1) (Z.of_nat j + 1)) pD).

(** The value that [D] takes in the iteration at index [i]. *)
Definition next_D (pK pD : Z) (xVal : list value) (yVal : list row)
    (i : Z) (st : LoopState) : value :=
  if (i >=? (pK - 1) + (pD - 1))%Z then
    get (SMA.getValues
           (slice_from (lsXData st ++ [get xVal i]) (- pD))
           (slice_from (lsYData st ++ [(K_at yVal pK i, VNull)]) (- pD)) pD) 0
  else D st.

(** What the loop has built after [n] iterations from the initial state. *)
Record Trace (pK pD : Z) (xVal : list value) (yVal : list row) (n : nat)
    (st : LoopState) : Prop := {
  tr_xData : lsXData st = map rec_x (SO st);
  tr_yData : lsYData st = map (fun t => (rec_k t, rec_d t)) (SO st);
  tr_xs : map rec_x (SO st) = Xs xVal pK n;
  tr_ks : map rec_k (SO st) = Ks yVal pK n;
  tr_D : D st = last (map rec_d (SO st)) VNull;
  tr_ds : (1 <= pD)%Z -> map rec_d (SO st) = map (D_at yVal pK pD) (seq 0 n)
}.
Arguments tr_xData {pK pD xVal yVal n st} _.
Arguments tr_yData {pK pD xVal yVal n st} _.
Arguments tr_xs {pK pD xVal yVal n st} _.
Arguments tr_ks {pK pD xVal yVal n st} _.
Arguments tr_D {pK pD xVal yVal n st} _.
Arguments tr_ds {pK pD xVal yVal n st} _ _.

(** The entry test passes exactly on a series that is long enough and
    whose first row is an array of length four. *)
Definition first_row_ok (yVal : list row) : Prop :=
  exists cells, get_row yVal 0 = RArray cells /\ len cells = 4%Z.

(** A series whose second bar has a single field, with [periodK = 1]. *)
Definition short_second_bar : Series :=
  {| xData := [VNum 1; VNum 2]%float;
     yData := Some [bar 1 2 1 1; RArray [VNum 1%float]]%float |}.

(** The short-series scenario: two bars, [periodK = 3]. *)
Definition two_bars : Series :=
  {| xData := [VNum 1; VNum 2]%float;
     yData := Some [bar 5 6 4 5; bar 7 8 5 7]%float |}.

(** A series whose second row is [null]. *)
Definition null_second_row : Series :=
  {| xData := [VNum 1; VNum 2]%float;
     yData := Some [bar 1 2 1 1; RPrim VNull]%float |}.

(** A series whose later rows are a one-field array and a bare number. *)
Definition ragged_rows : list row :=
  [bar 1 2 1 1; RArray [VNum 1]; RPrim (VNum 3)]%float.
Definition ragged_series : Series :=
  {| xData := [VNum 1; VNum 2; VNum 3]%float; yData := Some ragged_rows |}.

(* ================================================================== *)
(** * Auxiliary definitions on binary64 values *)
(* ================================================================== *)

(** A zero of either sign, or NaN. *)
Definition zero_or_nan (x : spec_float) : bool :=
  match x with
  | S754_zero _ => true
  | S754_nan => true
  | _ => false
  end.

(** A key whose lexicographic order is the order of [SFcompare] on
    values that are not NaN. *)
Definition key (x : spec_float) : Z * Z * Z :=
  match x with
  | S754_nan => (0, 0, 0)
  | S754_zero _ => (0, 0, 0)
  | S754_infinity true => (-2, 0, 0)
  | S754_infinity false => (2, 0, 0)
  | S754_finite false m e => (1, e, Z.pos m)
  | S754_finite true m e => (-1, - e, Z.neg m)
  end%Z.

(** Lexicographic comparison of two keys. *)
Definition lex_compare (a b : Z * Z * Z) : comparison :=
  match (fst (fst a) ?= fst (fst b))%Z with
  | Eq => match (snd (fst a) ?= snd (fst b))%Z with
          | Eq => (snd a ?= snd b)%Z
          | c => c
          end
  | c => c
  end.

(** Any value but NaN. *)
Definition not_nan (x : spec_float) : bool :=
  match x with
  | S754_nan => false
  | _ => true
  end.

(** The number 1: [2^52 * 2^-52]. *)
Definition SFone64 : spec_float := S754_finite false 4503599627370496 (-52).

(* ================================================================== *)
(** * The same code over a store of arrays *)
(* ================================================================== *)

(** JavaScript arrays are objects with an identity: [push] and an indexed
    assignment change the array in place, and two variables may name the
    same array.  This second embedding of [getValues] makes the store
    explicit, so that what the call writes, and where, can be stated. *)
Module Store.

(** A location names an array of the store. *)
Abbreviation loc := nat (only parsing).

(** An element of an array: a primitive, or a reference to an array. *)
Inductive slot : Type :=
| Prim (v : value)
| Ref (l : loc).

Abbreviation object := (list slot) (only parsing).

(** The store: the array at location [l] is the [l]-th object.  An array
    literal or a [slice] allocates at the end. *)
Abbreviation heap := (list (list slot)) (only parsing).

(** Computations read and write the store and may throw; the store
    survives a throw. *)
Definition M (A : Type) : Type := heap -> heap * result A.

Definition ret {A} (a : A) : M A := fun h => (h, Ok a).

Definition throw {A} : M A := fun h => (h, TypeError).

Definition mbind {A B} (m : M A) (k : A -> M B) : M B :=
  fun h =>
    match m h with
    | (h', Ok a) => k a h'
    | (h', TypeError) => (h', TypeError)
    end.

(** Lifting of an expression that only throws or returns. *)
Definition lift {A} (r : result A) : M A := fun h => (h, r).

Fixpoint update {A} (l : list A) (i : nat) (a : A) : list A :=
  match l, i with
  | [], _ => []
  | _ :: rest, O => a :: rest
  | x :: rest, S i' => x :: update rest i' a
  end.

(** The array at a location (empty for a dangling location). *)
Definition load (h : heap) (l : loc) : object := nth l h [].

(** A new array holding [o]. *)
Definition alloc (o : object) : M loc := fun h => (h ++ [o], Ok (length h)).

(** Reading the store. *)
Definition gets {A} (f : heap -> A) : M A := fun h => (h, Ok (f h)).

(** [arr.push(s)]. *)
Definition push (l : loc) (s : slot) : M unit :=
  fun h => (update h l (load h l ++ [s]), Ok tt).

(** [arr[i] = s], for an index inside the array. *)
Definition set_index (l : loc) (i : nat) (s : slot) : M unit :=
  fun h => (update h l (update (load h l) i s), Ok tt).

(** [arr[i]] as an element. *)
Definition get_slot (o : object) (i : Z) : slot :=
  match at_index o i with
  | Some s => s
  | None => Prim VUndef
  end.

(** What arithmetic and the collaborators see through an element.  The
    cells of the rows considered here are primitives. *)
Definition slot_value (s : slot) : value :=
  match s with
  | Prim v => v
  | Ref _ => VUndef
  end.

Definition slot_row (h : heap) (s : slot) : row :=
  match s with
  | Prim v => RPrim v
  | Ref l => RArray (map slot_value (load h l))
  end.

Definition read_prims (h : heap) (l : loc) : list value :=
  map slot_value (load h l).

Definition read_rows (h : heap) (l : loc) : list row :=
  map (slot_row h) (load h l).

(** A [[K, D]] row as the moving average reads it. *)
Definition row_pair (r : row) : number * value :=
  (field r 0, match r with RArray [_; d] => d | _ => VUndef end).

Definition read_pairs (h : heap) (l : loc) : list (number * value) :=
  map row_pair (read_rows h l).

(** A [[x, K, D]] row. *)
Definition row_triple (r : row) : value * number * value :=
  match r with
  | RArray [x; k; d] => (x, ToNumber k, d)
  | _ => (VUndef, nan, VUndef)
  end.

Definition read_triples (h : heap) (l : loc) : list (value * number * value) :=
  map row_triple (read_rows h l).

(** The series and the returned object, by reference. *)
Record SeriesRef : Type := {
  sr_xData : loc;
  sr_yData : option loc
}.

Record ValuesRef : Type := {
  vr_values : loc;
  vr_xData : loc;
  vr_yData : loc
}.

(** The last element of [yData], whose second field is assigned. *)
Definition last_row (o : object) : M loc :=
  match get_slot o (len o - 1) with
  | Ref r => ret r
  | Prim (VNum _) => throw
  | Prim VNull => throw
  | Prim VUndef => throw
  end.

End Store.

Notation "x <~ c1 ;; c2" := (Store.mbind c1 (fun x => c2))
  (at level 61, c1 at next level, right associativity) : js_scope.

Module StoreCode.
Import Store.

(** One iteration of the loop body; [SO], [xData] and [yData] are the
    locations of the three output arrays. *)
Definition iteration (pK pD : Z) (xVal yVal SO xData yData : loc)
    (i : Z) (D : value) : M value :=
  yv <~ gets (fun h => load h yVal) ;;
  slicedY <~ alloc (slice yv (i - pK + 1) (i + 1)) ;;
  rows <~ gets (fun h => read_rows h slicedY) ;;
  extremes <~ lift (getArrayExtremes rows low high) ;;
  let LL := fst extremes in
  bar_i <~ gets (fun h => get_row (read_rows h yVal) i) ;;
  c <~ lift (row_get bar_i close) ;;
  let K := percentK (ToNumber c) LL (snd extremes) in
  x <~ gets (fun h => get_slot (load h xVal) i) ;;
  _ <~ push xData x ;;
  r <~ alloc [Prim (VNum K); Prim VNull] ;;
  _ <~ push yData (Ref r) ;;
  D1 <~ (if (i >=? (pK - 1) + (pD - 1))%Z then
           xd <~ gets (fun h => load h xData) ;;
           xs <~ alloc (slice_from xd (- pD)) ;;
           yd <~ gets (fun h => load h yData) ;;
           ys <~ alloc (slice_from yd (- pD)) ;;
           points <~ gets (fun h =>
                       SMA.getValues (read_prims h xs) (read_pairs h ys) pD) ;;
           ret (get points 0)
         else ret D) ;;
  x' <~ gets (fun h => get_slot (load h xVal) i) ;;
  t <~ alloc [x'; Prim (VNum K); Prim D1] ;;
  _ <~ push SO (Ref t) ;;
  yd <~ gets (fun h => load h yData) ;;
  lastrow <~ last_row yd ;;
  _ <~ set_index lastrow 1 (Prim D1) ;;
  ret D1.

Fixpoint iterate (pK pD : Z) (xVal yVal SO xData yData : loc)
    (count : nat) (i : Z) (D : value) : M value :=
  match count with
  | O => ret D
  | S count' =>
      D' <~ iteration pK pD xVal yVal SO xData yData i D ;;
      iterate pK pD xVal yVal SO xData yData count' (i + 1) D'
  end.

(** [getValues(series, params)] on the store.  The three output arrays
    are allocated by the initialisers of the declarations, before the
    entry test. *)
Definition getValues (series : SeriesRef) (params : ParamsOptions)
  : M (option ValuesRef) :=
  let pK := periodK params in
  let pD := periodD params in
  let xVal := sr_xData series in
  yValLen <~ gets (fun h => match sr_yData series with
                            | Some yVal => len (load h yVal)
                            | None => 0%Z
                            end) ;;
  SO <~ alloc [] ;;
  xData <~ alloc [] ;;
  yData <~ alloc [] ;;
  if (yValLen <? pK)%Z then ret None
  else
    match sr_yData series with
    | None => throw
    | Some yVal =>
        first <~ gets (fun h => get_row (read_rows h yVal) 0) ;;
        match first with
        | RArray cells =>
            if negb (len cells =? 4)%Z then ret None
            else
              _ <~ iterate pK pD xVal yVal SO xData yData
                     (Z.to_nat (yValLen - (pK - 1))) (pK - 1) VNull ;;
              ret (Some {| vr_values := SO; vr_xData := xData; vr_yData := yData |})
        | RPrim _ => ret None
        end
    end.

End StoreCode.

(* ================================================================== *)
(** * Observers of the store *)
(* ================================================================== *)

(** The store [h] holds the series [s] at the references [sr]: the
    [xData] array holds the x values, and each element of the [yData]
    array is the primitive, or a reference to the array of primitives, of
    the corresponding row. *)
Definition slot_is (h : Store.heap) (s : Store.slot) (r : row) : Prop :=
  match s, r with
  | Store.Prim v, RPrim v' => v = v'
  | Store.Ref l, RArray cells => (l < length h)%nat /\ Store.load h l = map Store.Prim cells
  | _, _ => False
  end.

Definition represents (h : Store.heap) (sr : Store.SeriesRef) (s : Series) : Prop :=
  (Store.sr_xData sr < length h)%nat
  /\ Store.load h (Store.sr_xData sr) = map Store.Prim (xData s)
  /\ match Store.sr_yData sr, yData s with
     | Some l, Some rows => (l < length h)%nat /\ Forall2 (slot_is h) (Store.load h l) rows
     | None, None => True
     | _, _ => False
     end.

(** What a caller reads in the store through the returned references. *)
Definition read_values (h : Store.heap) (vr : Store.ValuesRef) : IndicatorValues :=
  {| values := Store.read_triples h (Store.vr_values vr);
     ivXData := Store.read_prims h (Store.vr_xData vr);
     ivYData := Store.read_pairs h (Store.vr_yData vr) |}.

Definition read_result (h : Store.heap) (r : result (option Store.ValuesRef))
  : result (option IndicatorValues) :=
  match r with
  | TypeError => TypeError
  | Ok None => Ok None
  | Ok (Some vr) => Ok (Some (read_values h vr))
  end.

(** Every location that an output array holds or is. *)
Definition is_ref_from (n : nat) (s : Store.slot) : Prop :=
  match s with
  | Store.Ref l => (n <= l)%nat
  | Store.Prim _ => False
  end.

Definition is_prim (s : Store.slot) : Prop :=
  match s with
  | Store.Prim _ => True
  | Store.Ref _ => False
  end.

(** The returned arrays, and the rows they hold, all lie at or after
    location [n]. *)
Definition allocated_from (n : nat) (h : Store.heap) (vr : Store.ValuesRef) : Prop :=
  (n <= Store.vr_values vr)%nat /\ (n <= Store.vr_xData vr)%nat
  /\ (n <= Store.vr_yData vr)%nat
  /\ Forall (is_ref_from n) (Store.load h (Store.vr_values vr))
  /\ Forall is_prim (Store.load h (Store.vr_xData vr))
  /\ Forall (is_ref_from n) (Store.load h (Store.vr_yData vr)).

(** The arrays that the loop pushes: a [[K, D]] row and a [[x, K, D]] row. *)
Definition row_object (p : number * value) : Store.object :=
  [Store.Prim (VNum (fst p)); Store.Prim (snd p)].
Definition triple_object (t : value * number * value) : Store.object :=
  [Store.Prim (rec_x t); Store.Prim (VNum (rec_k t)); Store.Prim (rec_d t)].

(** [l] is a location after the three output arrays allocated at [n],
    and holds [o] in the part [tail] of the store that follows them. *)
Definition held (n : nat) (tail : Store.heap) (l : Store.loc) (o : Store.object) : Prop :=
  (n + 3 <= l)%nat /\ nth_error tail (l - (n + 3)) = Some o.

(** The store during a call entered on the store [h0], against the state
    of the loop: the store of the call, then the three output arrays, which
    hold references to the rows pushed so far, then everything allocated
    since. *)
Definition Inv (h0 : Store.heap) (h : Store.heap) (st : LoopState) : Prop :=
  exists ts rs tail,
    h = h0 ++ map Store.Ref ts :: map Store.Prim (lsXData st) :: map Store.Ref rs :: tail
    /\ Forall2 (held (length h0) tail) rs (map row_object (lsYData st))
    /\ Forall2 (held (length h0) tail) ts (map triple_object (SO st)).

(** The scenario of the specification laid out in a store: the x values
    at location 0, the four bars at 1..4, the [yData] array at 5. *)
Definition scenario_store : list (list Store.slot) :=
  [ map Store.Prim [VNum 1; VNum 2; VNum 3; VNum 4]%float;
    map Store.Prim [VNum 5; VNum 6; VNum 4; VNum 5]%float;
    map Store.Prim [VNum 7; VNum 8; VNum 5; VNum 7]%float;
    map Store.Prim [VNum 6; VNum 7; VNum 4; VNum 6]%float;
    map Store.Prim [VNum 9; VNum 10; VNum 5; VNum 9]%float;
    map Store.Ref [1; 2; 3; 4]%nat ].
Definition scenario_ref : Store.SeriesRef :=
  {| Store.sr_xData := 0%nat; Store.sr_yData := Some 5%nat |}.

(* ================================================================== *)
(** * Auxiliary definitions on binary64 rounding *)
(* ================================================================== *)

(** Whether a shift record says that nothing has been lost. *)
Definition is_exact (mrs : shr_record) : bool :=
  negb (shr_r mrs) && negb (shr_s mrs).

(** Whether a rounding position says that nothing has been lost. *)
Definition loc_exact (l : location) : bool :=
  match l with
  | loc_Exact => true
  | loc_Inexact _ => false
  end.

(** One more unit when the position is not exact. *)
Definition excess (l : location) : Z := if loc_exact l then 0%Z else 1%Z.

(** The number 100: [25 * 2^48 * 2^-46]. *)
Definition SFhundred : spec_float :=
  S754_finite false 7036874417766400%positive (-46)%Z.

(** Neither NaN nor an infinity. *)
Definition finite_or_zero (x : spec_float) : bool :=
  match x with
  | S754_zero _ => true
  | S754_finite _ _ _ => true
  | _ => false
  end.

(** [r] is an integer nearest to [m / P], and an even one when [m / P]
    lies half way between two integers. *)
Definition nearest_even (m P r : Z) : Prop :=
  (2 * Z.abs (r * P - m) <= P)%Z
  /\ ((2 * Z.abs (r * P - m))%Z = P -> Z.even r = true).

(** What a shift record remembers of the bits it has dropped: the
    mantissa [q], the round bit and the sticky bit describe [m / P]. *)
Definition records (m P : Z) (mrs : shr_record) : Prop :=
  (0 <= shr_m mrs)%Z
  /\ exists u : Z, (0 <= u < P)%Z
       /\ (2 * m = 2 * shr_m mrs * P + (if shr_r mrs then P else 0) + u)%Z
       /\ shr_s mrs = negb (u =? 0)%Z.

(** The value of a mantissa and an exponent, in units of [2^-1074]. *)
Definition units (m e : Z) : Z := (m * 2 ^ (e + 1074))%Z.

(** The least exponent at which a value of [d] binary digits (counted
    from [2^-1074]) is rounded. *)
Definition grid (d : Z) : Z := Z.max (d - 53) 0%Z.

(** The binary64 threshold of overflow, in units of [2^-1074]. *)
Definition overflow : Z := units (2 ^ 53) 971%Z.

(** The value of a finite number, in units of [2^-1074]. *)
Definition Zval (f : spec_float) : Z :=
  match f with
  | S754_finite s m e => units (cond_Zopp s (Z.pos m)) e
  | _ => 0%Z
  end.

(* ================================================================== *)
(** * Bars and series for the range of the raw line *)
(* ================================================================== *)

(** A bar of finite numbers whose open and close lie between its low and
    its high. *)
Definition is_ordered_bar (r : row) : bool :=
  match r with
  | RArray [VNum o; VNum h; VNum l; VNum c] =>
      is_finite o && is_finite h && is_finite l && is_finite c
      && (l <=? o)%float && (o <=? h)%float
      && (l <=? c)%float && (c <=? h)%float
  | _ => false
  end.

(** One bar whose low and high are so far apart that their difference is
    not a finite number; its close equals its high. *)
Definition widest_bar : Series :=
  {| xData := [VNum 1%float];
     yData := Some [bar 0 0x1p1023 (-0x1p1023) 0x1p1023]%float |}.

(** One bar whose close, 5, lies above its high, 2. *)
Definition close_above_high : Series :=
  {| xData := [VNum 1%float]; yData := Some [bar 0 2 1 5]%float |}.

(** One bar with high = low = 1 and close = 2. *)
Definition flat_bar_off_close : Series :=
  {| xData := [VNum 1%float]; yData := Some [bar 1 1 1 2]%float |}.


(* ================================================================== *)
(** * Further example series *)
(* ================================================================== *)

(** The first three bars of the scenario of the specification. *)
Definition scenario_start : Series :=
  {| xData := [VNum 1; VNum 2; VNum 3]%float;
     yData := Some [bar 5 6 4 5; bar 7 8 5 7; bar 6 7 4 6]%float |}.

(** The scenario with other x values and another [periodD]. *)
Definition scenario_respaced : Series :=
  {| xData := [VNum 10; VNum 20; VNum 40; VNum 80]%float;
     yData := Some [bar 5 6 4 5; bar 7 8 5 7; bar 6 7 4 6; bar 9 10 5 9]%float |}.

(** The scenario of the specification with another first bar. *)
Definition scenario_other_start : Series :=
  {| xData := [VNum 1; VNum 2; VNum 3; VNum 4]%float;
     yData := Some [bar 1 2 1 1; bar 7 8 5 7; bar 6 7 4 6; bar 9 10 5 9]%float |}.

(* ================================================================== *)
(** * Observers of the arrays of a result *)
(* ================================================================== *)

(** The locations that an array holds. *)
Definition refs (o : list Store.slot) : list nat :=
  flat_map (fun s => match s with Store.Ref l => [l] | Store.Prim _ => [] end) o.

(** Every array that a caller reaches through a result: the three
    returned arrays, the rows of [values] and the rows of [yData]. *)
Definition returned_arrays (h : list (list Store.slot)) (vr : Store.ValuesRef)
  : list nat :=
  Store.vr_values vr :: Store.vr_xData vr :: Store.vr_yData vr
    :: refs (Store.load h (Store.vr_values vr))
    ++ refs (Store.load h (Store.vr_yData vr)).

(** The store during a call, with the rows pushed so far all different
    arrays. *)
Definition InvDistinct (h0 : Store.heap) (h : Store.heap) (st : LoopState) : Prop :=
  exists ts rs tail,
    h = h0 ++ map Store.Ref ts :: map Store.Prim (lsXData st) :: map Store.Ref rs :: tail
    /\ Forall2 (held (length h0) tail) rs (map row_object (lsYData st))
    /\ Forall2 (held (length h0) tail) ts (map triple_object (SO st))
    /\ NoDup (ts ++ rs).

(* ================================================================== *)
(** * Arrays: lengths, reads and slices *)
(* ================================================================== *)

Lemma len_nonneg {A} (l : list A) : (0 <= len l)%Z.
Proof. unfold len. lia. Qed.

Lemma len_app {A} (l1 l2 : list A) : len (l1 ++ l2) = (len l1 + len l2)%Z.
Proof. unfold len. rewrite length_app. lia. Qed.

Lemma len_map {A B} (f : A -> B) (l : list A) : len (map f l) = len l.
Proof. unfold len. now rewrite length_map. Qed.

Lemma at_index_in_range {A} (l : list A) (i : Z) :
  (0 <= i < len l)%Z -> exists a, at_index l i = Some a /\ In a l.
Proof.
  intros Hi. unfold at_index, len in *.
  destruct (Z.ltb_spec i 0) as [Hneg | _]; [lia |].
  destruct (nth_error l (Z.to_nat i)) as [a |] eqn:E.
  - exists a. split; [reflexivity | eapply nth_error_In; eassumption].
  - apply nth_error_None in E. lia.
Qed.

Lemma at_index_out_of_range {A} (l : list A) (i : Z) :
  (i < 0 \/ len l <= i)%Z -> at_index l i = None.
Proof.
  intros Hi. unfold at_index, len in *.
  destruct (Z.ltb_spec i 0) as [Hneg | Hpos]; [reflexivity |].
  apply nth_error_None. lia.
Qed.

Lemma at_index_nat {A} (l : list A) (n : nat) :
  at_index l (Z.of_nat n) = nth_error l n.
Proof.
  unfold at_index. destruct (Z.ltb_spec (Z.of_nat n) 0); [lia |].
  now rewrite Nat2Z.id.
Qed.

Lemma at_index_map {A B} (f : A -> B) (l : list A) (i : Z) :
  at_index (map f l) i = option_map f (at_index l i).
Proof.
  unfold at_index. destruct (i <? 0)%Z; [reflexivity | apply nth_error_map].
Qed.

Lemma at_index_app_last {A} (l : list A) (a : A) :
  at_index (l ++ [a]) (len l) = Some a.
Proof.
  unfold len. rewrite at_index_nat, nth_error_app2 by lia.
  now rewrite Nat.sub_diag.
Qed.

Lemma at_index_app_old {A} (l : list A) (a : A) (i : Z) :
  (i < len l)%Z -> at_index (l ++ [a]) i = at_index l i.
Proof.
  intros Hi. unfold at_index, len in *.
  destruct (Z.ltb_spec i 0); [reflexivity |].
  apply nth_error_app1. lia.
Qed.

(** A slice between two indices that are in range. *)
Lemma slice_in_range {A} (l : list A) (a b : Z) :
  (0 <= a <= b)%Z -> (b <= len l)%Z ->
  slice l a b = firstn (Z.to_nat (b - a)) (skipn (Z.to_nat a) l).
Proof.
  intros Hab Hb. unfold slice, rel_index.
  destruct (Z.ltb_spec a 0); [lia |].
  destruct (Z.ltb_spec b 0); [lia |].
  now rewrite !Z.min_l by lia.
Qed.

Lemma len_slice_in_range {A} (l : list A) (a b : Z) :
  (0 <= a <= b)%Z -> (b <= len l)%Z -> len (slice l a b) = (b - a)%Z.
Proof.
  intros Hab Hb. rewrite slice_in_range by assumption.
  unfold len in *. rewrite length_firstn, length_skipn. lia.
Qed.

Lemma at_index_slice {A} (l : list A) (a b k : Z) :
  (0 <= a <= b)%Z -> (b <= len l)%Z -> (0 <= k < b - a)%Z ->
  at_index (slice l a b) k = at_index l (a + k).
Proof.
  intros Hab Hb Hk. rewrite slice_in_range by assumption.
  unfold at_index.
  destruct (Z.ltb_spec k 0); [lia |].
  destruct (Z.ltb_spec (a + k) 0); [lia |].
  rewrite nth_error_firstn, nth_error_skipn.
  destruct (Nat.ltb_spec (Z.to_nat k) (Z.to_nat (b - a))); [| lia].
  f_equal. lia.
Qed.

Lemma In_slice {A} (l : list A) (a b : Z) (x : A) :
  In x (slice l a b) -> In x l.
Proof.
  unfold slice. intros H.
  rewrite <- (firstn_skipn (Z.to_nat (rel_index (len l) a)) l).
  apply in_or_app. right.
  match goal with
  | H : In x (firstn ?n ?s) |- _ => rewrite <- (firstn_skipn n s)
  end.
  apply in_or_app. now left.
Qed.

(** [arr.slice(-p)] keeps the last [p] elements (all of them when the
    array is shorter). *)
Lemma slice_from_last {A} (l : list A) (p : Z) :
  (1 <= p)%Z ->
  slice_from l (- p) = skipn (Z.to_nat (Z.max (len l - p) 0)) l.
Proof.
  intros Hp. unfold slice_from, slice, rel_index.
  pose proof (len_nonneg l) as Hl.
  destruct (Z.ltb_spec (- p) 0); [| lia].
  destruct (Z.ltb_spec (len l) 0); [lia |].
  rewrite Z.min_id, Z.add_opp_r.
  apply firstn_all2. rewrite length_skipn. unfold len in *. lia.
Qed.

Lemma slice_from_last_eq_slice {A} (l : list A) (p : Z) :
  (1 <= p <= len l)%Z ->
  slice_from l (- p) = slice l (len l - p) (len l).
Proof.
  intros Hp. rewrite slice_from_last by lia.
  rewrite slice_in_range by lia.
  rewrite Z.max_l by lia.
  symmetry. apply firstn_all2. rewrite length_skipn. unfold len. lia.
Qed.

Lemma slice_map {A B} (f : A -> B) (l : list A) (a b : Z) :
  slice (map f l) a b = map f (slice l a b).
Proof.
  unfold slice. rewrite len_map, skipn_map, firstn_map. reflexivity.
Qed.

Lemma slice_app_prefix {A} (l l' : list A) (a b : Z) :
  (0 <= a <= b)%Z -> (b <= len l)%Z ->
  slice (l ++ l') a b = slice l a b.
Proof.
  intros Hab Hb.
  rewrite !slice_in_range by (rewrite ?len_app; pose proof (len_nonneg l'); lia).
  rewrite skipn_app, firstn_app, length_skipn.
  replace (Z.to_nat a - length l)%nat with 0%nat by (unfold len in *; lia).
  replace (Z.to_nat (b - a) - (length l - Z.to_nat a))%nat with 0%nat
    by (unfold len in *; lia).
  cbn [skipn firstn]. now rewrite app_nil_r.
Qed.

(* ================================================================== *)
(** * The collaborators on well-behaved arguments *)
(* ================================================================== *)

Lemma row_get_readable (r : row) (k : Z) :
  readable r = true -> exists v, row_get r k = Ok v /\ ToNumber v = field r k.
Proof.
  unfold field. destruct r as [cells | [x | |]]; cbn; intros H;
    try discriminate; eexists; split; reflexivity.
Qed.

Lemma getArrayExtremes_from (arr : list row) (lo hi : Z) (a b : number) :
  Forall (fun r => readable r = true) arr ->
  fold_left
    (fun acc target =>
       prev <- acc ;;
       l <- row_get target lo ;;
       h <- row_get target hi ;;
       Ok (Math_min (fst prev) (ToNumber l), Math_max (snd prev) (ToNumber h)))
    arr (Ok (a, b))
  = Ok (fold_left Math_min (map (fun r => field r lo) arr) a,
        fold_left Math_max (map (fun r => field r hi) arr) b).
Proof.
  intros Hall. revert a b.
  induction Hall as [| r arr Hr _ IH]; intros a b; [reflexivity |].
  cbn [fold_left map bind fst snd].
  destruct (row_get_readable r lo Hr) as (l & -> & <-).
  destruct (row_get_readable r hi Hr) as (h & -> & <-).
  apply IH.
Qed.

Lemma getArrayExtremes_readable (arr : list row) (lo hi : Z) :
  Forall (fun r => readable r = true) arr ->
  getArrayExtremes arr lo hi
  = Ok (fold_left Math_min (map (fun r => field r lo) arr) infinity,
        fold_left Math_max (map (fun r => field r hi) arr) neg_infinity).
Proof. apply getArrayExtremes_from. Qed.

(** Once a read has thrown, the reduction stays thrown. *)
Lemma getArrayExtremes_thrown (arr : list row) (lo hi : Z) :
  fold_left
    (fun acc target =>
       prev <- acc ;;
       l <- row_get target lo ;;
       h <- row_get target hi ;;
       Ok (Math_min (fst prev) (ToNumber l), Math_max (snd prev) (ToNumber h)))
    arr TypeError
  = TypeError.
Proof. induction arr as [| r arr IH]; [reflexivity | exact IH]. Qed.

Lemma windows_exact (l : list number) :
  l <> [] -> SMA.windows (length l) l = [l].
Proof.
  destruct l as [| x l]; [congruence | intros _].
  cbn [SMA.windows]. rewrite Nat.leb_refl, firstn_all. f_equal.
  destruct l as [| y l]; cbn [SMA.windows]; [reflexivity |].
  destruct (Nat.leb_spec (length (x :: y :: l)) (length (y :: l))) as [H | _];
    [cbn [length] in H; lia | reflexivity].
Qed.

(** On exactly [period] rows the moving average has one value, the mean
    of their first fields. *)
Lemma SMA_getValues_exact (xs : list value) (rows : list (number * value))
    (period : Z) :
  (1 <= period)%Z -> len rows = period ->
  get (SMA.getValues xs rows period) 0 = VNum (SMA.mean (map fst rows) period).
Proof.
  intros Hp Hlen. unfold SMA.getValues.
  replace (Z.to_nat period) with (length (map fst rows))
    by (rewrite length_map; unfold len in Hlen; lia).
  rewrite windows_exact; [reflexivity |].
  destruct rows; [cbn in Hlen; lia | discriminate].
Qed.

(* ================================================================== *)
(** * The loop *)
(* ================================================================== *)

Lemma set_last_smoothed_snoc (rows : list (number * value)) (k : number)
    (d0 d : value) :
  set_last_smoothed (rows ++ [(k, d0)]) d = rows ++ [(k, d)].
Proof.
  unfold set_last_smoothed. rewrite rev_unit, rev_involutive. reflexivity.
Qed.

Lemma iteration_readable (pK pD : Z) (xVal : list value) (yVal : list row)
    (i : Z) (st : LoopState) :
  Forall (fun r => readable r = true) yVal ->
  (0 <= i < len yVal)%Z ->
  iteration pK pD xVal yVal i st
  = let d := next_D pK pD xVal yVal i st in
    Ok {| SO := SO st ++ [(get xVal i, K_at yVal pK i, d)];
          lsXData := lsXData st ++ [get xVal i];
          lsYData := lsYData st ++ [(K_at yVal pK i, d)];
          D := d |}.
Proof.
  intros Hall Hi. unfold iteration.
  rewrite getArrayExtremes_readable.
  2:{ apply Forall_forall. intros r Hr. apply In_slice in Hr.
      rewrite Forall_forall in Hall. now apply Hall. }
  cbn [bind fst snd].
  destruct (at_index_in_range yVal i Hi) as (r & Hr & Hin).
  assert (Hread : readable r = true)
    by (rewrite Forall_forall in Hall; now apply Hall).
  unfold get_row at 1. rewrite Hr.
  destruct (row_get_readable r close Hread) as (c & -> & Hc).
  cbn [bind]. rewrite set_last_smoothed_snoc.
  unfold next_D, K_at, window, get_row. rewrite Hr, Hc. reflexivity.
Qed.

Lemma iterate_S (pK pD : Z) (xVal : list value) (yVal : list row)
    (n : nat) (i : Z) (st : LoopState) :
  iterate pK pD xVal yVal (S n) i st
  = (st' <- iteration pK pD xVal yVal i st ;;
     iterate pK pD xVal yVal n (i + 1) st').
Proof. reflexivity. Qed.

Lemma iterate_snoc (pK pD : Z) (xVal : list value) (yVal : list row)
    (n : nat) (i : Z) (st : LoopState) :
  iterate pK pD xVal yVal (S n) i st
  = (st' <- iterate pK pD xVal yVal n i st ;;
     iteration pK pD xVal yVal (i + Z.of_nat n) st').
Proof.
  revert i st. induction n as [| n IH]; intros i st.
  - cbn [iterate bind]. rewrite Z.add_0_r.
    destruct (iteration pK pD xVal yVal i st); reflexivity.
  - rewrite (iterate_S pK pD xVal yVal (S n)), (iterate_S pK pD xVal yVal n).
    destruct (iteration pK pD xVal yVal i st) as [st1 |]; [| reflexivity].
    cbn [bind]. rewrite IH.
    replace (i + 1 + Z.of_nat n)%Z with (i + Z.of_nat (S n))%Z by lia.
    reflexivity.
Qed.

Lemma Ks_snoc (yVal : list row) (pK : Z) (n : nat) :
  Ks yVal pK (S n) = Ks yVal pK n ++ [K_at yVal pK (pK - 1 + Z.of_nat n)].
Proof. unfold Ks. now rewrite seq_S, map_app. Qed.

Lemma Xs_snoc (xVal : list value) (pK : Z) (n : nat) :
  Xs xVal pK (S n) = Xs xVal pK n ++ [get xVal (pK - 1 + Z.of_nat n)].
Proof. unfold Xs. now rewrite seq_S, map_app. Qed.

Lemma length_Ks (yVal : list row) (pK : Z) (n : nat) : length (Ks yVal pK n) = n.
Proof. unfold Ks. now rewrite length_map, length_seq. Qed.

Lemma Ks_prefix (yVal : list row) (pK : Z) (n m : nat) :
  (n <= m)%nat -> exists rest, Ks yVal pK m = Ks yVal pK n ++ rest.
Proof.
  intros Hnm. unfold Ks.
  replace m with (n + (m - n))%nat by lia.
  rewrite seq_app, map_app. eexists. reflexivity.
Qed.

Lemma last_map_seq {A} (f : nat -> A) (n : nat) (d : A) :
  last (map f (seq 0 n)) d = match n with O => d | S m => f m end.
Proof.
  destruct n as [| m]; [reflexivity |].
  rewrite seq_S, map_app. cbn [map]. apply last_last.
Qed.

Lemma next_D_closed (pK pD : Z) (xVal : list value) (yVal : list row)
    (n : nat) (st : LoopState) :
  (1 <= pD)%Z ->
  Trace pK pD xVal yVal n st ->
  next_D pK pD xVal yVal (pK - 1 + Z.of_nat n) st = D_at yVal pK pD n.
Proof.
  intros HpD T. unfold next_D, D_at.
  destruct (Z.geb_spec (pK - 1 + Z.of_nat n) (pK - 1 + (pD - 1)))
    as [Hge | Hlt];
    destruct (Z.ltb_spec (Z.of_nat n) (pD - 1)) as [Hlt' | Hge']; try lia.
  - assert (Hlen : len (lsYData st ++ [(K_at yVal pK (pK - 1 + Z.of_nat n), VNull)])
                   = (Z.of_nat n + 1)%Z).
    { rewrite len_app, (tr_yData T), len_map, <- (len_map rec_k), (tr_ks T).
      unfold len. rewrite length_Ks. cbn. lia. }
    rewrite (slice_from_last_eq_slice (lsYData st ++ _) pD) by lia.
    rewrite Hlen, SMA_getValues_exact.
    + rewrite <- slice_map, map_app, (tr_yData T), map_map. cbn [map fst].
      change (map (fun x => rec_k x) (SO st)) with (map rec_k (SO st)).
      rewrite (tr_ks T), <- Ks_snoc.
      do 3 f_equal. lia.
    + assumption.
    + rewrite len_slice_in_range by lia. lia.
  - rewrite (tr_D T), (tr_ds T HpD), last_map_seq.
    destruct n as [| m]; [reflexivity |].
    unfold D_at. destruct (Z.ltb_spec (Z.of_nat m) (pD - 1)); [reflexivity | lia].
Qed.

Lemma run_trace (pK pD : Z) (xVal : list value) (yVal : list row) (n : nat) :
  Forall (fun r => readable r = true) yVal ->
  (1 <= pK)%Z -> (pK - 1 + Z.of_nat n <= len yVal)%Z ->
  exists st, iterate pK pD xVal yVal n (pK - 1) initial = Ok st
             /\ Trace pK pD xVal yVal n st.
Proof.
  intros Hall HpK. induction n as [| n IH]; intros Hn.
  - exists initial. split; [reflexivity |].
    constructor; reflexivity.
  - destruct IH as (st & Hrun & T); [lia |].
    rewrite iterate_snoc, Hrun. cbn [bind].
    rewrite iteration_readable by (assumption || lia).
    cbv zeta. eexists. split; [reflexivity |].
    constructor; cbn [SO lsXData lsYData D].
    + rewrite map_app, (tr_xData T). reflexivity.
    + rewrite map_app, (tr_yData T). reflexivity.
    + rewrite map_app, (tr_xs T), Xs_snoc. reflexivity.
    + rewrite map_app, (tr_ks T), Ks_snoc. reflexivity.
    + rewrite map_app. cbn [map]. now rewrite last_last.
    + intros HpD. rewrite map_app, (tr_ds T HpD), seq_S, map_app.
      cbn [map rec_d snd]. now rewrite (next_D_closed pK pD xVal yVal n st HpD T).
Qed.

(* ================================================================== *)
(** * The call as a whole *)
(* ================================================================== *)

Lemma first_row_ok_dec (yVal : list row) : first_row_ok yVal \/ ~ first_row_ok yVal.
Proof.
  unfold first_row_ok. destruct (get_row yVal 0) as [cells | v].
  - destruct (Z.eq_dec (len cells) 4) as [E | NE].
    + left. eauto.
    + right. intros (c & [= <-] & Hc). contradiction.
  - right. intros (c & [=] & _).
Qed.

Lemma getValues_rejects (series : Series) (params : ParamsOptions)
    (yVal : list row) :
  yData series = Some yVal ->
  (len yVal < periodK params)%Z \/ ~ first_row_ok yVal ->
  getValues series params = Ok None.
Proof.
  intros Hy Hbad. unfold getValues. rewrite Hy.
  destruct (Z.ltb_spec (len yVal) (periodK params)) as [_ | Hlen];
    [reflexivity |].
  destruct Hbad as [Hshort | Hfirst]; [lia |].
  destruct (get_row yVal 0) as [cells | v] eqn:E; [| reflexivity].
  destruct (Z.eqb_spec (len cells) 4) as [Hc | _]; [| reflexivity].
  exfalso. apply Hfirst. exists cells. now rewrite E.
Qed.

Lemma getValues_enters (series : Series) (params : ParamsOptions)
    (yVal : list row) :
  yData series = Some yVal ->
  (periodK params <= len yVal)%Z -> first_row_ok yVal ->
  getValues series params
  = (st <- iterate (periodK params) (periodD params) (xData series) yVal
             (Z.to_nat (len yVal - (periodK params - 1))) (periodK params - 1)
             initial ;;
     Ok (Some {| values := SO st; ivXData := lsXData st; ivYData := lsYData st |})).
Proof.
  intros Hy Hlen (cells & Hfirst & Hcells). unfold getValues. rewrite Hy.
  destruct (Z.ltb_spec (len yVal) (periodK params)); [lia |].
  rewrite Hfirst, Hcells. reflexivity.
Qed.

Lemma getValues_runs (series : Series) (params : ParamsOptions)
    (yVal : list row) :
  yData series = Some yVal ->
  (1 <= periodK params <= len yVal)%Z -> first_row_ok yVal ->
  Forall (fun r => readable r = true) yVal ->
  exists st,
    getValues series params
    = Ok (Some {| values := SO st; ivXData := lsXData st; ivYData := lsYData st |})
    /\ Trace (periodK params) (periodD params) (xData series) yVal
         (Z.to_nat (len yVal - periodK params + 1)) st.
Proof.
  intros Hy HpK Hfirst Hall.
  rewrite (getValues_enters series params yVal Hy) by (assumption || lia).
  replace (len yVal - (periodK params - 1))%Z
    with (len yVal - periodK params + 1)%Z by lia.
  destruct (run_trace (periodK params) (periodD params) (xData series) yVal
              (Z.to_nat (len yVal - periodK params + 1)) Hall)
    as (st & -> & T); [lia | lia |].
  exists st. split; [reflexivity | assumption].
Qed.

Lemma is_bar_readable (r : row) : is_bar r = true -> readable r = true.
Proof. destruct r as [cells | [x | |]]; cbn; congruence. Qed.

Lemma is_bar_cells (r : row) :
  is_bar r = true -> exists o h l c, r = bar o h l c.
Proof.
  destruct r as [cells | v]; cbn; [| discriminate].
  destruct cells as [| [o | |] [| [h | |] [| [l | |] [| [c | |] [|]]]]];
    try discriminate.
  intros _. exists o, h, l, c. reflexivity.
Qed.

Lemma bars_readable (yVal : list row) :
  Forall (fun r => is_bar r = true) yVal ->
  Forall (fun r => readable r = true) yVal.
Proof. apply Forall_impl. exact is_bar_readable. Qed.

Lemma bars_first_row_ok (yVal : list row) :
  Forall (fun r => is_bar r = true) yVal -> (1 <= len yVal)%Z ->
  first_row_ok yVal.
Proof.
  intros Hall Hlen. destruct yVal as [| r yVal]; [cbn in Hlen; lia |].
  apply Forall_inv in Hall. destruct (is_bar_cells r Hall) as (o & h & l & c & ->).
  eexists. split; reflexivity.
Qed.

(* ================================================================== *)
(** * Shape of the output *)
(* ================================================================== *)

Lemma get_Xs (xVal : list value) (pK : Z) (n : nat) (j : Z) :
  (0 <= j < Z.of_nat n)%Z -> get (Xs xVal pK n) j = get xVal (pK - 1 + j).
Proof.
  intros Hj. unfold get at 1, Xs.
  rewrite at_index_map. unfold at_index.
  destruct (Z.ltb_spec j 0); [lia |].
  rewrite nth_error_seq.
  destruct (Nat.ltb_spec (Z.to_nat j) n); [| lia].
  cbn [option_map]. f_equal. lia.
Qed.

Lemma len_values_of_trace (pK pD : Z) (xVal : list value) (yVal : list row)
    (n : nat) (st : LoopState) :
  Trace pK pD xVal yVal n st -> len (SO st) = Z.of_nat n.
Proof.
  intros T. rewrite <- (len_map rec_k), (tr_ks T). unfold len.
  now rewrite length_Ks.
Qed.

(** C3: on a series of well-shaped bars with [series.length >= periodK],
    [getValues] returns exactly [series.length - periodK + 1] records; the
    three returned sequences have that same length and are aligned index by
    index ([xData] and [yData] are the projections of [values]); and the x
    value at output position [j] is the x value of input bar
    [j + periodK - 1]. *)
Theorem output_records_aligned (series : Series) (params : ParamsOptions)
    (yVal : list row) :
  yData series = Some yVal ->
  Forall (fun r => is_bar r = true) yVal ->
  (1 <= periodK params <= len yVal)%Z ->
  exists out,
    getValues series params = Ok (Some out)
    /\ len (values out) = (len yVal - periodK params + 1)%Z
    /\ len (ivXData out) = len (values out)
    /\ len (ivYData out) = len (values out)
    /\ ivXData out = map rec_x (values out)
    /\ ivYData out = map (fun t => (rec_k t, rec_d t)) (values out)
    /\ forall j, (0 <= j < len yVal - periodK params + 1)%Z ->
         get (ivXData out) j = get (xData series) (j + periodK params - 1).
Proof.
  intros Hy Hbars HpK.
  destruct (getValues_runs series params yVal Hy HpK) as (st & Hrun & T).
  { apply bars_first_row_ok; [assumption | lia]. }
  { now apply bars_readable. }
  eexists. split; [exact Hrun |]. cbn [values ivXData ivYData].
  pose proof (len_values_of_trace _ _ _ _ _ _ T) as Hlen.
  repeat split.
  - rewrite Hlen. lia.
  - now rewrite (tr_xData T), len_map.
  - now rewrite (tr_yData T), len_map.
  - exact (tr_xData T).
  - exact (tr_yData T).
  - intros j Hj. rewrite (tr_xData T), (tr_xs T), get_Xs by lia.
    f_equal. lia.
Qed.

Lemma output_records_aligned_scenario :
  exists out,
    getValues scenario {| periodK := 3; periodD := 3 |} = Ok (Some out)
    /\ len (values out) = 2%Z
    /\ len (ivXData out) = len (values out)
    /\ len (ivYData out) = len (values out)
    /\ ivXData out = map rec_x (values out)
    /\ ivYData out = map (fun t => (rec_k t, rec_d t)) (values out)
    /\ forall j, (0 <= j < 2)%Z ->
         get (ivXData out) j = get (xData scenario) (j + 3 - 1).
Proof.
  refine (output_records_aligned scenario {| periodK := 3; periodD := 3 |}
            _ eq_refl _ _).
  - repeat constructor.
  - cbn. lia.
Defined.

(* ================================================================== *)
(** * The entry test *)
(* ================================================================== *)

(** C4, as stated, fails: a series where some bar does not carry four
    numeric fields is not always turned away.  Here the second bar has one
    field and two records come out. *)
Lemma malformed_later_bar_is_processed :
  ~ (forall (series : Series) (params : ParamsOptions) (yVal : list row),
        yData series = Some yVal ->
        (len yVal < periodK params)%Z \/ ~ Forall (fun r => is_bar r = true) yVal ->
        getValues series params = Ok None).
Proof.
  intros H.
  specialize (H short_second_bar {| periodK := 1; periodD := 1 |} _ eq_refl).
  assert (Hbad : ~ Forall (fun r => is_bar r = true)
                     [bar 1 2 1 1; RArray [VNum 1%float]]%float).
  { intros HF. apply Forall_inv_tail, Forall_inv in HF. discriminate HF. }
  specialize (H (or_intror Hbad)). vm_compute in H. discriminate H.
Qed.

(** C4, amended: when the series is shorter than [periodK] (a series
    without [yData] has length 0), or its first row is not an array of
    exactly four fields, [getValues] returns nothing at all (the bare
    [return;]), never a partial result.  Rows after the first, and the
    content of the first, are not looked at. *)
Theorem short_or_misshapen_first_row_rejected (series : Series)
    (params : ParamsOptions) :
  (match yData series with
   | Some yVal => (len yVal < periodK params)%Z \/ ~ first_row_ok yVal
   | None => (0 < periodK params)%Z
   end) ->
  getValues series params = Ok None.
Proof.
  destruct (yData series) as [yVal |] eqn:Hy.
  - intros Hbad. unfold getValues. rewrite Hy.
    destruct (Z.ltb_spec (len yVal) (periodK params)) as [_ | Hlen];
      [reflexivity |].
    destruct Hbad as [Hshort | Hfirst]; [lia |].
    destruct (get_row yVal 0) as [cells | v] eqn:E; [| reflexivity].
    destruct (Z.eqb_spec (len cells) 4) as [Hc | _]; [| reflexivity].
    exfalso. apply Hfirst. exists cells. now rewrite E.
  - intros Hp. unfold getValues. rewrite Hy.
    destruct (Z.ltb_spec 0 (periodK params)); [reflexivity | lia].
Qed.

Lemma short_series_rejected :
  getValues two_bars {| periodK := 3; periodD := 3 |} = Ok None.
Proof.
  apply (short_or_misshapen_first_row_rejected
           two_bars {| periodK := 3; periodD := 3 |}).
  left. cbn. lia.
Defined.

(** C7, as stated, fails on one kind of later row: when a later row is
    [null] (or [undefined]) the call does not return sequences, it throws. *)
Lemma null_later_row_throws :
  ~ (forall (series : Series) (params : ParamsOptions) (yVal : list row),
        yData series = Some yVal ->
        (1 <= periodK params <= len yVal)%Z ->
        (exists o h l c, get_row yVal 0 = bar o h l c) ->
        exists out, getValues series params = Ok (Some out)).
Proof.
  intros H.
  destruct (H null_second_row {| periodK := 1; periodD := 1 |} _ eq_refl)
    as (out & Hout).
  - cbn. lia.
  - now exists 1%float, 2%float, 1%float, 1%float.
  - vm_compute in Hout. discriminate Hout.
Qed.

(** C7, amended: the entry test looks at the first row only.  On a series
    with no [null] or [undefined] row, [getValues] returns the full output
    as soon as the series is long enough and its first row is an array of
    length four, whatever the later rows are; and it returns nothing exactly
    when the series is too short or the first row fails that test. *)
Theorem only_first_row_is_tested (series : Series) (params : ParamsOptions)
    (yVal : list row) :
  yData series = Some yVal ->
  (1 <= periodK params)%Z ->
  Forall (fun r => readable r = true) yVal ->
  ((periodK params <= len yVal)%Z -> first_row_ok yVal ->
     exists out, getValues series params = Ok (Some out)
       /\ len (values out) = (len yVal - periodK params + 1)%Z)
  /\ (getValues series params = Ok None
      <-> (len yVal < periodK params)%Z \/ ~ first_row_ok yVal).
Proof.
  intros Hy HpK Hall.
  assert (Hacc : (periodK params <= len yVal)%Z -> first_row_ok yVal ->
            exists out, getValues series params = Ok (Some out)
              /\ len (values out) = (len yVal - periodK params + 1)%Z).
  { intros Hlen Hfirst.
    destruct (getValues_runs series params yVal Hy) as (st & Hrun & T);
      [lia | assumption | assumption |].
    eexists. split; [exact Hrun |]. cbn [values].
    rewrite (len_values_of_trace _ _ _ _ _ _ T). lia. }
  split; [exact Hacc |]. split.
  - intros Hnone.
    destruct (Z.lt_ge_cases (len yVal) (periodK params)) as [Hlt | Hge];
      [now left |].
    destruct (first_row_ok_dec yVal) as [Hok | Hno]; [| now right].
    destruct (Hacc Hge Hok) as (out & Hout & _). congruence.
  - now apply getValues_rejects.
Qed.

Lemma only_first_row_is_tested_ragged :
  ((1 <= len ragged_rows)%Z -> first_row_ok ragged_rows ->
     exists out, getValues ragged_series {| periodK := 1; periodD := 1 |} = Ok (Some out)
       /\ len (values out) = (len ragged_rows - 1 + 1)%Z)
  /\ (getValues ragged_series {| periodK := 1; periodD := 1 |} = Ok None
      <-> (len ragged_rows < 1)%Z \/ ~ first_row_ok ragged_rows).
Proof.
  refine (only_first_row_is_tested ragged_series {| periodK := 1; periodD := 1 |}
            ragged_rows eq_refl _ _).
  - cbn. lia.
  - repeat constructor.
Defined.

(* ================================================================== *)
(** * The smoothed line *)
(* ================================================================== *)

Lemma at_index_map_seq {A} (f : nat -> A) (n : nat) (j : Z) :
  (0 <= j < Z.of_nat n)%Z ->
  at_index (map f (seq 0 n)) j = Some (f (Z.to_nat j)).
Proof.
  intros Hj. rewrite at_index_map. unfold at_index.
  destruct (Z.ltb_spec j 0); [lia |].
  rewrite nth_error_seq.
  destruct (Nat.ltb_spec (Z.to_nat j) n); [reflexivity | lia].
Qed.


Lemma D_at_present (yVal : list row) (pK pD : Z) (j n : nat) :
  (1 <= pD)%Z -> (pD - 1 <= Z.of_nat j)%Z -> (j < n)%nat ->
  D_at yVal pK pD j
  = VNum (SMA.mean (slice (Ks yVal pK n) (Z.of_nat j - pD + 1) (Z.of_nat j + 1)) pD).
Proof.
  intros HpD Hj Hn. unfold D_at.
  destruct (Z.ltb_spec (Z.of_nat j) (pD - 1)); [lia |].
  destruct (Ks_prefix yVal pK (S j) n) as (rest & ->); [lia |].
  rewrite slice_app_prefix; [reflexivity | lia |].
  unfold len. rewrite length_Ks. lia.
Qed.



(* ================================================================== *)
(** * Binary64 facts: NaN and equal operands *)
(* ================================================================== *)

Lemma is_nan_spec (x : number) : is_nan x = true <-> Prim2SF x = S754_nan.
Proof.
  unfold is_nan. rewrite eqb_spec. unfold SFeqb.
  destruct (Prim2SF x) as [s | s | | s m e] eqn:E; cbn.
  - split; discriminate.
  - destruct s; split; discriminate.
  - split; reflexivity.
  - destruct s; rewrite Z.compare_refl, Pos.compare_cont_refl; cbn;
      split; discriminate.
Qed.

Lemma eq_nan_spec (x : number) : x = nan <-> Prim2SF x = S754_nan.
Proof.
  split; [intros ->; reflexivity |].
  intros H. apply Prim2SF_inj. rewrite H. reflexivity.
Qed.



Lemma div_nan_l (x : number) : (nan / x)%float = nan.
Proof.
  apply eq_nan_spec. rewrite div_spec. change (Prim2SF nan) with S754_nan.
  reflexivity.
Qed.

Lemma mul_nan_l (x : number) : (nan * x)%float = nan.
Proof.
  apply eq_nan_spec. rewrite mul_spec. change (Prim2SF nan) with S754_nan.
  reflexivity.
Qed.

(** The difference of two equal numbers is a zero, or NaN when they are
    the same infinity. *)
Lemma SFsub_equal (x y : spec_float) :
  SFeqb x y = true -> zero_or_nan (SF64sub x y) = true.
Proof.
  unfold SFeqb, SF64sub.
  destruct x as [sx | sx | | sx mx ex], y as [sy | sy | | sy my ey]; cbn;
    try discriminate; try (destruct sx, sy; (discriminate || reflexivity));
    try (destruct sx; discriminate); try (destruct sy; discriminate).
  assert (Hsame : forall s, (ex ?= ey)%Z = Eq -> Pos.compare_cont Eq mx my = Eq ->
            zero_or_nan
              (binary_normalize prec emax
                 (cond_Zopp s (Z.pos (fst (shl_align mx ex (Z.min ex ey))))
                  - cond_Zopp s (Z.pos (fst (shl_align my ey (Z.min ex ey))))) 
                 (Z.min ex ey) false) = true).
  { intros s He Hm. apply Z.compare_eq in He. apply Pos.compare_eq in Hm.
    subst. rewrite Z.sub_diag. reflexivity. }
  destruct sx, sy; try discriminate; intros H;
    destruct (ex ?= ey)%Z eqn:He; try discriminate;
    destruct (Pos.compare_cont Eq mx my) eqn:Hm; try discriminate;
    now apply Hsame.
Qed.






(* ================================================================== *)
(** * The records of the trace *)
(* ================================================================== *)

Lemma at_index_In {A} (l : list A) (i : Z) (a : A) :
  at_index l i = Some a -> In a l.
Proof.
  unfold at_index. destruct (i <? 0)%Z; [discriminate |].
  apply nth_error_In.
Qed.

Lemma trace_K (pK pD : Z) (xVal : list value) (yVal : list row) (n : nat)
    (st : LoopState) (j : Z) :
  Trace pK pD xVal yVal n st -> (0 <= j < Z.of_nat n)%Z ->
  option_map rec_k (at_index (SO st) j) = Some (K_at yVal pK (pK - 1 + j)).
Proof.
  intros T Hj. rewrite <- at_index_map, (tr_ks T). unfold Ks.
  rewrite at_index_map_seq by assumption. now rewrite Z2Nat.id by lia.
Qed.

Lemma trace_D (pK pD : Z) (xVal : list value) (yVal : list row) (n : nat)
    (st : LoopState) (j : Z) :
  Trace pK pD xVal yVal n st -> (1 <= pD)%Z -> (0 <= j < Z.of_nat n)%Z ->
  option_map rec_d (at_index (SO st) j) = Some (D_at yVal pK pD (Z.to_nat j)).
Proof.
  intros T HpD Hj. rewrite <- at_index_map, (tr_ds T HpD).
  now apply at_index_map_seq.
Qed.

(* ================================================================== *)
(** * Binary64 facts: the order *)
(* ================================================================== *)

Lemma SFcompare_key (x y : spec_float) :
  not_nan x = true -> not_nan y = true ->
  SFcompare x y = Some (lex_compare (key x) (key y)).
Proof.
  destruct x as [sx | sx | | sx mx ex], y as [sy | sy | | sy my ey];
    try discriminate; intros _ _;
    try (destruct sx); try (destruct sy); try reflexivity;
    unfold lex_compare; cbn [SFcompare key fst snd Z.compare].
  - destruct (Z.compare_spec ex ey) as [He | He | He].
    + subst. rewrite Z.compare_refl. cbn. reflexivity.
    + replace (- ex ?= - ey)%Z with Gt by (symmetry; apply Z.compare_gt_iff; lia).
      reflexivity.
    + replace (- ex ?= - ey)%Z with Lt by (symmetry; apply Z.compare_lt_iff; lia).
      reflexivity.
Qed.

Lemma lex_compare_refl (a : Z * Z * Z) : lex_compare a a = Eq.
Proof. unfold lex_compare. now rewrite !Z.compare_refl. Qed.

(** The three outcomes of the comparison, as arithmetic facts. *)
Lemma lex_compare_spec (a b : Z * Z * Z) :
  match lex_compare a b with
  | Eq => a = b
  | Lt => (fst (fst a) < fst (fst b)
           \/ (fst (fst a) = fst (fst b)
               /\ (snd (fst a) < snd (fst b)
                   \/ (snd (fst a) = snd (fst b) /\ snd a < snd b))))%Z
  | Gt => (fst (fst b) < fst (fst a)
           \/ (fst (fst a) = fst (fst b)
               /\ (snd (fst b) < snd (fst a)
                   \/ (snd (fst a) = snd (fst b) /\ snd b < snd a))))%Z
  end.
Proof.
  destruct a as [[a1 a2] a3], b as [[b1 b2] b3]. unfold lex_compare. cbn [fst snd].
  destruct (Z.compare_spec a1 b1); [| lia | lia].
  destruct (Z.compare_spec a2 b2); [| lia | lia].
  destruct (Z.compare_spec a3 b3); [congruence | lia | lia].
Qed.

Lemma leb_key (x y : number) :
  is_nan x = false -> is_nan y = false ->
  (x <=? y)%float = true <-> lex_compare (key (Prim2SF x)) (key (Prim2SF y)) <> Gt.
Proof.
  intros Hx Hy. rewrite leb_spec. unfold SFleb.
  rewrite SFcompare_key.
  - destruct (lex_compare _ _); split; congruence.
  - destruct (Prim2SF x) eqn:E; try reflexivity.
    apply is_nan_spec in E. congruence.
  - destruct (Prim2SF y) eqn:E; try reflexivity.
    apply is_nan_spec in E. congruence.
Qed.

Lemma ltb_key (x y : number) :
  is_nan x = false -> is_nan y = false ->
  (x <? y)%float = true <-> lex_compare (key (Prim2SF x)) (key (Prim2SF y)) = Lt.
Proof.
  intros Hx Hy. rewrite ltb_spec. unfold SFltb.
  rewrite SFcompare_key.
  - destruct (lex_compare _ _); split; congruence.
  - destruct (Prim2SF x) eqn:E; try reflexivity.
    apply is_nan_spec in E. congruence.
  - destruct (Prim2SF y) eqn:E; try reflexivity.
    apply is_nan_spec in E. congruence.
Qed.

Lemma leb_refl (x : number) : is_nan x = false -> (x <=? x)%float = true.
Proof.
  intros Hx. apply leb_key; [assumption | assumption |].
  now rewrite lex_compare_refl.
Qed.

Lemma leb_trans (x y z : number) :
  is_nan x = false -> is_nan y = false -> is_nan z = false ->
  (x <=? y)%float = true -> (y <=? z)%float = true -> (x <=? z)%float = true.
Proof.
  intros Hx Hy Hz. rewrite !leb_key by assumption.
  pose proof (lex_compare_spec (key (Prim2SF x)) (key (Prim2SF y))) as Hxy.
  pose proof (lex_compare_spec (key (Prim2SF y)) (key (Prim2SF z))) as Hyz.
  pose proof (lex_compare_spec (key (Prim2SF x)) (key (Prim2SF z))) as Hxz.
  destruct (key (Prim2SF x)) as [[x1 x2] x3], (key (Prim2SF y)) as [[y1 y2] y3],
    (key (Prim2SF z)) as [[z1 z2] z3].
  cbn [fst snd] in *.
  destruct (lex_compare (x1, x2, x3) (y1, y2, y3)),
    (lex_compare (y1, y2, y3) (z1, z2, z3)),
    (lex_compare (x1, x2, x3) (z1, z2, z3));
    intros H1 H2; try congruence; exfalso;
    repeat match goal with
           | H : (_, _, _) = (_, _, _) |- _ => injection H as -> -> ->
           end; lia.
Qed.

Lemma ltb_leb (x y : number) :
  is_nan x = false -> is_nan y = false ->
  (x <? y)%float = true -> (x <=? y)%float = true.
Proof.
  intros Hx Hy. rewrite ltb_key, leb_key by assumption. congruence.
Qed.

Lemma not_ltb_leb (x y : number) :
  is_nan x = false -> is_nan y = false ->
  (x <? y)%float = false -> (y <=? x)%float = true.
Proof.
  intros Hx Hy Hlt. apply leb_key; [assumption | assumption |].
  assert (Hn : lex_compare (key (Prim2SF x)) (key (Prim2SF y)) <> Lt).
  { intros E. apply ltb_key in E; [congruence | assumption | assumption]. }
  pose proof (lex_compare_spec (key (Prim2SF x)) (key (Prim2SF y))) as Hxy.
  pose proof (lex_compare_spec (key (Prim2SF y)) (key (Prim2SF x))) as Hyx.
  destruct (key (Prim2SF x)) as [[x1 x2] x3], (key (Prim2SF y)) as [[y1 y2] y3].
  cbn [fst snd] in *.
  destruct (lex_compare (x1, x2, x3) (y1, y2, y3));
    destruct (lex_compare (y1, y2, y3) (x1, x2, x3));
    try congruence; exfalso;
    repeat match goal with
           | H : (_, _, _) = (_, _, _) |- _ => injection H as -> -> ->
           end; lia.
Qed.

(* ================================================================== *)
(** * Math.min, Math.max and the extremes of a window *)
(* ================================================================== *)

Lemma Math_min_spec (a b : number) :
  is_nan a = false -> is_nan b = false ->
  (Math_min a b = a \/ Math_min a b = b)
  /\ (Math_min a b <=? a)%float = true
  /\ (Math_min a b <=? b)%float = true.
Proof.
  intros Ha Hb. unfold Math_min. rewrite Ha, Hb. cbn [orb].
  destruct (a <? b)%float eqn:Hab.
  - auto using leb_refl, ltb_leb.
  - destruct (b <? a)%float eqn:Hba.
    + auto using leb_refl, ltb_leb.
    + destruct (get_sign a); auto using leb_refl, not_ltb_leb.
Qed.

Lemma Math_max_spec (a b : number) :
  is_nan a = false -> is_nan b = false ->
  (Math_max a b = a \/ Math_max a b = b)
  /\ (a <=? Math_max a b)%float = true
  /\ (b <=? Math_max a b)%float = true.
Proof.
  intros Ha Hb. unfold Math_max. rewrite Ha, Hb. cbn [orb].
  destruct (a <? b)%float eqn:Hab.
  - auto using leb_refl, ltb_leb.
  - destruct (b <? a)%float eqn:Hba.
    + auto using leb_refl, ltb_leb.
    + destruct (get_sign a); auto using leb_refl, not_ltb_leb.
Qed.

Lemma fold_min_spec (l : list number) (acc : number) :
  is_nan acc = false -> Forall (fun x => is_nan x = false) l ->
  let m := fold_left Math_min l acc in
  is_nan m = false
  /\ (m = acc \/ In m l)
  /\ (m <=? acc)%float = true
  /\ forall x, In x l -> (m <=? x)%float = true.
Proof.
  intros Hacc Hl. revert acc Hacc.
  induction Hl as [| x l Hx _ IH]; intros acc Hacc; cbn [fold_left].
  - repeat split; auto using leb_refl; intros x [].
  - destruct (Math_min_spec acc x Hacc Hx) as (Hsel & Hle_acc & Hle_x).
    assert (Hnan : is_nan (Math_min acc x) = false)
      by (destruct Hsel as [-> | ->]; assumption).
    destruct (IH _ Hnan) as (Hm & Hin & Hle & Hall).
    repeat split.
    + exact Hm.
    + destruct Hin as [-> | Hin]; [| right; now right].
      destruct Hsel as [-> | ->]; [now left | right; now left].
    + eapply leb_trans; [..| exact Hle | exact Hle_acc]; assumption.
    + intros y [<- | Hy]; [| now apply Hall].
      eapply leb_trans; [..| exact Hle | exact Hle_x]; assumption.
Qed.

Lemma fold_max_spec (l : list number) (acc : number) :
  is_nan acc = false -> Forall (fun x => is_nan x = false) l ->
  let m := fold_left Math_max l acc in
  is_nan m = false
  /\ (m = acc \/ In m l)
  /\ (acc <=? m)%float = true
  /\ forall x, In x l -> (x <=? m)%float = true.
Proof.
  intros Hacc Hl. revert acc Hacc.
  induction Hl as [| x l Hx _ IH]; intros acc Hacc; cbn [fold_left].
  - repeat split; auto using leb_refl; intros x [].
  - destruct (Math_max_spec acc x Hacc Hx) as (Hsel & Hle_acc & Hle_x).
    assert (Hnan : is_nan (Math_max acc x) = false)
      by (destruct Hsel as [-> | ->]; assumption).
    destruct (IH _ Hnan) as (Hm & Hin & Hle & Hall).
    repeat split.
    + exact Hm.
    + destruct Hin as [-> | Hin]; [| right; now right].
      destruct Hsel as [-> | ->]; [now left | right; now left].
    + eapply leb_trans; [..| exact Hle_acc | exact Hle]; assumption.
    + intros y [<- | Hy]; [| now apply Hall].
      eapply leb_trans; [..| exact Hle_x | exact Hle]; assumption.
Qed.

Lemma above_infinity (x : number) :
  (infinity <=? x)%float = true -> x = infinity.
Proof.
  rewrite leb_spec. intros H. apply Prim2SF_inj.
  change (Prim2SF infinity) with (S754_infinity false) in *.
  destruct (Prim2SF x) as [s | [|] | | s m e]; try discriminate H; reflexivity.
Qed.

Lemma below_neg_infinity (x : number) :
  (x <=? neg_infinity)%float = true -> x = neg_infinity.
Proof.
  rewrite leb_spec. intros H. apply Prim2SF_inj.
  change (Prim2SF neg_infinity) with (S754_infinity true) in *.
  destruct (Prim2SF x) as [s | [|] | | [|] m e]; try discriminate H; reflexivity.
Qed.

(** Over a non-empty list without NaN, the fold of [Math.min] from
    +Infinity is a least element, and that of [Math.max] from -Infinity a
    greatest one. *)
Lemma lowest_of_fold (l : list number) :
  l <> [] -> Forall (fun x => is_nan x = false) l ->
  is_lowest (fold_left Math_min l infinity) l.
Proof.
  intros Hne Hl.
  destruct (fold_min_spec l infinity eq_refl Hl) as (_ & Hin & _ & Hall).
  split; [| exact Hall].
  destruct Hin as [Hinf | Hin]; [| exact Hin].
  destruct l as [| x l]; [congruence |].
  pose proof (Hall x (or_introl eq_refl)) as Hx.
  rewrite Hinf in Hx |- *. apply above_infinity in Hx. now left.
Qed.

Lemma highest_of_fold (l : list number) :
  l <> [] -> Forall (fun x => is_nan x = false) l ->
  is_highest (fold_left Math_max l neg_infinity) l.
Proof.
  intros Hne Hl.
  destruct (fold_max_spec l neg_infinity eq_refl Hl) as (_ & Hin & _ & Hall).
  split; [| exact Hall].
  destruct Hin as [Hinf | Hin]; [| exact Hin].
  destruct l as [| x l]; [congruence |].
  pose proof (Hall x (or_introl eq_refl)) as Hx.
  rewrite Hinf in Hx |- *. apply below_neg_infinity in Hx. now left.
Qed.

(* ================================================================== *)
(** * The raw line *)
(* ================================================================== *)

Lemma is_finite_not_nan (x : number) : is_finite x = true -> is_nan x = false.
Proof.
  unfold is_finite. destruct (is_nan x); [discriminate | reflexivity].
Qed.

Lemma is_finite_bar_cells (r : row) :
  is_finite_bar r = true ->
  exists o h l c, r = bar o h l c
    /\ is_finite o = true /\ is_finite h = true
    /\ is_finite l = true /\ is_finite c = true.
Proof.
  destruct r as [cells | v]; cbn; [| discriminate].
  destruct cells as [| [o | |] [| [h | |] [| [l | |] [| [c | |] [|]]]]];
    try discriminate.
  intros H. apply andb_prop in H as (H & Hc).
  apply andb_prop in H as (H & Hl). apply andb_prop in H as (Ho & Hh).
  exists o, h, l, c. auto.
Qed.

Lemma finite_bar_is_bar (r : row) : is_finite_bar r = true -> is_bar r = true.
Proof.
  intros H. destruct (is_finite_bar_cells r H) as (o & h & l & c & -> & _).
  reflexivity.
Qed.

Lemma finite_bar_fields (r : row) :
  is_finite_bar r = true ->
  is_nan (field r low) = false /\ is_nan (field r high) = false.
Proof.
  intros H.
  destruct (is_finite_bar_cells r H) as (o & h & l & c & -> & _ & Hh & Hl & _).
  split; apply is_finite_not_nan; assumption.
Qed.

Lemma window_shape (yVal : list row) (pK i : Z) :
  (1 <= pK)%Z -> (pK - 1 <= i < len yVal)%Z ->
  len (window yVal pK i) = pK
  /\ forall k, (0 <= k < pK)%Z ->
       at_index (window yVal pK i) k = at_index yVal (i - pK + 1 + k).
Proof.
  intros HpK Hi. unfold window. split.
  - rewrite len_slice_in_range by lia. lia.
  - intros k Hk. apply at_index_slice; lia.
Qed.

(** C1: on a series of [N >= periodK] finite bars, for every index [i]
    from [periodK - 1] to [N - 1], the raw value emitted for [i] (at output
    position [i - (periodK - 1)]) is
    [(close(bars[i]) - LL) / (HH - LL) * 100], where the window is the
    [periodK] bars [i - periodK + 1 .. i], [LL] is a least element of its
    low fields and [HH] a greatest element of its high fields, as
    [getArrayExtremes] returns them. *)
Theorem raw_K_formula (series : Series) (params : ParamsOptions)
    (yVal : list row) :
  yData series = Some yVal ->
  Forall (fun r => is_finite_bar r = true) yVal ->
  (1 <= periodK params <= len yVal)%Z ->
  exists out,
    getValues series params = Ok (Some out)
    /\ forall i, (periodK params - 1 <= i < len yVal)%Z ->
       let w := window yVal (periodK params) i in
       exists LL HH,
         len w = periodK params
         /\ (forall k, (0 <= k < periodK params)%Z ->
               at_index w k = at_index yVal (i - periodK params + 1 + k))
         /\ getArrayExtremes w low high = Ok (LL, HH)
         /\ is_lowest LL (map (fun r => field r low) w)
         /\ is_highest HH (map (fun r => field r high) w)
         /\ K_out out (i - (periodK params - 1))
            = Some ((field (get_row yVal i) close - LL) / (HH - LL) * 100)%float.
Proof.
  intros Hy Hfin HpK.
  assert (Hbars : Forall (fun r => is_bar r = true) yVal)
    by (revert Hfin; apply Forall_impl; exact finite_bar_is_bar).
  pose proof (bars_readable yVal Hbars) as Hread.
  destruct (getValues_runs series params yVal Hy HpK) as (st & Hrun & T);
    [apply bars_first_row_ok; [assumption | lia] | assumption |].
  eexists. split; [exact Hrun |].
  intros i Hi w.
  destruct (window_shape yVal (periodK params) i) as (Hlen & Hcontent);
    [lia | lia |].
  assert (Hin : forall r, In r w -> In r yVal)
    by (intros r; apply In_slice).
  assert (Hne : forall f : row -> number, map f w <> []).
  { intros f E. apply (f_equal (@length _)) in E.
    rewrite length_map in E. fold w in Hlen. unfold len in Hlen. cbn in E. lia. }
  assert (Hnan : forall k, (k = low \/ k = high) ->
            Forall (fun x => is_nan x = false) (map (fun r => field r k) w)).
  { intros k Hk. apply Forall_forall. intros x Hx.
    apply in_map_iff in Hx as (r & <- & Hr).
    rewrite Forall_forall in Hfin.
    destruct (finite_bar_fields r (Hfin r (Hin r Hr))) as (Hl & Hh).
    destruct Hk as [-> | ->]; assumption. }
  eexists _, _. repeat split.
  - exact Hlen.
  - exact Hcontent.
  - apply getArrayExtremes_readable. apply Forall_forall. intros r Hr.
    rewrite Forall_forall in Hread. apply Hread, Hin, Hr.
  - apply lowest_of_fold; [apply Hne | apply Hnan; now left].
  - apply lowest_of_fold; [apply Hne | apply Hnan; now left].
  - apply highest_of_fold; [apply Hne | apply Hnan; now right].
  - apply highest_of_fold; [apply Hne | apply Hnan; now right].
  - unfold K_out. cbn [values].
    rewrite (trace_K _ _ _ _ _ _ _ T) by lia.
    replace (periodK params - 1 + (i - (periodK params - 1)))%Z with i by lia.
    reflexivity.
Qed.

(** The scenario of the specification: with [periodK = 3] the value for
    index 2 is 50 and the value for index 3 is [(9 - 4) / (10 - 4) * 100]. *)
Lemma raw_K_formula_scenario :
  exists out,
    getValues scenario {| periodK := 3; periodD := 3 |} = Ok (Some out)
    /\ K_out out 0 = Some 50%float
    /\ K_out out 1 = Some ((9 - 4) / (10 - 4) * 100)%float.
Proof.
  destruct (raw_K_formula scenario {| periodK := 3; periodD := 3 |} _ eq_refl)
    as (out & Hout & HK).
  - repeat constructor.
  - cbn. lia.
  - exists out. split; [exact Hout |]. cbn [periodK] in HK. split.
    + destruct (HK 2%Z) as (LL & HH & _ & _ & Hext & _ & _ & HK2); [cbn; lia |].
      vm_compute in Hext. injection Hext as <- <-. exact HK2.
    + destruct (HK 3%Z) as (LL & HH & _ & _ & Hext & _ & _ & HK3); [cbn; lia |].
      vm_compute in Hext. injection Hext as <- <-. exact HK3.
Defined.

(* ================================================================== *)
(** * Binary64 facts: dividing by one, adding to zero *)
(* ================================================================== *)

Lemma Prim2SF_one : Prim2SF 1%float = SFone64.
Proof. vm_compute. reflexivity. Qed.

Lemma bounded_cases (m : positive) (e : Z) :
  bounded prec emax m e = true ->
  (e <= 971)%Z /\
  ((e = -1074 /\ Z.pos (digits2_pos m) <= 53) \/ (Z.pos (digits2_pos m) = 53 /\ -1074 < e))%Z.
Proof.
  unfold bounded, canonical_mantissa, fexp, emin, prec, emax.
  intros H. apply andb_prop in H as (H1 & H2).
  apply Z.eqb_eq in H1. apply Z.leb_le in H2. lia.
Qed.

Lemma div_eucl_exact (a b : Z) : (0 < b)%Z -> Z.div_eucl (a * b) b = (a, 0%Z).
Proof.
  intros Hb.
  pose proof (Z.div_mul a b ltac:(lia)) as Hq.
  pose proof (Z.mod_mul a b ltac:(lia)) as Hr.
  unfold Z.div, Z.modulo in Hq, Hr.
  destruct (Z.div_eucl (a * b) b) as [q r]. now subst.
Qed.

Lemma SFdiv_one (v : spec_float) :
  valid_binary v = true -> SF64div v SFone64 = v.
Proof.
  destruct v as [s | s | | s m e]; cbn; intros Hv;
    try (destruct s; reflexivity); try reflexivity.
  destruct (bounded_cases m e Hv) as (Hmax & Hcase).
  unfold SF64div, SFdiv, SFone64, SFdiv_core_binary.
  cbn [Zdigits2 digits2_pos Pos.succ].
  rewrite xorb_false_r.
  set (d := Z.pos (digits2_pos m)) in *.
  destruct Hcase as [(He & Hd) | (Hd & He)].
  - replace (Z.min (fexp prec emax (d + e - (53 + -52))) (e - -52)) with e
      by (unfold fexp, SpecFloat.emin, prec, emax; lia).
    replace (e - -52 - e)%Z with 52%Z by lia.
    rewrite Z.shiftl_mul_pow2 by lia.
    rewrite div_eucl_exact by reflexivity.
    change (new_location 4503599627370496 0) with loc_Exact.
    unfold binary_round_aux, shr_fexp. cbn [Zdigits2 shr_record_of_loc]. fold d.
    replace (fexp prec emax (d + e) - e)%Z with 0%Z
      by (unfold fexp, SpecFloat.emin, prec, emax; lia).
    cbn [shr shr_m loc_of_shr_record round_nearest_even Zdigits2 shr_record_of_loc].
    fold d.
    replace (fexp prec emax (d + e) - e)%Z with 0%Z
      by (unfold fexp, SpecFloat.emin, prec, emax; lia).
    cbn [shr shr_m].
    destruct (Z.leb_spec e (emax - prec)); [reflexivity | unfold emax, prec in *; lia].
  - replace (Z.min (fexp prec emax (d + e - (53 + -52))) (e - -52)) with (e - 1)%Z
      by (unfold fexp, SpecFloat.emin, prec, emax; lia).
    replace (e - -52 - (e - 1))%Z with 53%Z by lia.
    rewrite Z.shiftl_mul_pow2 by lia.
    replace (Z.pos m * 2 ^ 53)%Z with (Z.pos m~0 * 2 ^ 52)%Z by lia.
    rewrite div_eucl_exact by reflexivity.
    change (new_location 4503599627370496 0) with loc_Exact.
    unfold binary_round_aux, shr_fexp.
    cbn [Zdigits2 shr_record_of_loc digits2_pos]. fold d.
    replace (fexp prec emax (Z.pos (Pos.succ (digits2_pos m)) + (e - 1)) - (e - 1))%Z
      with 1%Z
      by (unfold fexp, SpecFloat.emin, prec, emax; lia).
    cbn [shr iter_pos shr_1 orb shr_m loc_of_shr_record round_nearest_even
           Zdigits2 shr_record_of_loc].
    fold d.
    replace (e - 1 + 1)%Z with e by lia.
    replace (fexp prec emax (d + e) - e)%Z with 0%Z
      by (unfold fexp, SpecFloat.emin, prec, emax; lia).
    cbn [shr shr_m].
    destruct (Z.leb_spec e (emax - prec)); [reflexivity | unfold emax, prec in *; lia].
Qed.

Lemma div_one (x : number) : (x / 1)%float = x.
Proof.
  apply Prim2SF_inj. rewrite div_spec, Prim2SF_one.
  apply SFdiv_one, Prim2SF_valid.
Qed.

Lemma add_zero_l (x : number) :
  (0 + x)%float = if Leibniz.eqb x neg_zero then 0%float else x.
Proof.
  destruct (Leibniz.eqb x neg_zero) eqn:E.
  - apply Leibniz.eqb_spec in E. subst. reflexivity.
  - apply Prim2SF_inj. rewrite add_spec.
    change (Prim2SF 0) with (S754_zero false).
    destruct (Prim2SF x) as [[|] | s | | s m e] eqn:Ex; try reflexivity.
    exfalso. assert (x = neg_zero) by (apply Prim2SF_inj; rewrite Ex; reflexivity).
    subst. vm_compute in E. discriminate.
Qed.

Lemma of_Z_one : of_Z 1 = 1%float.
Proof. vm_compute. reflexivity. Qed.

(** The mean of a single sample, with period one. *)
Lemma mean_single (k : number) :
  SMA.mean [k] 1 = if Leibniz.eqb k neg_zero then 0%float else k.
Proof.
  unfold SMA.mean, SMA.sum. cbn [fold_left].
  now rewrite of_Z_one, div_one, add_zero_l.
Qed.

Lemma SameValueZero_refl (x : number) : SameValueZero x x = true.
Proof.
  unfold SameValueZero, is_nan. destruct (x =? x)%float; reflexivity.
Qed.

(* ================================================================== *)
(** * Smoothing with period one *)
(* ================================================================== *)

Lemma slice_single {A} (l : list A) (j : Z) (a : A) :
  at_index l j = Some a -> slice l j (j + 1) = [a].
Proof.
  intros Hj.
  assert (Hr : (0 <= j < len l)%Z).
  { unfold at_index in Hj. destruct (Z.ltb_spec j 0); [discriminate |].
    split; [assumption |]. unfold len.
    assert (nth_error l (Z.to_nat j) <> None) as Hn by congruence.
    apply nth_error_Some in Hn. lia. }
  rewrite slice_in_range by lia.
  replace (Z.to_nat (j + 1 - j)) with 1%nat by lia.
  unfold at_index in Hj. destruct (Z.ltb_spec j 0); [lia |].
  revert Hj. generalize (Z.to_nat j). clear. intros n. revert l.
  induction n as [| n IH]; intros [| x l]; cbn; try discriminate.
  - now intros [= ->].
  - apply IH.
Qed.

(** C10: when [periodD = 1] the smoothed value is present at every output
    position, the first included, of the [series.length - periodK + 1]
    records, in the [[x, K, D]] record of [values] and in the [[K, D]]
    pair of [yData] alike, and it is the moving average of the single raw
    value of that position: the same number as K ([SameValueZero]), and K
    itself, bit for bit, unless K is -0 (the sum [0 + K] of the average is
    then +0). *)
Theorem unit_smoothing_period (series : Series) (params : ParamsOptions)
    (yVal : list row) :
  yData series = Some yVal ->
  Forall (fun r => is_bar r = true) yVal ->
  (1 <= periodK params <= len yVal)%Z ->
  periodD params = 1%Z ->
  exists out,
    getValues series params = Ok (Some out)
    /\ len (values out) = (len yVal - periodK params + 1)%Z
    /\ forall j, (0 <= j < len (values out))%Z ->
       exists k d,
         K_out out j = Some k
         /\ D_out out j = Some (VNum d)
         /\ at_index (ivYData out) j = Some (k, VNum d)
         /\ d = SMA.mean [k] 1
         /\ SameValueZero d k = true
         /\ (k <> neg_zero -> d = k).
Proof.
  intros Hy Hbars HpK HpD.
  destruct (getValues_runs series params yVal Hy HpK) as (st & Hrun & T);
    [apply bars_first_row_ok; [assumption | lia] | now apply bars_readable |].
  eexists. split; [exact Hrun |]. unfold K_out, D_out. cbn [values ivYData].
  pose proof (len_values_of_trace _ _ _ _ _ _ T) as Hlen.
  split; [rewrite Hlen; lia |].
  set (n := Z.to_nat (len yVal - periodK params + 1)) in *.
  rewrite HpD in T.
  intros j Hj.
  exists (K_at yVal (periodK params) (periodK params - 1 + j)).
  exists (SMA.mean [K_at yVal (periodK params) (periodK params - 1 + j)] 1).
  assert (HK : at_index (Ks yVal (periodK params) n) j
               = Some (K_at yVal (periodK params) (periodK params - 1 + j))).
  { rewrite <- (tr_ks T), at_index_map. apply (trace_K _ _ _ _ _ _ _ T). lia. }
  assert (HKj : option_map rec_k (at_index (SO st) j)
                = Some (K_at yVal (periodK params) (periodK params - 1 + j)))
    by (apply (trace_K _ _ _ _ _ _ _ T); lia).
  assert (HDj : option_map rec_d (at_index (SO st) j)
                = Some (VNum (SMA.mean
                     [K_at yVal (periodK params) (periodK params - 1 + j)] 1))).
  { rewrite (trace_D _ _ _ _ _ _ _ T) by lia.
    rewrite (D_at_present yVal (periodK params) 1 (Z.to_nat j) n) by lia.
    rewrite Z2Nat.id by lia.
    replace (j - 1 + 1)%Z with j by lia.
    now rewrite (slice_single _ _ _ HK). }
  split; [exact HKj |]. split; [exact HDj |]. split; [| split; [reflexivity |]].
  - rewrite (tr_yData T), at_index_map.
    destruct (at_index (SO st) j) as [t |]; [| discriminate HKj].
    cbn [option_map] in *. congruence.
  - rewrite mean_single.
    destruct (Leibniz.eqb _ neg_zero) eqn:E.
    + apply Leibniz.eqb_spec in E. rewrite E. split; [reflexivity | congruence].
    + split; [apply SameValueZero_refl | reflexivity].
Qed.

Lemma unit_smoothing_period_scenario :
  exists out,
    getValues scenario {| periodK := 3; periodD := 1 |} = Ok (Some out)
    /\ len (values out) = 2%Z
    /\ forall j, (0 <= j < len (values out))%Z ->
       exists k d,
         K_out out j = Some k
         /\ D_out out j = Some (VNum d)
         /\ at_index (ivYData out) j = Some (k, VNum d)
         /\ d = SMA.mean [k] 1
         /\ SameValueZero d k = true
         /\ (k <> neg_zero -> d = k).
Proof.
  refine (unit_smoothing_period scenario {| periodK := 3; periodD := 1 |}
            _ eq_refl _ _ eq_refl).
  - repeat constructor.
  - cbn. lia.
Defined.

(* ================================================================== *)
(** * The store: reads, writes and allocation *)
(* ================================================================== *)

Section StoreFacts.
Import Store.

Lemma update_length {A} (l : list A) (i : nat) (a : A) :
  length (update l i a) = length l.
Proof.
  revert i. induction l as [| x l IH]; intros [| i]; cbn; auto.
Qed.

Lemma update_app_r {A} (l1 l2 : list A) (k : nat) (a : A) :
  update (l1 ++ l2) (length l1 + k) a = l1 ++ update l2 k a.
Proof.
  induction l1 as [| x l1 IH]; cbn; [reflexivity | now rewrite IH].
Qed.

Lemma load_app_l (h ext : heap) (l : loc) :
  (l < length h)%nat -> load (h ++ ext) l = load h l.
Proof. intros Hl. unfold load. now apply app_nth1. Qed.

Lemma load_app_r (h ext : heap) (k : nat) :
  load (h ++ ext) (length h + k) = nth k ext [].
Proof.
  unfold load. rewrite app_nth2 by lia. f_equal. lia.
Qed.

Lemma slot_is_extend (h ext : heap) (s : slot) (r : row) :
  slot_is h s r -> slot_is (h ++ ext) s r.
Proof.
  destruct s as [v | l], r as [cells | v']; cbn; auto.
  intros (Hl & Hload). rewrite length_app, load_app_l by assumption.
  split; [lia | assumption].
Qed.

Lemma represents_extend (h ext : heap) (sr : SeriesRef) (s : Series) :
  represents h sr s -> represents (h ++ ext) sr s.
Proof.
  intros (Hx & Hxs & Hy). unfold represents.
  rewrite length_app, load_app_l by assumption.
  split; [lia |]. split; [assumption |].
  destruct (sr_yData sr) as [l |], (yData s) as [rows |]; auto.
  destruct Hy as (Hl & Hrows). rewrite load_app_l by assumption.
  split; [lia |].
  revert Hrows. apply Forall2_impl. intros a b. apply slot_is_extend.
Qed.

Lemma slot_row_is (h : heap) (s : slot) (r : row) :
  slot_is h s r -> slot_row h s = r.
Proof.
  destruct s as [v | l], r as [cells | v']; cbn; try contradiction.
  - now intros ->.
  - intros (_ & ->). rewrite map_map. cbn. now rewrite map_id.
Qed.

Lemma read_rows_represented (h : heap) (slots : object) (rows : list row) :
  Forall2 (slot_is h) slots rows -> map (slot_row h) slots = rows.
Proof.
  induction 1 as [| s r slots rows Hs _ IH]; cbn; [reflexivity |].
  now rewrite IH, (slot_row_is h s r Hs).
Qed.

Lemma get_slot_prims (vs : list value) (i : Z) :
  get_slot (map Prim vs) i = Prim (get vs i).
Proof.
  unfold get_slot, get. rewrite at_index_map.
  destruct (at_index vs i); reflexivity.
Qed.

End StoreFacts.

Section StoreSteps.
Import Store.

Lemma step_gets {A B} (f : heap -> A) (k : A -> M B) (h : heap) :
  (x <~ gets f ;; k x) h = k (f h) h.
Proof. reflexivity. Qed.

Lemma step_alloc {B} (o : object) (k : loc -> M B) (h : heap) :
  (x <~ alloc o ;; k x) h = k (length h) (h ++ [o]).
Proof. reflexivity. Qed.

Lemma step_lift_ok {A B} (a : A) (k : A -> M B) (h : heap) :
  (x <~ lift (Ok a) ;; k x) h = k a h.
Proof. reflexivity. Qed.

Lemma step_lift_throw {A B} (k : A -> M B) (h : heap) :
  (x <~ lift TypeError ;; k x) h = (h, TypeError).
Proof. reflexivity. Qed.

Lemma step_push {B} (l : loc) (s : slot) (k : unit -> M B) (h : heap) :
  (x <~ push l s ;; k x) h = k tt (update h l (load h l ++ [s])).
Proof. reflexivity. Qed.

Lemma step_set_index {B} (l : loc) (i : nat) (s : slot) (k : unit -> M B) (h : heap) :
  (x <~ set_index l i s ;; k x) h = k tt (update h l (update (load h l) i s)).
Proof. reflexivity. Qed.

Lemma step_ret {A B} (a : A) (k : A -> M B) (h : heap) :
  (x <~ ret a ;; k x) h = k a h.
Proof. reflexivity. Qed.

Lemma held_extend (n : nat) (tail more : heap) (l : loc) (o : object) :
  held n tail l o -> held n (tail ++ more) l o.
Proof.
  intros (Hl & Hnth). split; [assumption |].
  rewrite nth_error_app1; [assumption |].
  apply nth_error_Some. congruence.
Qed.

Lemma held_new (n : nat) (tail more : heap) (o : object) :
  held n (tail ++ o :: more) (n + 3 + length tail) o.
Proof.
  split; [lia |].
  rewrite nth_error_app2 by lia.
  replace (n + 3 + length tail - (n + 3) - length tail)%nat with 0%nat by lia.
  reflexivity.
Qed.

Lemma held_load (h0 : heap) (a b c : object) (tail : heap) (l : loc) (o : object) :
  held (length h0) tail l o -> load (h0 ++ a :: b :: c :: tail) l = o.
Proof.
  intros (Hl & Hnth).
  replace l with (length h0 + (3 + (l - (length h0 + 3))))%nat by lia.
  rewrite load_app_r. cbn [nth Nat.add].
  now apply nth_error_nth.
Qed.

End StoreSteps.

Ltac norm_heap := repeat (first [rewrite <- app_assoc | progress cbn [app]]).

Section StoreDecoding.
Import Store.

Lemma step_assoc {A B C} (m : M A) (k1 : A -> M B) (k2 : B -> M C) (h : heap) :
  (y <~ (x <~ m ;; k1 x) ;; k2 y) h = (x <~ m ;; y <~ k1 x ;; k2 y) h.
Proof. unfold mbind. destruct (m h) as [h' [a |]]; reflexivity. Qed.

Lemma nth_app_here {A} (l more : list A) (a d : A) :
  nth (length l) (l ++ a :: more) d = a.
Proof. rewrite app_nth2 by lia. now rewrite Nat.sub_diag. Qed.

Lemma update_app_here {A} (l more : list A) (a b : A) :
  update (l ++ a :: more) (length l) b = l ++ b :: more.
Proof.
  rewrite <- (Nat.add_0_r (length l)) at 1. now rewrite update_app_r.
Qed.

Lemma get_slot_last (o : object) (s : slot) :
  get_slot (o ++ [s]) (len (o ++ [s]) - 1) = s.
Proof.
  unfold get_slot. rewrite len_app.
  replace (len o + len [s] - 1)%Z with (len o) by (cbn; lia).
  now rewrite at_index_app_last.
Qed.

Lemma slice_from_map {A B} (f : A -> B) (l : list A) (p : Z) :
  slice_from (map f l) p = map f (slice_from l p).
Proof. unfold slice_from. now rewrite slice_map, len_map. Qed.

(** Reading back, through their references, the rows that the invariant
    says the store holds. *)
Lemma decode_pairs (h0 : heap) (a b c : object) (tail : heap) (rs : list loc)
    (ps : list (number * value)) :
  Forall2 (held (length h0) tail) rs (map row_object ps) ->
  map (fun r => row_pair (slot_row (h0 ++ a :: b :: c :: tail) (Ref r))) rs = ps.
Proof.
  revert ps. induction rs as [| r rs IH]; intros [| p ps] H; cbn [map] in H;
    inversion H; subst; [reflexivity |].
  cbn [map]. rewrite (IH ps) by assumption. f_equal.
  cbn [slot_row]. erewrite held_load by eassumption.
  destruct p as [k d]. reflexivity.
Qed.

Lemma decode_triples (h0 : heap) (a b c : object) (tail : heap) (ts : list loc)
    (rows : list (value * number * value)) :
  Forall2 (held (length h0) tail) ts (map triple_object rows) ->
  map (fun t => row_triple (slot_row (h0 ++ a :: b :: c :: tail) (Ref t))) ts = rows.
Proof.
  revert rows. induction ts as [| t ts IH]; intros [| p rows] H; cbn [map] in H;
    inversion H; subst; [reflexivity |].
  cbn [map]. rewrite (IH rows) by assumption. f_equal.
  cbn [slot_row]. erewrite held_load by eassumption.
  destruct p as [[x k] d]. reflexivity.
Qed.

Lemma Forall2_held_extend (n : nat) (tail more : heap) (ls : list loc)
    (os : list object) :
  Forall2 (held n tail) ls os -> Forall2 (held n (tail ++ more)) ls os.
Proof. apply Forall2_impl. intros l o. apply held_extend. Qed.

End StoreDecoding.

(* ================================================================== *)
(** * The call on the store against the call on values *)
(* ================================================================== *)

Section Simulation.
Import Store.

Variables (h0 : heap) (xVal yVal : loc) (xs : list value) (yv : object)
  (yrows : list row).
Hypothesis HxVal : (xVal < length h0)%nat.
Hypothesis Hxs : load h0 xVal = map Prim xs.
Hypothesis HyVal : (yVal < length h0)%nat.
Hypothesis Hyv : load h0 yVal = yv.
Hypothesis Hrows : Forall2 (slot_is h0) yv yrows.
Variables pK pD : Z.

Lemma read_yVal (ext : heap) : load (h0 ++ ext) yVal = yv.
Proof. now rewrite load_app_l. Qed.

Lemma read_xVal (ext : heap) : load (h0 ++ ext) xVal = map Prim xs.
Proof. now rewrite load_app_l. Qed.

Lemma decode_yv (ext : heap) : map (slot_row (h0 ++ ext)) yv = yrows.
Proof.
  apply read_rows_represented. revert Hrows. apply Forall2_impl.
  intros a b. apply slot_is_extend.
Qed.

Lemma read_rows_yVal (ext : heap) : read_rows (h0 ++ ext) yVal = yrows.
Proof. unfold read_rows. now rewrite read_yVal, decode_yv. Qed.

Lemma read_rows_fresh_slice (mid : heap) (a b : Z) :
  read_rows (h0 ++ mid ++ [slice yv a b]) (length h0 + length mid)
  = slice yrows a b.
Proof.
  unfold read_rows. rewrite load_app_r, nth_app_here.
  now rewrite <- slice_map, decode_yv.
Qed.

(** The block that computes the smoothed value: it allocates the two
    slices when the moving average is called, and nothing otherwise. *)
Lemma smoothing_block (i : Z) (D0 : value)
    (a : object) (xd : list value) (rs : list loc) (tail : heap)
    (ps : list (number * value)) :
  Forall2 (held (length h0) tail) rs (map row_object ps) ->
  exists extra,
    (if (i >=? (pK - 1) + (pD - 1))%Z then
       xd <~ gets (fun h => load h (length h0 + 1)) ;;
       xs <~ alloc (slice_from xd (- pD)) ;;
       yd <~ gets (fun h => load h (length h0 + 2)) ;;
       ys <~ alloc (slice_from yd (- pD)) ;;
       points <~ gets (fun h =>
                   SMA.getValues (read_prims h xs) (read_pairs h ys) pD) ;;
       ret (get points 0)
     else ret D0) (h0 ++ a :: map Prim xd :: map Ref rs :: tail)
    = (h0 ++ a :: map Prim xd :: map Ref rs :: (tail ++ extra),
       Ok (if (i >=? (pK - 1) + (pD - 1))%Z then
             get (SMA.getValues (slice_from xd (- pD)) (slice_from ps (- pD)) pD) 0
           else D0)).
Proof.
  intros Hrs. destruct (i >=? (pK - 1) + (pD - 1))%Z.
  - exists [slice_from (map Prim xd) (- pD); slice_from (map Ref rs) (- pD)].
    rewrite step_gets, load_app_r. cbn [nth].
    rewrite step_alloc, <- app_assoc. cbn [app].
    rewrite step_gets, load_app_r. cbn [nth].
    rewrite step_alloc, <- app_assoc. cbn [app].
    rewrite step_gets. unfold ret.
    assert (HrsT : Forall2 (held (length h0)
                      ((tail ++ [slice_from (map Prim xd) (- pD)])
                       ++ [slice_from (map Ref rs) (- pD)]))
                     rs (map row_object ps)).
    { rewrite <- app_assoc. now apply Forall2_held_extend. }
    match goal with
    | |- context [read_pairs ?H ?l] =>
        replace (read_pairs H l) with (slice_from ps (- pD))
    end.
    + rewrite <- app_assoc. reflexivity.
    + unfold read_pairs, read_rows. rewrite length_app. cbn [length].
      rewrite load_app_r. cbn [nth]. rewrite nth_app_here.
      rewrite (slice_from_map Ref rs), !map_map.
      rewrite <- (decode_pairs h0 a (map Prim xd) (map Ref rs) _ rs ps HrsT) at 1.
      now rewrite !slice_from_map.
  - exists []. rewrite app_nil_r. reflexivity.
Qed.

Lemma step_run {A B} (m : M A) (k : A -> M B) (h h' : heap) (a : A) :
  m h = (h', Ok a) -> (x <~ m ;; k x) h = k a h'.
Proof. unfold mbind. now intros ->. Qed.

Lemma get_slot_last_ref (rs : list loc) (r : loc) :
  get_slot (map Ref (rs ++ [r])) (len (map Ref (rs ++ [r])) - 1) = Ref r.
Proof. rewrite map_app. apply get_slot_last. Qed.

Lemma nth_app_plus {A} (l m : list A) (k : nat) (d : A) :
  nth (length l + k) (l ++ m) d = nth k m d.
Proof. rewrite app_nth2 by lia. f_equal. lia. Qed.

Lemma load_row_at (a b c : object) (pre post : heap) (o : object) (l : loc) :
  l = (length h0 + 3 + length pre)%nat ->
  load (h0 ++ a :: b :: c :: pre ++ o :: post) l = o.
Proof.
  intros ->. rewrite <- Nat.add_assoc, load_app_r. cbn [Nat.add nth].
  apply nth_app_here.
Qed.

Lemma update_row_at (a b c : object) (pre post : heap) (o o' : object) (l : loc) :
  l = (length h0 + 3 + length pre)%nat ->
  update (h0 ++ a :: b :: c :: pre ++ o :: post) l o'
  = h0 ++ a :: b :: c :: pre ++ o' :: post.
Proof.
  intros ->. rewrite <- Nat.add_assoc, update_app_r. cbn [Nat.add update].
  now rewrite update_app_here.
Qed.

Lemma iteration_sim (h : heap) (st : LoopState) (i : Z) :
  Inv h0 h st ->
  let out := StoreCode.iteration pK pD xVal yVal (length h0 + 0) (length h0 + 1)
               (length h0 + 2) i (D st) h in
  match iteration pK pD xs yrows i st with
  | TypeError => snd out = TypeError /\ exists ext, fst out = h0 ++ ext
  | Ok st' => snd out = Ok (D st') /\ Inv h0 (fst out) st'
  end.
Proof.
  intros (ts & rs & tail & -> & Hrs & Hts). cbv zeta.
  unfold StoreCode.iteration, iteration.
  rewrite step_gets, read_yVal, step_alloc, step_gets.
  rewrite <- app_assoc, length_app, read_rows_fresh_slice.
  destruct (getArrayExtremes (slice yrows (i - pK + 1) (i + 1)) low high)
    as [extremes |]; cbn [bind].
  2:{ rewrite step_lift_throw. cbn [fst snd].
      split; [reflexivity | eexists; reflexivity]. }
  rewrite step_lift_ok, step_gets, read_rows_yVal.
  destruct (row_get (get_row yrows i) close) as [c |]; cbn [bind].
  2:{ rewrite step_lift_throw. cbn [fst snd].
      split; [reflexivity | eexists; reflexivity]. }
  rewrite step_lift_ok, step_gets, read_xVal, get_slot_prims.
  set (K := percentK (ToNumber c) (fst extremes) (snd extremes)).
  set (x := get xs i).
  rewrite step_push, load_app_r, update_app_r. cbn [app nth update].
  change [Prim x] with (map Prim [x]). rewrite <- map_app.
  rewrite step_alloc, <- app_assoc. cbn [app].
  rewrite step_push, load_app_r, update_app_r. cbn [nth update].
  set (sl := slice yv (i - pK + 1) (i + 1)).
  match goal with
  | |- context [Ref (length ?H)] => set (r := length H)
  end.
  assert (Hr : r = (length h0 + 3 + length (tail ++ [sl]))%nat).
  { unfold r. rewrite length_app. cbn [length]. lia. }
  change [Ref r] with (map Ref [r]). rewrite <- map_app.
  assert (Hrs1 : Forall2 (held (length h0)
                    ((tail ++ [sl]) ++ [[Prim (VNum K); Prim VNull]]))
                   (rs ++ [r]) (map row_object (lsYData st ++ [(K, VNull)]))).
  { rewrite map_app. apply Forall2_app.
    - rewrite <- app_assoc. now apply Forall2_held_extend.
    - constructor; [| constructor]. rewrite Hr. apply held_new. }
  destruct (smoothing_block i (D st) (map Ref ts) (lsXData st ++ [x]) (rs ++ [r])
              _ _ Hrs1) as (extra & Hblock).
  rewrite (step_run _ _ _ _ _ Hblock).
  set (D1 := if (i >=? pK - 1 + (pD - 1))%Z then _ else D st).
  rewrite step_gets, read_xVal, get_slot_prims. fold x.
  rewrite step_alloc.
  match goal with
  | |- context [Ref (length ?H)] => set (t := length H)
  end.
  assert (Ht : t = (length h0 + 3
                    + length (tail ++ sl :: [Prim (VNum K); Prim VNull] :: extra))%nat).
  { unfold t. rewrite <- !app_assoc. cbn [app].
    rewrite length_app. cbn [length]. lia. }
  norm_heap.
  rewrite step_push, load_app_r, update_app_r. cbn [nth update].
  change [Ref t] with (map Ref [t]). rewrite <- map_app.
  rewrite step_gets, load_app_r. cbn [nth].
  unfold last_row. rewrite get_slot_last_ref, step_ret.
  rewrite step_set_index.
  replace (tail ++ sl :: [Prim (VNum K); Prim VNull]
             :: extra ++ [[Prim x; Prim (VNum K); Prim D1]])
    with ((tail ++ [sl]) ++ [Prim (VNum K); Prim VNull]
             :: extra ++ [[Prim x; Prim (VNum K); Prim D1]])
    by (now rewrite <- app_assoc).
  rewrite (load_row_at _ _ _ _ _ _ _ Hr), (update_row_at _ _ _ _ _ _ _ _ Hr).
  cbn [update]. unfold ret. cbn [fst snd].
  split; [reflexivity |].
  exists (ts ++ [t]), (rs ++ [r]),
    ((tail ++ [sl]) ++ [Prim (VNum K); Prim D1]
       :: extra ++ [[Prim x; Prim (VNum K); Prim D1]]).
  cbn [SO lsXData lsYData]. split; [reflexivity |]. split.
  - rewrite set_last_smoothed_snoc, map_app. apply Forall2_app.
    + rewrite <- app_assoc. now apply Forall2_held_extend.
    + constructor; [| constructor]. rewrite Hr. apply held_new.
  - rewrite map_app. apply Forall2_app.
    + rewrite <- app_assoc. now apply Forall2_held_extend.
    + constructor; [| constructor].
      replace ((tail ++ [sl]) ++ [Prim (VNum K); Prim D1]
                 :: extra ++ [[Prim x; Prim (VNum K); Prim D1]])
        with (((tail ++ [sl]) ++ [Prim (VNum K); Prim D1] :: extra)
                ++ [[Prim x; Prim (VNum K); Prim D1]])
        by (now rewrite <- app_assoc).
      replace t with (length h0 + 3
                      + length ((tail ++ [sl]) ++ [Prim (VNum K); Prim D1] :: extra))%nat
        by (rewrite Ht, !length_app; cbn [length]; lia).
      apply held_new.
Qed.

Lemma iterate_sim (n : nat) (h : heap) (st : LoopState) (i : Z) :
  Inv h0 h st ->
  let out := StoreCode.iterate pK pD xVal yVal (length h0 + 0) (length h0 + 1)
               (length h0 + 2) n i (D st) h in
  match iterate pK pD xs yrows n i st with
  | TypeError => snd out = TypeError /\ exists ext, fst out = h0 ++ ext
  | Ok st' => snd out = Ok (D st') /\ Inv h0 (fst out) st'
  end.
Proof.
  revert h st i. induction n as [| n IH]; intros h st i HI; cbv zeta.
  - cbn [iterate StoreCode.iterate]. unfold ret. cbn [fst snd]. auto.
  - pose proof (iteration_sim h st i HI) as Hstep. cbv zeta in Hstep.
    assert (E : StoreCode.iterate pK pD xVal yVal (length h0 + 0)
                  (length h0 + 1) (length h0 + 2) (S n) i (D st) h
                = match StoreCode.iteration pK pD xVal yVal (length h0 + 0)
                          (length h0 + 1) (length h0 + 2) i (D st) h with
                  | (h1, Ok D') =>
                      StoreCode.iterate pK pD xVal yVal (length h0 + 0)
                        (length h0 + 1) (length h0 + 2) n (i + 1) D' h1
                  | (h1, TypeError) => (h1, TypeError)
                  end) by reflexivity.
    rewrite E. clear E. cbn [iterate].
    destruct (StoreCode.iteration pK pD xVal yVal (length h0 + 0)
                (length h0 + 1) (length h0 + 2) i (D st) h) as [h1 r1].
    cbn [fst snd] in Hstep.
    destruct (iteration pK pD xs yrows i st) as [st1 |]; cbn [bind].
    + destruct Hstep as (-> & HI1). apply (IH h1 st1 (i + 1)%Z HI1).
    + destruct Hstep as (-> & Hext). cbn [fst snd]. auto.
Qed.

End Simulation.

Section WholeCall.
Import Store.

Lemma Inv_initial (h0 : heap) : Inv h0 (h0 ++ [[]; []; []]) initial.
Proof. exists [], [], []. repeat split; constructor. Qed.

Lemma Inv_extends (h0 h : heap) (st : LoopState) :
  Inv h0 h st -> exists ext, h = h0 ++ ext.
Proof. intros (ts & rs & tail & -> & _). eexists. reflexivity. Qed.

Lemma held_from (n : nat) (tail : heap) (ls : list loc) (os : list object) :
  Forall2 (held n tail) ls os -> Forall (is_ref_from n) (map Ref ls).
Proof.
  induction 1 as [| l o ls os (Hl & _) _ IH]; cbn [map]; constructor;
    [cbn; lia | assumption].
Qed.

(** What the caller reads after the loop is the state of the loop, and
    everything returned was allocated by the call. *)
Lemma Inv_read (h0 h : heap) (st : LoopState) :
  Inv h0 h st ->
  let vr := {| vr_values := length h0 + 0; vr_xData := length h0 + 1;
               vr_yData := length h0 + 2 |} in
  read_values h vr
  = {| values := SO st; ivXData := lsXData st; ivYData := lsYData st |}
  /\ allocated_from (length h0) h vr.
Proof.
  intros (ts & rs & tail & -> & Hrs & Hts). cbv zeta.
  unfold read_values, allocated_from, read_triples, read_pairs, read_rows,
    read_prims.
  cbn [vr_values vr_xData vr_yData].
  rewrite !load_app_r. cbn [nth].
  rewrite !map_map. split.
  - f_equal.
    + now apply decode_triples.
    + cbn [slot_value]. apply map_id.
    + now apply decode_pairs.
  - repeat split; try lia.
    + eapply held_from; eassumption.
    + apply Forall_forall. intros x Hx. apply in_map_iff in Hx as (v & <- & _).
      exact I.
    + eapply held_from; eassumption.
Qed.

Lemma getValues_on_store (sr : SeriesRef) (params : ParamsOptions) (h0 : heap) :
  StoreCode.getValues sr params h0
  = let yValLen := match sr_yData sr with
                   | Some yVal => len (load h0 yVal)
                   | None => 0%Z
                   end in
    let h3 := h0 ++ [[]; []; []] in
    if (yValLen <? periodK params)%Z then (h3, Ok None)
    else
      match sr_yData sr with
      | None => (h3, TypeError)
      | Some yVal =>
          match get_row (read_rows h3 yVal) 0 with
          | RArray cells =>
              if negb (len cells =? 4)%Z then (h3, Ok None)
              else
                (_ <~ StoreCode.iterate (periodK params) (periodD params)
                        (sr_xData sr) yVal (length h0 + 0) (length h0 + 1)
                        (length h0 + 2)
                        (Z.to_nat (yValLen - (periodK params - 1)))
                        (periodK params - 1) VNull ;;
                 ret (Some {| vr_values := length h0 + 0;
                              vr_xData := length h0 + 1;
                              vr_yData := length h0 + 2 |})) h3
          | RPrim _ => (h3, Ok None)
          end
      end.
Proof.
  unfold StoreCode.getValues. rewrite step_gets, !step_alloc.
  rewrite !length_app. cbn [length].
  replace (length h0 + 1 + 1)%nat with (length h0 + 2)%nat by lia.
  rewrite (Nat.add_0_r (length h0)).
  norm_heap. cbv zeta.
  destruct (_ <? periodK params)%Z; [reflexivity |].
  destruct (sr_yData sr) as [yVal |]; [| reflexivity].
  rewrite step_gets.
  destruct (get_row _ 0) as [cells | v]; [| reflexivity].
  destruct (negb _); reflexivity.
Qed.

Lemma Inv_grow (h0 h more : heap) (st : LoopState) :
  Inv h0 h st -> Inv h0 (h ++ more) st.
Proof.
  intros (ts & rs & tail & -> & Hrs & Hts).
  exists ts, rs, (tail ++ more). rewrite <- app_assoc. cbn [app].
  split; [reflexivity |]. split; now apply Forall2_held_extend.
Qed.

(** The call on the store against the call on values: the store only
    grows; what the caller reads through the result, then and after any
    later allocation, is the result on values; and everything returned was
    allocated by the call. *)
Lemma getValues_sim (h0 : heap) (sr : SeriesRef) (s : Series)
    (params : ParamsOptions) :
  represents h0 sr s ->
  exists ext,
    fst (StoreCode.getValues sr params h0) = h0 ++ ext
    /\ (forall more,
          read_result ((h0 ++ ext) ++ more) (snd (StoreCode.getValues sr params h0))
          = getValues s params)
    /\ match snd (StoreCode.getValues sr params h0) with
       | Ok (Some vr) => allocated_from (length h0) (h0 ++ ext) vr
       | _ => True
       end.
Proof.
  intros (HxVal & Hxs & Hy). rewrite getValues_on_store. unfold getValues.
  cbv zeta.
  destruct (sr_yData sr) as [yVal |], (yData s) as [yrows |];
    try contradiction.
  2:{ destruct (0 <? periodK params)%Z; cbn [fst snd read_result];
        eexists; repeat split; reflexivity. }
  destruct Hy as (HyVal & Hrows).
  assert (Hlen : len (load h0 yVal) = len yrows).
  { unfold len. f_equal. eapply Forall2_length; eassumption. }
  rewrite Hlen.
  destruct (len yrows <? periodK params)%Z.
  { cbn [fst snd read_result]. eexists; repeat split; reflexivity. }
  rewrite (read_rows_yVal h0 yVal (load h0 yVal) yrows HyVal eq_refl Hrows).
  destruct (get_row yrows 0) as [cells | v].
  2:{ cbn [fst snd read_result]. eexists; repeat split; reflexivity. }
  destruct (negb (len cells =? 4)%Z).
  { cbn [fst snd read_result]. eexists; repeat split; reflexivity. }
  pose proof (iterate_sim h0 (sr_xData sr) yVal (xData s) (load h0 yVal) yrows
                HxVal Hxs HyVal eq_refl Hrows (periodK params) (periodD params)
                (Z.to_nat (len yrows - (periodK params - 1)))
                (h0 ++ [[]; []; []]) initial (periodK params - 1)
                (Inv_initial h0)) as Hsim.
  cbv zeta in Hsim. cbn [D initial] in Hsim.
  unfold mbind.
  destruct (StoreCode.iterate _ _ _ _ _ _ _ _ _ _ _) as [hf rf].
  cbn [fst snd] in Hsim.
  destruct (iterate _ _ _ _ _ _ _) as [st' |]; cbn [bind].
  - destruct Hsim as (-> & HI). unfold ret. cbn [fst snd read_result].
    destruct (Inv_extends _ _ _ HI) as (ext & ->).
    exists ext. split; [reflexivity |]. split.
    + intros more.
      destruct (Inv_read _ _ _ (Inv_grow _ _ more _ HI)) as (Hread & _).
      now rewrite Hread.
    + now destruct (Inv_read _ _ _ HI) as (_ & Halloc).
  - destruct Hsim as (-> & ext & ->). cbn [fst snd read_result].
    exists ext. repeat split; reflexivity.
Qed.

End WholeCall.

(* ================================================================== *)
(** * Effects of a call *)
(* ================================================================== *)

(** C9: a call leaves every array that existed before it as it was, the
    [xData] and [yData] arrays of the series and every bar among them (the
    store after the call is the store before it followed by new arrays, and
    the series reads the same); and the three returned arrays, with the rows
    they hold, are new arrays, none of them an array of the input. *)
Theorem input_untouched_output_fresh (h : list (list Store.slot))
    (sr : Store.SeriesRef) (s : Series) (params : ParamsOptions) :
  represents h sr s ->
  let run := StoreCode.getValues sr params h in
  (exists ext, fst run = h ++ ext)
  /\ (forall l, (l < length h)%nat -> Store.load (fst run) l = Store.load h l)
  /\ represents (fst run) sr s
  /\ match snd run with
     | Ok (Some vr) => allocated_from (length h) (fst run) vr
     | _ => True
     end.
Proof.
  intros Hrep run.
  destruct (getValues_sim h sr s params Hrep) as (ext & Hext & _ & Halloc).
  fold run in Hext, Halloc. rewrite Hext.
  split; [now exists ext |]. split; [| split].
  - intros l Hl. now apply load_app_l.
  - now apply represents_extend.
  - exact Halloc.
Qed.

Lemma input_untouched_output_fresh_scenario :
  let run := StoreCode.getValues scenario_ref {| periodK := 3; periodD := 2 |}
               scenario_store in
  (exists ext, fst run = scenario_store ++ ext)
  /\ (forall l, (l < length scenario_store)%nat ->
        Store.load (fst run) l = Store.load scenario_store l)
  /\ represents (fst run) scenario_ref scenario
  /\ match snd run with
     | Ok (Some vr) => allocated_from (length scenario_store) (fst run) vr
     | _ => True
     end.
Proof.
  apply (input_untouched_output_fresh scenario_store scenario_ref scenario
           {| periodK := 3; periodD := 2 |}).
  unfold represents. cbn. repeat split; try lia.
  repeat constructor; cbn; (lia || reflexivity).
Defined.

(** C8: two calls in a row on the same series and parameters, the second
    in the store that the first has left, return the same sequences, x
    values, K and D position by position: both read as the result of
    [getValues] on the values of the series, and the sequences returned
    by the first call still read the same after the second. *)
Theorem repeated_calls_agree (h : list (list Store.slot))
    (sr : Store.SeriesRef) (s : Series) (params : ParamsOptions) :
  represents h sr s ->
  let run1 := StoreCode.getValues sr params h in
  let run2 := StoreCode.getValues sr params (fst run1) in
  read_result (fst run1) (snd run1) = getValues s params
  /\ read_result (fst run2) (snd run2) = read_result (fst run1) (snd run1)
  /\ read_result (fst run2) (snd run1) = read_result (fst run1) (snd run1).
Proof.
  intros Hrep run1 run2.
  destruct (getValues_sim h sr s params Hrep) as (ext1 & Hext1 & Hread1 & _).
  fold run1 in Hext1, Hread1.
  assert (Hrep1 : represents (fst run1) sr s)
    by (rewrite Hext1; now apply represents_extend).
  destruct (getValues_sim (fst run1) sr s params Hrep1)
    as (ext2 & Hext2 & Hread2 & _).
  fold run2 in Hext2, Hread2.
  assert (H1 : read_result (fst run1) (snd run1) = getValues s params).
  { rewrite Hext1, <- (app_nil_r (h ++ ext1)). apply Hread1. }
  split; [exact H1 |]. rewrite H1. split.
  - rewrite Hext2, <- (app_nil_r (fst run1 ++ ext2)). apply Hread2.
  - rewrite Hext2, Hext1. apply Hread1.
Qed.

Lemma repeated_calls_agree_scenario :
  let run1 := StoreCode.getValues scenario_ref {| periodK := 3; periodD := 2 |}
                scenario_store in
  let run2 := StoreCode.getValues scenario_ref {| periodK := 3; periodD := 2 |}
                (fst run1) in
  read_result (fst run1) (snd run1)
  = getValues scenario {| periodK := 3; periodD := 2 |}
  /\ read_result (fst run2) (snd run2) = read_result (fst run1) (snd run1)
  /\ read_result (fst run2) (snd run1) = read_result (fst run1) (snd run1).
Proof.
  apply (repeated_calls_agree scenario_store scenario_ref scenario
           {| periodK := 3; periodD := 2 |}).
  unfold represents. cbn. repeat split; try lia.
  repeat constructor; cbn; (lia || reflexivity).
Defined.

Local Open Scope Z_scope.

(* ================================================================== *)
(** * Binary64 facts: digits and right shifts *)
(* ================================================================== *)

Lemma digits2_pos_bounds (p : positive) :
  2 ^ (Z.pos (digits2_pos p) - 1) <= Z.pos p < 2 ^ Z.pos (digits2_pos p).
Proof.
  induction p as [p IH | p IH |]; cbn [digits2_pos].
  - pose proof (Pos2Z.is_pos (digits2_pos p)) as Hd.
    rewrite Pos2Z.inj_succ. change (Z.pos p~1) with (2 * Z.pos p + 1).
    replace (Z.succ (Z.pos (digits2_pos p)) - 1)
      with (Z.succ (Z.pos (digits2_pos p) - 1)) by lia.
    rewrite (Z.pow_succ_r 2 (Z.pos (digits2_pos p))),
      (Z.pow_succ_r 2 (Z.pos (digits2_pos p) - 1)) by lia.
    lia.
  - pose proof (Pos2Z.is_pos (digits2_pos p)) as Hd.
    rewrite Pos2Z.inj_succ. change (Z.pos p~0) with (2 * Z.pos p).
    replace (Z.succ (Z.pos (digits2_pos p)) - 1)
      with (Z.succ (Z.pos (digits2_pos p) - 1)) by lia.
    rewrite (Z.pow_succ_r 2 (Z.pos (digits2_pos p))),
      (Z.pow_succ_r 2 (Z.pos (digits2_pos p) - 1)) by lia.
    lia.
  - cbn. lia.
Qed.

Lemma Zdigits2_nonneg (m : Z) : 0 <= Zdigits2 m.
Proof. destruct m; cbn; lia. Qed.

(** A natural number below [2^j] has at most [j] binary digits. *)
Lemma Zdigits2_le (m j : Z) : 0 <= m < 2 ^ j -> 0 <= j -> Zdigits2 m <= j.
Proof.
  intros Hm Hj. destruct m as [| p | p]; cbn [Zdigits2]; [assumption | | lia].
  pose proof (digits2_pos_bounds p) as (Hlo & _).
  destruct (Z.le_gt_cases (Z.pos (digits2_pos p)) j) as [H | H]; [assumption |].
  exfalso.
  assert (2 ^ j <= 2 ^ (Z.pos (digits2_pos p) - 1)) by (apply Z.pow_le_mono_r; lia).
  lia.
Qed.

Lemma iter_pos_nat {A} (f : A -> A) (p : positive) (x : A) :
  iter_pos f p x = Nat.iter (Pos.to_nat p) f x.
Proof.
  revert x. induction p as [p IH | p IH |]; intros x; cbn [iter_pos].
  - rewrite !IH, Pos2Nat.inj_xI.
    replace (S (2 * Pos.to_nat p)) with (Pos.to_nat p + (Pos.to_nat p + 1))%nat by lia.
    rewrite !Nat.iter_add. reflexivity.
  - rewrite !IH, Pos2Nat.inj_xO.
    replace (2 * Pos.to_nat p)%nat with (Pos.to_nat p + Pos.to_nat p)%nat by lia.
    rewrite Nat.iter_add. reflexivity.
  - reflexivity.
Qed.

Lemma shr_1_spec (m : Z) (r s : bool) :
  0 <= m ->
  shr_m (shr_1 (Build_shr_record m r s)) = m / 2
  /\ is_exact (shr_1 (Build_shr_record m r s))
     = Z.even m && is_exact (Build_shr_record m r s).
Proof.
  intros Hm. unfold is_exact. destruct m as [| [p | p |] | p]; cbn [shr_1 shr_m shr_r shr_s]; try lia.
  - split; [reflexivity | destruct r, s; reflexivity].
  - split; [| destruct r, s; reflexivity].
    change (Z.pos p~1) with (2 * Z.pos p + 1).
    apply Z.div_unique with (r := 1); lia.
  - split; [| destruct r, s; reflexivity].
    change (Z.pos p~0) with (2 * Z.pos p).
    apply Z.div_unique with (r := 0); lia.
  - split; [reflexivity | destruct r, s; reflexivity].
Qed.

Lemma shr_iter_spec (k : nat) (mrs : shr_record) :
  0 <= shr_m mrs ->
  shr_m (Nat.iter k shr_1 mrs) = shr_m mrs / 2 ^ Z.of_nat k
  /\ is_exact (Nat.iter k shr_1 mrs)
     = (shr_m mrs mod 2 ^ Z.of_nat k =? 0) && is_exact mrs.
Proof.
  intros Hm. induction k as [| k (IHm & IHx)].
  - cbn [Nat.iter]. change (2 ^ Z.of_nat 0) with 1.
    rewrite Z.div_1_r, Z.mod_1_r. split; reflexivity.
  - rewrite Nat.iter_succ.
    destruct (Nat.iter k shr_1 mrs) as [mk rk sk] eqn:E.
    cbn [shr_m] in IHm.
    assert (Hmk : 0 <= mk).
    { rewrite IHm. apply Z.div_pos; [assumption | apply Z.pow_pos_nonneg; lia]. }
    destruct (shr_1_spec mk rk sk Hmk) as (H1 & H2).
    rewrite H1, H2, IHx, IHm.
    rewrite Nat2Z.inj_succ, Z.pow_succ_r by lia.
    set (P := 2 ^ Z.of_nat k) in *.
    assert (HP : 0 < P) by (apply Z.pow_pos_nonneg; lia).
    split.
    + rewrite Z.div_div by lia. f_equal. lia.
    + set (m := shr_m mrs) in *.
      rewrite andb_assoc. f_equal.
      pose proof (Z.mod_pos_bound m P HP) as HmP.
      pose proof (Z.mod_pos_bound (m / P) 2 ltac:(lia)) as Hm2.
      rewrite Zeven_mod, (Z.mul_comm 2 P), Z.rem_mul_r by lia.
      destruct (Z.eqb_spec ((m / P) mod 2) 0) as [E2 | E2];
        destruct (Z.eqb_spec (m mod P) 0) as [E1 | E1]; cbn [andb];
        symmetry; apply Z.eqb_eq || apply Z.eqb_neq; nia.
Qed.

Lemma is_exact_of_loc (m : Z) (l : location) :
  is_exact (shr_record_of_loc m l) = loc_exact l.
Proof. destruct l as [| []]; reflexivity. Qed.

Lemma shr_m_of_loc (m : Z) (l : location) : shr_m (shr_record_of_loc m l) = m.
Proof. destruct l as [| []]; reflexivity. Qed.

Lemma loc_exact_of_record (mrs : shr_record) :
  loc_exact (loc_of_shr_record mrs) = is_exact mrs.
Proof. destruct mrs as [m [|] [|]]; reflexivity. Qed.

(** [shr] divides the mantissa by a power of two and records whether
    anything was lost. *)
Lemma shr_spec (m e n : Z) (l : location) :
  0 <= m ->
  let k := Z.max n 0 in
  snd (shr (shr_record_of_loc m l) e n) = e + k
  /\ shr_m (fst (shr (shr_record_of_loc m l) e n)) = m / 2 ^ k
  /\ is_exact (fst (shr (shr_record_of_loc m l) e n))
     = (m mod 2 ^ k =? 0) && loc_exact l.
Proof.
  intros Hm k. unfold shr. destruct n as [| p | p]; cbn [fst snd].
  - subst k. cbn [Z.max Z.compare]. change (2 ^ 0) with 1.
    rewrite Z.div_1_r, Z.mod_1_r, Z.add_0_r, shr_m_of_loc, is_exact_of_loc.
    auto.
  - assert (Hk : k = Z.of_nat (Pos.to_nat p)) by (subst k; lia).
    rewrite iter_pos_nat.
    destruct (shr_iter_spec (Pos.to_nat p) (shr_record_of_loc m l))
      as (H1 & H2); [now rewrite shr_m_of_loc |].
    rewrite H1, H2, shr_m_of_loc, is_exact_of_loc, Hk.
    split; [lia | auto].
  - subst k. rewrite Z.max_r by lia. change (2 ^ 0) with 1.
    rewrite Z.div_1_r, Z.mod_1_r, Z.add_0_r, shr_m_of_loc, is_exact_of_loc.
    auto.
Qed.

Lemma round_nearest_even_bounds (m : Z) (l : location) :
  m <= round_nearest_even m l <= m + excess l.
Proof.
  unfold excess. destruct l as [| []]; cbn; try lia.
  destruct (Z.even m); lia.
Qed.

(** Dividing an integer that is below a multiple of [P]. *)
Lemma div_below_multiple (m P b d : Z) :
  0 < P -> 0 <= m -> 0 <= d <= 1 -> m + d <= b * P ->
  m / P + (if (m mod P =? 0) && (d =? 0) then 0 else 1) <= b.
Proof.
  intros HP Hm Hd Hb.
  pose proof (Z.div_mod m P ltac:(lia)) as Hdm.
  pose proof (Z.mod_pos_bound m P HP) as Hr.
  destruct (Z.eqb_spec (m mod P) 0) as [E1 | E1];
    destruct (Z.eqb_spec d 0) as [E2 | E2]; cbn [andb]; nia.
Qed.

Lemma pow2_split (a b : Z) : 0 <= a -> 0 <= b -> 2 ^ (a + b) = 2 ^ a * 2 ^ b.
Proof. intros. now apply Z.pow_add_r. Qed.

Lemma pow2_pos (a : Z) : 0 <= a -> 0 < 2 ^ a.
Proof. intros. apply Z.pow_pos_nonneg; lia. Qed.

Lemma fexp64 (z : Z) : fexp prec emax z = Z.max (z - 53) (-1074).
Proof. reflexivity. Qed.

Lemma excess_eqb (l : location) : (excess l =? 0) = loc_exact l.
Proof. unfold excess. now destruct (loc_exact l). Qed.

Lemma excess_range (l : location) : 0 <= excess l <= 1.
Proof. unfold excess. destruct (loc_exact l); lia. Qed.

Lemma digits_below (m c K e : Z) :
  0 <= m -> 0 < c < 2 ^ 53 -> e <= K -> m <= c * 2 ^ (K - e) ->
  Zdigits2 m <= 53 + K - e.
Proof.
  intros Hm Hc HeK Hb. apply Zdigits2_le; [| lia].
  split; [assumption |].
  replace (53 + K - e) with (53 + (K - e)) by lia.
  rewrite pow2_split by lia.
  pose proof (pow2_pos (K - e) ltac:(lia)). nia.
Qed.

(** Rounding a non-negative value that does not exceed [c * 2^K], where
    [c * 2^K] is a binary64 number: the result does not exceed it either. *)
Lemma round_aux_upper (m e c K : Z) (l : location) :
  0 <= m -> 0 < c < 2 ^ 53 -> e <= K -> -1074 <= K <= 971 ->
  m + excess l <= c * 2 ^ (K - e) ->
  match binary_round_aux prec emax false m e l with
  | S754_zero false => True
  | S754_finite false mf ef => e <= ef <= K /\ Z.pos mf <= c * 2 ^ (K - ef)
  | _ => False
  end.
Proof.
  intros Hm Hc HeK HK Hb.
  pose proof (excess_range l) as Hex.
  unfold binary_round_aux, shr_fexp.
  set (n1 := fexp prec emax (Zdigits2 m + e) - e).
  destruct (shr_spec m e n1 l Hm) as (He1 & Hm1 & Hx1).
  destruct (shr (shr_record_of_loc m l) e n1) as [mrs1 e1]. cbn [fst snd] in *.
  set (k1 := Z.max n1 0) in *.
  assert (Hk1 : 0 <= k1 <= K - e).
  { pose proof (digits_below m c K e Hm Hc HeK ltac:(lia)) as Hd.
    subst k1 n1. rewrite fexp64. lia. }
  assert (Hsplit1 : 2 ^ (K - e) = 2 ^ (K - e1) * 2 ^ k1).
  { rewrite <- pow2_split by lia. f_equal. lia. }
  pose proof (pow2_pos k1 ltac:(lia)) as HP1.
  pose proof (div_below_multiple m (2 ^ k1) (c * 2 ^ (K - e1)) (excess l)
                HP1 Hm Hex ltac:(rewrite Hsplit1 in Hb; lia)) as Hm1b.
  rewrite excess_eqb, <- Hx1, <- Hm1 in Hm1b.
  set (m1 := shr_m mrs1) in *.
  assert (Hm1pos : 0 <= m1).
  { rewrite Hm1. apply Z.div_pos; lia. }
  pose proof (round_nearest_even_bounds m1 (loc_of_shr_record mrs1)) as Hrne.
  unfold excess in Hrne. rewrite loc_exact_of_record in Hrne.
  set (m2 := round_nearest_even m1 (loc_of_shr_record mrs1)) in *.
  assert (Hm2 : 0 <= m2 <= c * 2 ^ (K - e1)) by lia.
  set (n2 := fexp prec emax (Zdigits2 m2 + e1) - e1).
  destruct (shr_spec m2 e1 n2 loc_Exact ltac:(lia)) as (He2 & Hmf & _).
  destruct (shr (shr_record_of_loc m2 loc_Exact) e1 n2) as [mrs2 e2].
  cbn [fst snd] in *.
  set (k2 := Z.max n2 0) in *.
  assert (Hk2 : 0 <= k2 <= K - e1).
  { pose proof (digits_below m2 c K e1 ltac:(lia) Hc ltac:(lia) ltac:(lia)) as Hd.
    subst k2 n2. rewrite fexp64. lia. }
  assert (Hsplit2 : 2 ^ (K - e1) = 2 ^ (K - e2) * 2 ^ k2).
  { rewrite <- pow2_split by lia. f_equal. lia. }
  pose proof (pow2_pos k2 ltac:(lia)) as HP2.
  assert (Hmfb : 0 <= shr_m mrs2 <= c * 2 ^ (K - e2)).
  { rewrite Hmf. split; [apply Z.div_pos; lia |].
    apply Z.div_le_upper_bound; [lia |]. rewrite Hsplit2 in Hm2. lia. }
  destruct (shr_m mrs2) as [| mf | mf]; [exact I | | lia].
  destruct (Z.leb_spec e2 (emax - prec)) as [_ | Hov].
  - split; [lia | lia].
  - unfold emax, prec in Hov. lia.
Qed.

(* ================================================================== *)
(** * Binary64 facts: order and value of canonical numbers *)
(* ================================================================== *)

Lemma bounded_digits (m : positive) (e : Z) :
  bounded prec emax m e = true ->
  -1074 <= e <= 971
  /\ Z.pos (digits2_pos m) <= 53
  /\ (-1074 < e -> Z.pos (digits2_pos m) = 53).
Proof.
  intros H. destruct (bounded_cases m e H) as (Hmax & [(He & Hd) | (Hd & He)]); lia.
Qed.

(** Among canonical positive numbers, a smaller exponent means a smaller
    value. *)
Lemma canonical_lt (m1 : positive) (e1 : Z) (m2 : positive) (e2 : Z) :
  bounded prec emax m1 e1 = true -> bounded prec emax m2 e2 = true ->
  e1 < e2 -> Z.pos m1 < Z.pos m2 * 2 ^ (e2 - e1).
Proof.
  intros H1 H2 He.
  destruct (bounded_digits m1 e1 H1) as (He1 & Hd1 & _).
  destruct (bounded_digits m2 e2 H2) as (He2 & _ & Hd2).
  pose proof (digits2_pos_bounds m1) as (_ & Hm1).
  pose proof (digits2_pos_bounds m2) as (Hm2 & _).
  rewrite Hd2 in Hm2 by lia.
  assert (Z.pos m1 < 2 ^ 53).
  { eapply Z.lt_le_trans; [exact Hm1 |]. apply Z.pow_le_mono_r; lia. }
  assert (2 ^ 1 <= 2 ^ (e2 - e1)) by (apply Z.pow_le_mono_r; lia).
  change (2 ^ (53 - 1)) with 4503599627370496 in Hm2.
  change (2 ^ 53) with 9007199254740992 in *.
  change (2 ^ 1) with 2 in *. nia.
Qed.

Lemma leb_value (m1 : positive) (e1 : Z) (m2 : positive) (e2 : Z) :
  bounded prec emax m1 e1 = true -> bounded prec emax m2 e2 = true ->
  SFleb (S754_finite false m1 e1) (S754_finite false m2 e2) = true ->
  e1 <= e2 /\ Z.pos m1 <= Z.pos m2 * 2 ^ (e2 - e1).
Proof.
  intros H1 H2. unfold SFleb. cbn [SFcompare].
  destruct (Z.compare_spec e1 e2) as [He | He | He].
  - subst. rewrite Z.sub_diag. change (2 ^ 0) with 1.
    change (Pos.compare_cont Eq m1 m2) with (Pos.compare m1 m2).
    destruct (Pos.compare_spec m1 m2); intros; try discriminate; lia.
  - intros _. pose proof (canonical_lt m1 e1 m2 e2 H1 H2 He). lia.
  - discriminate.
Qed.

(** A canonical number whose value does not exceed that of another one
    compares below it. *)
Lemma leb_of_bound (mf : positive) (ef : Z) (mB : positive) (eB c K : Z) :
  bounded prec emax mf ef = true -> bounded prec emax mB eB = true ->
  ef <= K -> eB <= K -> Z.pos mB = c * 2 ^ (K - eB) ->
  Z.pos mf <= c * 2 ^ (K - ef) ->
  SFleb (S754_finite false mf ef) (S754_finite false mB eB) = true.
Proof.
  intros Hf HB Hef HeB HmB Hmf. unfold SFleb. cbn [SFcompare].
  destruct (Z.compare_spec ef eB) as [He | He | He]; [| reflexivity |].
  - subst ef. change (Pos.compare_cont Eq mf mB) with (Pos.compare mf mB).
    destruct (Pos.compare_spec mf mB); try reflexivity. lia.
  - exfalso. pose proof (canonical_lt mB eB mf ef HB Hf He) as Hlt.
    assert (Hs : 2 ^ (K - eB) = 2 ^ (K - ef) * 2 ^ (ef - eB)).
    { rewrite <- pow2_split by lia. f_equal. lia. }
    pose proof (pow2_pos (ef - eB) ltac:(lia)).
    rewrite Hs in HmB. nia.
Qed.

(* ================================================================== *)
(** * Binary64 facts: a quotient at most one, and a hundred times it *)
(* ================================================================== *)

Lemma new_location_exact (d r : Z) : loc_exact (new_location d r) = (r =? 0).
Proof.
  unfold new_location, new_location_even, new_location_odd.
  destruct (Z.even d), (r =? 0); reflexivity.
Qed.

(** The quotient of two positive canonical numbers, the first of which
    does not exceed the second, is at most one. *)
Lemma SFdiv_at_most_one (m1 : positive) (e1 : Z) (m2 : positive) (e2 : Z) :
  e1 <= e2 -> Z.pos m1 <= Z.pos m2 * 2 ^ (e2 - e1) ->
  match SF64div (S754_finite false m1 e1) (S754_finite false m2 e2) with
  | S754_zero false => True
  | S754_finite false mq eq => eq <= 0 /\ Z.pos mq <= 2 ^ (- eq)
  | _ => False
  end.
Proof.
  intros He Hv. unfold SF64div, SFdiv, SFdiv_core_binary.
  cbn [xorb Zdigits2].
  set (e' := Z.min (fexp prec emax (Z.pos (digits2_pos m1) + e1
                                    - (Z.pos (digits2_pos m2) + e2))) (e1 - e2)).
  assert (He' : e' <= e1 - e2) by (subst e'; lia).
  set (s := e1 - e2 - e').
  assert (Hs : 0 <= s) by (subst s; lia).
  set (m' := match s with 0 => Z.pos m1 | Z.pos _ => Z.shiftl (Z.pos m1) s | Z.neg _ => 0 end).
  assert (Hm' : m' = Z.pos m1 * 2 ^ s).
  { subst m'. destruct s as [| p | p] eqn:Es.
    - change (2 ^ 0) with 1. lia.
    - apply Z.shiftl_mul_pow2. lia.
    - lia. }
  clearbody m'.
  pose proof (Z_div_mod m' (Z.pos m2) ltac:(lia)) as Hdiv.
  destruct (Z.div_eucl m' (Z.pos m2)) as [q r]. destruct Hdiv as (Hqr & Hr).
  assert (Hup : Z.pos m1 * 2 ^ s <= Z.pos m2 * 2 ^ (- e')).
  { replace (- e') with ((e2 - e1) + s) by (subst s; lia).
    rewrite pow2_split by lia.
    pose proof (pow2_pos s Hs). nia. }
  pose proof (pow2_pos (- e') ltac:(lia)) as HP.
  assert (Hq : 0 <= q).
  { assert (0 <= m') by (rewrite Hm'; pose proof (pow2_pos s Hs); lia). nia. }
  assert (Hb : q + excess (new_location (Z.pos m2) r) <= 1 * 2 ^ (0 - e')).
  { unfold excess. rewrite new_location_exact.
    destruct (Z.eqb_spec r 0); replace (0 - e') with (- e') by lia; nia. }
  pose proof (round_aux_upper q e' 1 0 (new_location (Z.pos m2) r) Hq
                ltac:(cbn; lia) ltac:(lia) ltac:(lia) Hb) as Hround.
  destruct (binary_round_aux prec emax false q e' (new_location (Z.pos m2) r))
    as [[|] | | | [|] mq eq]; try contradiction; try exact I.
  destruct Hround as (Heq & Hmq). split; [lia |].
  replace (- eq) with (0 - eq) by lia. lia.
Qed.

Lemma Prim2SF_hundred : Prim2SF 100%float = SFhundred.
Proof. vm_compute. reflexivity. Qed.

(** A hundred times a positive number that is at most one is at most a
    hundred. *)
Lemma SFmul_hundred (mq : positive) (eq : Z) :
  eq <= 0 -> Z.pos mq <= 2 ^ (- eq) ->
  match SF64mul (S754_finite false mq eq) SFhundred with
  | S754_zero false => True
  | S754_finite false mf ef => ef <= 2 /\ Z.pos mf <= 25 * 2 ^ (2 - ef)
  | _ => False
  end.
Proof.
  intros He Hm. unfold SF64mul, SFmul, SFhundred. cbn [xorb].
  assert (Hb : Z.pos (mq * 7036874417766400) + excess loc_Exact
               <= 25 * 2 ^ (2 - (eq + -46))).
  { cbn [excess loc_exact]. rewrite Pos2Z.inj_mul.
    replace (2 - (eq + -46)) with (48 + - eq) by lia.
    rewrite pow2_split by lia.
    change (2 ^ 48) with 281474976710656.
    pose proof (pow2_pos (- eq) ltac:(lia)). nia. }
  pose proof (round_aux_upper (Z.pos (mq * 7036874417766400)) (eq + -46) 25 2
                loc_Exact ltac:(lia) ltac:(cbn; lia) ltac:(lia) ltac:(lia) Hb)
    as Hround.
  destruct (binary_round_aux prec emax false (Z.pos (mq * 7036874417766400))
              (eq + -46) loc_Exact) as [[|] | | | [|] mf ef];
    try contradiction; try exact I.
  destruct Hround as (Hef & Hmf). split; lia.
Qed.

(* ================================================================== *)
(** * The range of %K, from the two differences *)
(* ================================================================== *)

Lemma is_finite_SF (x : number) : is_finite x = finite_or_zero (Prim2SF x).
Proof.
  unfold is_finite, is_nan, is_infinity.
  rewrite !eqb_spec, abs_spec.
  change (Prim2SF infinity) with (S754_infinity false).
  destruct (Prim2SF x) as [s | s | | s m e];
    try (destruct s; reflexivity); try reflexivity.
  unfold SFeqb, SFabs. cbn [SFcompare finite_or_zero].
  rewrite Z.compare_refl.
  change (Pos.compare_cont Eq m m) with (Pos.compare m m).
  rewrite Pos.compare_refl. destruct s; reflexivity.
Qed.

(** [0 <= CL <= HL] with [HL] positive and finite gives
    [0 <= CL / HL * 100 <= 100]. *)
Lemma SF_percent_range (CL HL : spec_float) :
  valid_binary CL = true -> valid_binary HL = true ->
  valid_binary (SF64mul (SF64div CL HL) SFhundred) = true ->
  finite_or_zero HL = true ->
  SFleb (S754_zero false) CL = true -> SFleb CL HL = true ->
  SFltb (S754_zero false) HL = true ->
  SFleb (S754_zero false) (SF64mul (SF64div CL HL) SFhundred) = true
  /\ SFleb (SF64mul (SF64div CL HL) SFhundred) SFhundred = true.
Proof.
  intros VC VH VK FH H0 Hle Hpos.
  destruct HL as [sh | sh | | sh m2 e2]; try discriminate FH.
  { destruct sh; discriminate Hpos. }
  destruct sh; [discriminate Hpos |].
  destruct CL as [sc | sc | | sc m1 e1].
  - destruct sc; split; reflexivity.
  - destruct sc; [discriminate H0 | discriminate Hle].
  - discriminate H0.
  - destruct sc; [discriminate H0 |].
    cbn [valid_binary] in VC, VH.
    destruct (leb_value m1 e1 m2 e2 VC VH Hle) as (He & Hv).
    pose proof (SFdiv_at_most_one m1 e1 m2 e2 He Hv) as HQ.
    destruct (SF64div (S754_finite false m1 e1) (S754_finite false m2 e2))
      as [[|] | | | [|] mq eq]; try contradiction.
    + split; reflexivity.
    + destruct HQ as (Heq & Hmq).
      pose proof (SFmul_hundred mq eq Heq Hmq) as HK.
      destruct (SF64mul (S754_finite false mq eq) SFhundred)
        as [[|] | | | [|] mf ef]; try contradiction.
      * split; reflexivity.
      * destruct HK as (Hef & Hmf). split; [reflexivity |].
        cbn [valid_binary] in VK.
        apply (leb_of_bound mf ef 7036874417766400 (-46) 25 2);
          try assumption; try reflexivity; lia.
Qed.

Lemma percentK_range (c LL HH : number) :
  is_finite (HH - LL) = true ->
  (0 <=? c - LL)%float = true -> (c - LL <=? HH - LL)%float = true ->
  (0 <? HH - LL)%float = true ->
  (0 <=? percentK c LL HH)%float = true
  /\ (percentK c LL HH <=? 100)%float = true.
Proof.
  unfold percentK. rewrite is_finite_SF, !leb_spec, ltb_spec.
  rewrite mul_spec, div_spec, Prim2SF_hundred.
  change (Prim2SF 0) with (S754_zero false).
  intros FH H0 Hle Hpos.
  apply SF_percent_range; try assumption; try apply Prim2SF_valid.
  rewrite <- Prim2SF_hundred, <- div_spec, <- mul_spec. apply Prim2SF_valid.
Qed.

(* ================================================================== *)
(** * Binary64 facts: rounding to nearest, ties to even *)
(* ================================================================== *)

Lemma records_start (m : Z) :
  0 <= m -> records m 1 (Build_shr_record m false false).
Proof. intros Hm. split; [assumption |]. exists 0. cbn. lia. Qed.

Lemma records_shr_1 (m P : Z) (mrs : shr_record) :
  0 < P -> records m P mrs -> records m (2 * P) (shr_1 mrs).
Proof.
  intros HP (Hq & u & Hu & Hm & Hs).
  destruct mrs as [q r s]. cbn [shr_m shr_r shr_s] in *.
  assert (Hs' : r || s = negb ((if r then P else 0) + u =? 0)).
  { rewrite Hs. destruct r; cbn [orb]; cbv iota.
    - symmetry. apply negb_true_iff, Z.eqb_neq. lia.
    - reflexivity. }
  unfold records.
  destruct q as [| [p | p |] | p]; cbn [shr_1 shr_m shr_r shr_s]; try lia;
    (split; [lia |]); exists ((if r then P else 0) + u);
    (split; [destruct r; lia |]); (split; [| exact Hs']).
  - lia.
  - change (Z.pos p~1) with (2 * Z.pos p + 1) in Hm. lia.
  - change (Z.pos p~0) with (2 * Z.pos p) in Hm. lia.
  - lia.
Qed.

Lemma records_iter (m : Z) (k : nat) :
  0 <= m ->
  records m (2 ^ Z.of_nat k) (Nat.iter k shr_1 (Build_shr_record m false false)).
Proof.
  intros Hm. induction k as [| k IH].
  - apply records_start, Hm.
  - rewrite Nat.iter_succ, Nat2Z.inj_succ, Z.pow_succ_r by lia.
    apply records_shr_1; [apply pow2_pos; lia | exact IH].
Qed.

(** Rounding a shift record to nearest even. *)
Lemma records_round (m P : Z) (mrs : shr_record) :
  0 < P -> records m P mrs ->
  nearest_even m P (round_nearest_even (shr_m mrs) (loc_of_shr_record mrs)).
Proof.
  intros HP (Hq & u & Hu & Hm & Hs).
  destruct mrs as [q r s]. cbn [shr_m shr_r shr_s] in *.
  unfold nearest_even.
  destruct r, s; cbn [loc_of_shr_record round_nearest_even];
    symmetry in Hs; rewrite ?negb_true_iff, ?negb_false_iff in Hs;
    [apply Z.eqb_neq in Hs | apply Z.eqb_eq in Hs
     | apply Z.eqb_neq in Hs | apply Z.eqb_eq in Hs].
  - split; [lia | lia].
  - destruct (Z.even q) eqn:Ev.
    + split; [lia | intros _; exact Ev].
    + split; [lia |]. intros _. rewrite Z.even_add, Ev. reflexivity.
  - split; [lia | lia].
  - split; [lia | lia].
Qed.

(** A right shift by [n] places followed by rounding. *)
Lemma shr_round (m e n : Z) :
  0 <= m -> 0 <= n ->
  snd (shr (shr_record_of_loc m loc_Exact) e n) = e + n
  /\ 0 <= shr_m (fst (shr (shr_record_of_loc m loc_Exact) e n))
  /\ nearest_even m (2 ^ n)
       (round_nearest_even
          (shr_m (fst (shr (shr_record_of_loc m loc_Exact) e n)))
          (loc_of_shr_record (fst (shr (shr_record_of_loc m loc_Exact) e n)))).
Proof.
  intros Hm Hn. unfold shr. cbn [shr_record_of_loc].
  destruct n as [| p | p]; cbn [fst snd]; [| | lia].
  - pose proof (records_start m Hm) as R.
    split; [lia |]. split; [exact Hm |].
    change (2 ^ 0) with 1. apply records_round; [lia | exact R].
  - rewrite iter_pos_nat.
    pose proof (records_iter m (Pos.to_nat p) Hm) as R.
    rewrite positive_nat_Z in R.
    split; [reflexivity |]. split; [apply R |].
    apply records_round; [apply pow2_pos; lia | exact R].
Qed.

(* ================================================================== *)
(** * Binary64 facts: left shifts and the value of a number *)
(* ================================================================== *)

Lemma iter_xO_value (m d : positive) :
  Z.pos (Pos.iter xO m d) = Z.pos m * 2 ^ Z.pos d.
Proof.
  induction d as [| d IH] using Pos.peano_ind.
  - cbn [Pos.iter]. change (2 ^ 1) with 2. lia.
  - rewrite Pos.iter_succ, Pos2Z.inj_succ, Z.pow_succ_r by lia.
    change (Z.pos (Pos.iter xO m d)~0) with (2 * Z.pos (Pos.iter xO m d)).
    rewrite IH. lia.
Qed.

Lemma iter_xO_digits (m d : positive) :
  Z.pos (digits2_pos (Pos.iter xO m d)) = Z.pos (digits2_pos m) + Z.pos d.
Proof.
  induction d as [| d IH] using Pos.peano_ind.
  - cbn [Pos.iter digits2_pos]. lia.
  - rewrite Pos.iter_succ. cbn [digits2_pos]. rewrite !Pos2Z.inj_succ, IH. lia.
Qed.

(** [shl_align] lowers the exponent to [Z.min ex ex'] and keeps the value. *)
Lemma shl_align_spec (mx : positive) (ex ex' : Z) :
  snd (shl_align mx ex ex') = Z.min ex ex'
  /\ Z.pos (fst (shl_align mx ex ex')) = Z.pos mx * 2 ^ (ex - Z.min ex ex')
  /\ Z.pos (digits2_pos (fst (shl_align mx ex ex')))
     = Z.pos (digits2_pos mx) + (ex - Z.min ex ex').
Proof.
  unfold shl_align. destruct (ex' - ex) as [| d | d] eqn:E; cbn [fst snd].
  - replace (Z.min ex ex') with ex by lia. rewrite Z.sub_diag.
    change (2 ^ 0) with 1. lia.
  - replace (Z.min ex ex') with ex by lia. rewrite Z.sub_diag.
    change (2 ^ 0) with 1. lia.
  - replace (Z.min ex ex') with ex' by lia.
    replace (ex - ex') with (Z.pos d) by lia.
    rewrite iter_xO_value, iter_xO_digits. lia.
Qed.

(** The number of binary digits is determined by the two powers of two
    that enclose a value. *)
Lemma digits2_pos_unique (p : positive) (d : Z) :
  2 ^ (d - 1) <= Z.pos p < 2 ^ d -> Z.pos (digits2_pos p) = d.
Proof.
  intros (Hlo & Hhi).
  pose proof (digits2_pos_bounds p) as (Hlo' & Hhi').
  assert (Hd : 0 < d).
  { destruct (Z.lt_ge_cases 0 d) as [H | H]; [assumption |].
    exfalso. destruct (Z.eq_dec d 0) as [-> | Hne].
    - change (2 ^ 0) with 1 in Hhi. lia.
    - rewrite Z.pow_neg_r in Hhi by lia. lia. }
  set (D := Z.pos (digits2_pos p)) in *.
  destruct (Z.lt_trichotomy D d) as [H | [H | H]]; [| assumption |]; exfalso.
  - assert (2 ^ D <= 2 ^ (d - 1)) by (apply Z.pow_le_mono_r; lia). lia.
  - assert (2 ^ d <= 2 ^ (D - 1)) by (apply Z.pow_le_mono_r; lia). lia.
Qed.

Lemma units_digits (m : positive) (e : Z) :
  -1074 <= e ->
  Zdigits2 (units (Z.pos m) e) = Z.pos (digits2_pos m) + e + 1074.
Proof.
  intros He. unfold units.
  pose proof (digits2_pos_bounds m) as (Hlo & Hhi).
  pose proof (pow2_pos (e + 1074) ltac:(lia)) as HP.
  destruct (Z.pos m * 2 ^ (e + 1074)) as [| p | p] eqn:E; try lia.
  cbn [Zdigits2]. apply digits2_pos_unique. rewrite <- E.
  set (D := Z.pos (digits2_pos m)) in *.
  assert (0 < D) by (subst D; lia).
  replace (D + e + 1074 - 1) with ((D - 1) + (e + 1074)) by lia.
  replace (D + e + 1074) with (D + (e + 1074)) by lia.
  rewrite (pow2_split (D - 1) (e + 1074)), (pow2_split D (e + 1074)) by lia.
  nia.
Qed.

Lemma nearest_even_scale (m P r c : Z) :
  0 < c -> nearest_even m P r -> nearest_even (m * c) (P * c) r.
Proof.
  intros Hc (Hn & Ht). unfold nearest_even.
  replace (r * (P * c) - m * c) with ((r * P - m) * c) by ring.
  rewrite Z.abs_mul, (Z.abs_eq c) by lia.
  set (a := Z.abs (r * P - m)) in *.
  split; [nia |]. intros H. apply Ht. nia.
Qed.

(** A nearest integer to [m / P], where [m] has at most [53] digits more
    than [P], has at most [53] digits, or is [2^53]. *)
Lemma nearest_even_upper (m P r : Z) :
  0 < P -> m < 2 ^ 53 * P -> nearest_even m P r -> r <= 2 ^ 53.
Proof.
  intros HP Hm (Hn & _). change (2 ^ 53) with 9007199254740992 in *. nia.
Qed.

Lemma nearest_even_lower (m P r : Z) :
  0 < P -> 2 ^ 52 * P <= m -> nearest_even m P r -> 2 ^ 52 <= r.
Proof.
  intros HP Hm (Hn & _). change (2 ^ 52) with 4503599627370496 in *. nia.
Qed.

Lemma nearest_even_exact (m r : Z) : nearest_even m 1 r -> r = m.
Proof. intros (Hn & _). lia. Qed.

Lemma shr_none (mrs : shr_record) (e n : Z) : n <= 0 -> shr mrs e n = (mrs, e).
Proof. intros Hn. unfold shr. destruct n; try reflexivity. lia. Qed.

(** The value that [binary_round] returns: a nearest multiple of the
    grid step to the given value, and an even one at a tie. *)
Lemma binary_round_value (s : bool) (M : positive) (e : Z) :
  -1074 <= e ->
  exists r,
    nearest_even (units (Z.pos M) e)
      (2 ^ grid (Zdigits2 (units (Z.pos M) e))) r
    /\ match binary_round prec emax s M e with
       | S754_finite s' mf ef =>
           s' = s /\ bounded prec emax mf ef = true
           /\ units (Z.pos mf) ef
              = r * 2 ^ grid (Zdigits2 (units (Z.pos M) e))
       | S754_infinity s' =>
           s' = s
           /\ overflow <= r * 2 ^ grid (Zdigits2 (units (Z.pos M) e))
       | _ => False
       end.
Proof.
  intros He. rewrite units_digits by assumption.
  unfold binary_round.
  set (D := Z.pos (digits2_pos M)).
  assert (HD : 0 < D) by (subst D; lia).
  set (E := fexp prec emax (D + e)).
  assert (HE : E = Z.max (D + e - 53) (-1074)) by (subst E; apply fexp64).
  assert (Hk : grid (D + e + 1074) = E + 1074) by (unfold grid; lia).
  rewrite Hk.
  destruct (shl_align_spec M e E) as (He' & Hm' & Hd').
  destruct (shl_align M e E) as [m' e']. cbn [fst snd] in He', Hm', Hd'.
  unfold binary_round_aux, shr_fexp. cbn [Zdigits2].
  set (n := fexp prec emax (Z.pos (digits2_pos m') + e') - e').
  assert (Hn : n = E - e').
  { subst n E. f_equal. f_equal. lia. }
  assert (Hn0 : 0 <= n) by lia.
  destruct (shr_round (Z.pos m') e' n ltac:(lia) Hn0) as (He1 & Hq & Hr).
  destruct (shr (shr_record_of_loc (Z.pos m') loc_Exact) e' n) as [mrs1 e1].
  cbn [fst snd] in He1, Hq, Hr.
  set (r := round_nearest_even (shr_m mrs1) (loc_of_shr_record mrs1)) in *.
  assert (He1' : e1 = E) by lia. clear He1. subst e1.
  pose proof (pow2_pos n Hn0) as HP.
  pose proof (digits2_pos_bounds m') as (Hlo & Hhi).
  set (D' := Z.pos (digits2_pos m')) in *.
  assert (HD' : D' - n <= 53) by lia.
  assert (Hup : r <= 2 ^ 53).
  { apply (nearest_even_upper (Z.pos m') (2 ^ n)); try assumption.
    eapply Z.lt_le_trans; [exact Hhi |].
    rewrite <- pow2_split by lia. apply Z.pow_le_mono_r; lia. }
  assert (Hnormal : -1074 < E -> 2 ^ 52 <= r).
  { intros HEn.
    apply (nearest_even_lower (Z.pos m') (2 ^ n)); try assumption.
    eapply Z.le_trans; [| exact Hlo].
    rewrite <- pow2_split by lia. apply Z.pow_le_mono_r; lia. }
  assert (Hsub : E = -1074 -> r = Z.pos m').
  { intros HEs. assert (Hz : n = 0) by lia.
    rewrite Hz in Hr. apply nearest_even_exact. exact Hr. }
  assert (Hrpos : 0 < r).
  { destruct (Z.eq_dec E (-1074)) as [HEs | HEn].
    - rewrite (Hsub HEs). lia.
    - assert (2 ^ 52 <= r) by (apply Hnormal; lia).
      change (2 ^ 52) with 4503599627370496 in *. lia. }
  exists r. split.
  { replace (units (Z.pos M) e) with (Z.pos m' * 2 ^ (e' + 1074)).
    - replace (2 ^ (E + 1074)) with (2 ^ n * 2 ^ (e' + 1074)).
      + apply nearest_even_scale; [apply pow2_pos; lia | exact Hr].
      + rewrite <- pow2_split by lia. f_equal. lia.
    - unfold units. rewrite Hm'.
      replace (e + 1074) with ((e - Z.min e E) + (e' + 1074)) by lia.
      rewrite (pow2_split (e - Z.min e E) (e' + 1074)) by lia. ring. }
  destruct (Z.eq_dec r (2 ^ 53)) as [Hr53 | Hr53].
  - rewrite Hr53.
    replace (fexp prec emax (Zdigits2 (2 ^ 53) + E) - E) with 1
      by (rewrite fexp64; change (Zdigits2 (2 ^ 53)) with 54; lia).
    cbn [shr shr_record_of_loc iter_pos fst snd].
    change (shr_m (shr_1 {| shr_m := 2 ^ 53; shr_r := false; shr_s := false |}))
      with (Z.pos 4503599627370496).
    cbv iota beta.
    destruct (Z.leb_spec (E + 1) (emax - prec)) as [Hfit | Hov].
    + split; [reflexivity |]. split.
      * unfold bounded, canonical_mantissa. rewrite fexp64.
        change (Z.pos (digits2_pos 4503599627370496)) with 53.
        apply andb_true_intro. split; [apply Z.eqb_eq; lia | apply Z.leb_le; lia].
      * unfold units. replace (E + 1 + 1074) with (1 + (E + 1074)) by lia.
        rewrite (pow2_split 1 (E + 1074)) by lia.
        change (2 ^ 1) with 2. change (2 ^ 53) with 9007199254740992. lia.
    + split; [reflexivity |]. unfold overflow, units.
      change (emax - prec) with 971 in Hov.
      apply Z.mul_le_mono_nonneg_l; [lia |]. apply Z.pow_le_mono_r; lia.
  - assert (Hd : Zdigits2 r <= 53) by (apply Zdigits2_le; lia).
    rewrite shr_none by (rewrite fexp64; lia).
    cbn [shr_m shr_record_of_loc].
    destruct r as [| mf | mf] eqn:Er; try lia.
    destruct (Z.leb_spec E (emax - prec)) as [Hfit | Hov].
    + split; [reflexivity |]. split; [| reflexivity].
      unfold bounded, canonical_mantissa. rewrite fexp64.
      apply andb_true_intro. split; [apply Z.eqb_eq | apply Z.leb_le; lia].
      destruct (Z.eq_dec E (-1074)) as [HEs | HEn].
      * cbn [Zdigits2] in Hd. lia.
      * rewrite (digits2_pos_unique mf 53); [lia |].
        split; [apply Hnormal; lia | lia].
    + split; [reflexivity |]. unfold overflow, units.
      change (emax - prec) with 971 in Hov.
      transitivity (2 ^ 52 * 2 ^ (E + 1074)).
      * replace (2 ^ 53) with (2 ^ 52 * 2 ^ 1) by reflexivity.
        rewrite <- Z.mul_assoc, <- (pow2_split 1 (971 + 1074)) by lia.
        apply Z.mul_le_mono_nonneg_l; [lia |]. apply Z.pow_le_mono_r; lia.
      * apply Z.mul_le_mono_nonneg_r; [apply Z.lt_le_incl, pow2_pos; lia |].
        apply Hnormal. lia.
Qed.

(** Rounding a binary64 number gives it back. *)
Lemma binary_round_canonical (s : bool) (m : positive) (e : Z) :
  bounded prec emax m e = true ->
  binary_round prec emax s m e = S754_finite s m e.
Proof.
  unfold bounded, canonical_mantissa. intros H.
  apply andb_prop in H. destruct H as (Hc & He).
  apply Z.eqb_eq in Hc.
  unfold binary_round, shl_align. rewrite Hc, Z.sub_diag.
  unfold binary_round_aux, shr_fexp. cbn [Zdigits2].
  rewrite Hc, Z.sub_diag. cbn [shr shr_record_of_loc shr_m loc_of_shr_record
    round_nearest_even Zdigits2].
  rewrite Hc, Z.sub_diag. cbn [shr shr_record_of_loc shr_m].
  now rewrite He.
Qed.

(* ================================================================== *)
(** * Binary64 facts: rounding is monotone *)
(* ================================================================== *)

Lemma Zdigits2_bounds (V : Z) :
  0 < V -> 2 ^ (Zdigits2 V - 1) <= V < 2 ^ Zdigits2 V.
Proof.
  intros HV. destruct V as [| p | p]; try lia. apply digits2_pos_bounds.
Qed.

Lemma Zdigits2_mono (Va Vb : Z) :
  0 < Va <= Vb -> Zdigits2 Va <= Zdigits2 Vb.
Proof.
  intros H.
  pose proof (Zdigits2_bounds Va ltac:(lia)) as (Hlo & _).
  pose proof (Zdigits2_bounds Vb ltac:(lia)) as (_ & Hhi).
  destruct (Z.le_gt_cases (Zdigits2 Va) (Zdigits2 Vb)) as [Hle | Hgt];
    [assumption | exfalso].
  assert (2 ^ Zdigits2 Vb <= 2 ^ (Zdigits2 Va - 1)).
  { apply Z.pow_le_mono_r; [lia |]. lia. }
  lia.
Qed.

(** On one grid, the nearest-even choice is monotone. *)
Lemma nearest_even_mono_grid (Va Vb P ra rb : Z) :
  0 < P -> Va <= Vb ->
  nearest_even Va P ra -> nearest_even Vb P rb -> ra <= rb.
Proof.
  intros HP Hle (Ha & Ta) (Hb & Tb).
  destruct (Z.le_gt_cases ra rb) as [H | H]; [assumption | exfalso].
  assert (Hstep : 0 <= (ra - rb - 1) * P) by (apply Z.mul_nonneg_nonneg; lia).
  assert (Hra : 2 * Z.abs (ra * P - Va) = P) by lia.
  assert (Hrb : 2 * Z.abs (rb * P - Vb) = P) by lia.
  assert (Heq : (ra - rb - 1) * P = 0) by lia.
  apply Z.mul_eq_0 in Heq. destruct Heq as [Heq | Heq]; [| lia].
  specialize (Ta Hra). specialize (Tb Hrb).
  apply Z.even_spec in Ta, Tb. destruct Ta as (x & Hx), Tb as (y & Hy). lia.
Qed.

(** Across grids as well: the rounded value is monotone in the value. *)
Lemma nearest_even_mono (Va Vb ra rb : Z) :
  0 < Va <= Vb ->
  nearest_even Va (2 ^ grid (Zdigits2 Va)) ra ->
  nearest_even Vb (2 ^ grid (Zdigits2 Vb)) rb ->
  ra * 2 ^ grid (Zdigits2 Va) <= rb * 2 ^ grid (Zdigits2 Vb).
Proof.
  intros HV Ha Hb.
  pose proof (Zdigits2_mono Va Vb HV) as Hd.
  pose proof (Zdigits2_bounds Va ltac:(lia)) as (_ & Hhi).
  pose proof (Zdigits2_bounds Vb ltac:(lia)) as (Hlo & _).
  set (da := Zdigits2 Va) in *. set (db := Zdigits2 Vb) in *.
  assert (Hka : 0 <= grid da) by (unfold grid; lia).
  assert (Hkb : grid da <= grid db) by (unfold grid; lia).
  pose proof (pow2_pos (grid da) Hka) as HPa.
  pose proof (pow2_pos (grid db) ltac:(lia)) as HPb.
  destruct (Z.eq_dec (grid da) (grid db)) as [Heq | Hne].
  - rewrite <- Heq in *.
    apply Z.mul_le_mono_nonneg_r; [lia |].
    apply (nearest_even_mono_grid Va Vb (2 ^ grid da)); (assumption || lia).
  - assert (Hra : ra <= 2 ^ 53).
    { apply (nearest_even_upper Va (2 ^ grid da)); try assumption.
      eapply Z.lt_le_trans; [exact Hhi |].
      rewrite <- pow2_split by lia. apply Z.pow_le_mono_r; unfold grid; lia. }
    assert (Hrb : 2 ^ 52 <= rb).
    { apply (nearest_even_lower Vb (2 ^ grid db)); try assumption.
      eapply Z.le_trans; [| exact Hlo].
      rewrite <- pow2_split by lia.
      apply Z.pow_le_mono_r; unfold grid in *; lia. }
    assert (Hsplit : 2 ^ grid db = 2 ^ (grid db - grid da) * 2 ^ grid da).
    { rewrite <- pow2_split by lia. f_equal. lia. }
    assert (Htwo : 2 ^ 1 <= 2 ^ (grid db - grid da))
      by (apply Z.pow_le_mono_r; lia).
    change (2 ^ 1) with 2 in Htwo.
    change (2 ^ 53) with 9007199254740992 in Hra.
    change (2 ^ 52) with 4503599627370496 in Hrb.
    rewrite Hsplit. nia.
Qed.

(* ================================================================== *)
(** * Binary64 facts: the order of numbers is the order of their values *)
(* ================================================================== *)

Lemma units_lt (m1 : positive) (e1 : Z) (m2 : positive) (e2 : Z) :
  bounded prec emax m1 e1 = true -> bounded prec emax m2 e2 = true ->
  e1 < e2 -> units (Z.pos m1) e1 < units (Z.pos m2) e2.
Proof.
  intros H1 H2 He. pose proof (canonical_lt m1 e1 m2 e2 H1 H2 He) as Hlt.
  destruct (bounded_digits m1 e1 H1) as (He1 & _).
  unfold units.
  replace (e2 + 1074) with ((e2 - e1) + (e1 + 1074)) by lia.
  rewrite (pow2_split (e2 - e1) (e1 + 1074)) by lia.
  pose proof (pow2_pos (e1 + 1074) ltac:(lia)). nia.
Qed.

Lemma units_compare (m1 m2 : positive) (e : Z) :
  -1074 <= e ->
  (units (Z.pos m1) e ?= units (Z.pos m2) e) = Pos.compare_cont Eq m1 m2.
Proof.
  intros He. unfold units.
  pose proof (pow2_pos (e + 1074) ltac:(lia)) as HP.
  rewrite <- Zmult_compare_compat_r by lia. reflexivity.
Qed.

Lemma units_pos (m : positive) (e : Z) : -1074 <= e -> 0 < units (Z.pos m) e.
Proof.
  intros He. unfold units. pose proof (pow2_pos (e + 1074) ltac:(lia)). nia.
Qed.

Lemma units_opp (m e : Z) : units (- m) e = - units m e.
Proof. unfold units. ring. Qed.

Lemma SFcompare_positive (m1 : positive) (e1 : Z) (m2 : positive) (e2 : Z) :
  bounded prec emax m1 e1 = true -> bounded prec emax m2 e2 = true ->
  match (e1 ?= e2) with
  | Lt => Lt
  | Gt => Gt
  | Eq => Pos.compare_cont Eq m1 m2
  end = (units (Z.pos m1) e1 ?= units (Z.pos m2) e2).
Proof.
  intros H1 H2.
  destruct (bounded_digits m1 e1 H1) as (He1 & _).
  destruct (Z.compare_spec e1 e2) as [He | He | He].
  - subst. now rewrite units_compare by lia.
  - symmetry. apply Z.compare_lt_iff. now apply units_lt.
  - symmetry. apply Z.compare_gt_iff. now apply units_lt.
Qed.

(** On finite binary64 numbers, [SFcompare] compares the values. *)
Lemma SFcompare_Zval (x y : spec_float) :
  valid_binary x = true -> valid_binary y = true ->
  finite_or_zero x = true -> finite_or_zero y = true ->
  SFcompare x y = Some (Zval x ?= Zval y).
Proof.
  intros Vx Vy Fx Fy.
  destruct x as [sx | sx | | sx mx ex]; try discriminate Fx;
    destruct y as [sy | sy | | sy my ey]; try discriminate Fy;
    cbn [valid_binary] in Vx, Vy; cbn [SFcompare Zval cond_Zopp].
  - reflexivity.
  - destruct (bounded_digits my ey Vy) as (He & _).
    pose proof (units_pos my ey ltac:(lia)). f_equal. symmetry.
    destruct sy; cbn [cond_Zopp]; rewrite ?units_opp;
      [apply Z.compare_gt_iff | apply Z.compare_lt_iff]; lia.
  - destruct (bounded_digits mx ex Vx) as (He & _).
    pose proof (units_pos mx ex ltac:(lia)). f_equal. symmetry.
    destruct sx; cbn [cond_Zopp]; rewrite ?units_opp;
      [apply Z.compare_lt_iff | apply Z.compare_gt_iff]; lia.
  - destruct (bounded_digits mx ex Vx) as (Hex & _).
    destruct (bounded_digits my ey Vy) as (Hey & _).
    pose proof (units_pos mx ex ltac:(lia)).
    pose proof (units_pos my ey ltac:(lia)).
    f_equal. destruct sx, sy; cbn [cond_Zopp]; rewrite ?units_opp.
    + rewrite Z.compare_opp, <- (SFcompare_positive my ey mx ex Vy Vx).
      rewrite (Z.compare_antisym ey ex).
      destruct (ey ?= ex); cbn [CompOpp]; try reflexivity.
      change (Pos.compare_cont Eq my mx) with (Pos.compare my mx).
      change (Pos.compare_cont Eq mx my) with (Pos.compare mx my).
      now rewrite (Pos.compare_antisym my mx), CompOpp_involutive.
    + symmetry. apply Z.compare_lt_iff. lia.
    + symmetry. apply Z.compare_gt_iff. lia.
    + apply SFcompare_positive; assumption.
Qed.

Lemma SFleb_Zval (x y : spec_float) :
  valid_binary x = true -> valid_binary y = true ->
  finite_or_zero x = true -> finite_or_zero y = true ->
  SFleb x y = (Zval x <=? Zval y).
Proof.
  intros Vx Vy Fx Fy. unfold SFleb, Z.leb.
  rewrite (SFcompare_Zval x y Vx Vy Fx Fy).
  now destruct (Zval x ?= Zval y).
Qed.

Lemma SFltb_Zval (x y : spec_float) :
  valid_binary x = true -> valid_binary y = true ->
  finite_or_zero x = true -> finite_or_zero y = true ->
  SFltb x y = (Zval x <? Zval y).
Proof.
  intros Vx Vy Fx Fy. unfold SFltb, Z.ltb.
  rewrite (SFcompare_Zval x y Vx Vy Fx Fy).
  now destruct (Zval x ?= Zval y).
Qed.

Lemma SFeqb_Zval (x y : spec_float) :
  valid_binary x = true -> valid_binary y = true ->
  finite_or_zero x = true -> finite_or_zero y = true ->
  SFeqb x y = (Zval x =? Zval y).
Proof.
  intros Vx Vy Fx Fy. unfold SFeqb.
  rewrite (SFcompare_Zval x y Vx Vy Fx Fy).
  destruct (Z.compare_spec (Zval x) (Zval y)), (Z.eqb_spec (Zval x) (Zval y));
    (reflexivity || lia).
Qed.

Lemma bounded_below_overflow (m : positive) (e : Z) :
  bounded prec emax m e = true -> units (Z.pos m) e < overflow.
Proof.
  intros H. destruct (bounded_digits m e H) as (He & Hd & _).
  pose proof (digits2_pos_bounds m) as (_ & Hhi).
  assert (Hm : Z.pos m < 2 ^ 53).
  { eapply Z.lt_le_trans; [exact Hhi |]. apply Z.pow_le_mono_r; lia. }
  unfold overflow, units.
  assert (Hp : 2 ^ (e + 1074) <= 2 ^ (971 + 1074))
    by (apply Z.pow_le_mono_r; lia).
  pose proof (pow2_pos (e + 1074) ltac:(lia)).
  change (2 ^ 53) with 9007199254740992 in *. nia.
Qed.

(** Rounding is monotone on positive values. *)
Lemma binary_round_mono (Ma : positive) (ea : Z) (Mb : positive) (eb : Z) :
  -1074 <= ea -> -1074 <= eb ->
  units (Z.pos Ma) ea <= units (Z.pos Mb) eb ->
  SFleb (binary_round prec emax false Ma ea) (binary_round prec emax false Mb eb)
  = true.
Proof.
  intros Hea Heb Hle.
  destruct (binary_round_value false Ma ea Hea) as (ra & Na & Ra).
  destruct (binary_round_value false Mb eb Heb) as (rb & Nb & Rb).
  pose proof (units_pos Ma ea Hea) as Hpos.
  pose proof (nearest_even_mono _ _ ra rb (conj Hpos Hle) Na Nb) as Hmono.
  destruct (binary_round prec emax false Ma ea) as [| sa | | sa ma efa];
    try contradiction;
    destruct (binary_round prec emax false Mb eb) as [| sb | | sb mb efb];
    try contradiction.
  - destruct Ra as (-> & _), Rb as (-> & _). reflexivity.
  - destruct Ra as (-> & Ra), Rb as (-> & Vb & Rb).
    pose proof (bounded_below_overflow mb efb Vb). lia.
  - destruct Ra as (-> & _), Rb as (-> & _). reflexivity.
  - destruct Ra as (-> & Va & Ra), Rb as (-> & Vb & Rb).
    rewrite SFleb_Zval by (assumption || reflexivity).
    apply Z.leb_le. cbn [Zval cond_Zopp]. lia.
Qed.

(** The rounding of a positive value is positive: nothing underflows. *)
Lemma binary_round_positive (M : positive) (e : Z) :
  -1074 <= e ->
  SFltb (S754_zero false) (binary_round prec emax false M e) = true.
Proof.
  intros He. destruct (binary_round_value false M e He) as (r & _ & R).
  destruct (binary_round prec emax false M e) as [| s | | s m ef];
    try contradiction; destruct R as (-> & _); reflexivity.
Qed.

(* ================================================================== *)
(** * Binary64 facts: subtraction rounds the exact difference *)
(* ================================================================== *)

Lemma units_cond_Zopp (s : bool) (m e : Z) :
  units (cond_Zopp s m) e = cond_Zopp s (units m e).
Proof. destruct s; cbn [cond_Zopp]; [apply units_opp | reflexivity]. Qed.

Lemma units_shl_align (mx : positive) (ex ez : Z) :
  -1074 <= ez <= ex ->
  units (Z.pos (fst (shl_align mx ex ez))) ez = units (Z.pos mx) ex.
Proof.
  intros He. destruct (shl_align_spec mx ex ez) as (_ & Hm & _).
  rewrite Hm. replace (Z.min ex ez) with ez by lia. unfold units.
  replace (ex + 1074) with ((ex - ez) + (ez + 1074)) by lia.
  rewrite (pow2_split (ex - ez) (ez + 1074)) by lia. ring.
Qed.

Lemma units_sub (a b e : Z) : units (a - b) e = units a e - units b e.
Proof. unfold units. ring. Qed.

(** The difference of two finite numbers is the rounding of the exact
    difference of their values. *)
Lemma SFsub_exact (x y : spec_float) :
  valid_binary x = true -> valid_binary y = true ->
  finite_or_zero x = true -> finite_or_zero y = true ->
  exists M e,
    -1074 <= e /\ units M e = Zval x - Zval y
    /\ match M with
       | 0 => exists s, SF64sub x y = S754_zero s
       | Z.pos p => SF64sub x y = binary_round prec emax false p e
       | Z.neg p => SF64sub x y = binary_round prec emax true p e
       end.
Proof.
  intros Vx Vy Fx Fy.
  destruct x as [sx | sx | | sx mx ex]; try discriminate Fx;
    destruct y as [sy | sy | | sy my ey]; try discriminate Fy;
    cbn [valid_binary] in Vx, Vy; cbn [Zval].
  - exists 0, (-1074). split; [lia |]. split; [reflexivity |].
    destruct sx, sy; eexists; reflexivity.
  - destruct (bounded_digits my ey Vy) as (He & _).
    exists (cond_Zopp (negb sy) (Z.pos my)), ey. split; [lia |]. split.
    + rewrite !units_cond_Zopp. destruct sy; cbn [negb cond_Zopp]; lia.
    + destruct sy; cbn [negb cond_Zopp Z.opp];
        now rewrite binary_round_canonical by assumption.
  - destruct (bounded_digits mx ex Vx) as (He & _).
    exists (cond_Zopp sx (Z.pos mx)), ex. split; [lia |]. split.
    + lia.
    + destruct sx; cbn [cond_Zopp Z.opp];
        now rewrite binary_round_canonical by assumption.
  - destruct (bounded_digits mx ex Vx) as (Hex & _).
    destruct (bounded_digits my ey Vy) as (Hey & _).
    exists (cond_Zopp sx (Z.pos (fst (shl_align mx ex (Z.min ex ey))))
            - cond_Zopp sy (Z.pos (fst (shl_align my ey (Z.min ex ey))))),
      (Z.min ex ey).
    split; [lia |]. split.
    + rewrite units_sub, !units_cond_Zopp, !units_shl_align by lia.
      reflexivity.
    + unfold SF64sub, SFsub.
      destruct (cond_Zopp sx (Z.pos (fst (shl_align mx ex (Z.min ex ey))))
                - cond_Zopp sy (Z.pos (fst (shl_align my ey (Z.min ex ey)))));
        cbn [binary_normalize]; [now exists false | reflexivity | reflexivity].
Qed.

(** Subtracting the same number from two ordered numbers keeps the order,
    when the results are not negative. *)
Lemma SFsub_mono (x y z : spec_float) :
  valid_binary x = true -> valid_binary y = true -> valid_binary z = true ->
  finite_or_zero x = true -> finite_or_zero y = true ->
  finite_or_zero z = true ->
  Zval y <= Zval x <= Zval z ->
  SFleb (S754_zero false) (SF64sub x y) = true
  /\ SFleb (SF64sub x y) (SF64sub z y) = true.
Proof.
  intros Vx Vy Vz Fx Fy Fz (Hyx & Hxz).
  destruct (SFsub_exact x y Vx Vy Fx Fy) as (Ma & ea & Hea & Ua & Sa).
  destruct (SFsub_exact z y Vz Vy Fz Fy) as (Mb & eb & Heb & Ub & Sb).
  pose proof (pow2_pos (ea + 1074) ltac:(lia)) as HPa.
  pose proof (pow2_pos (eb + 1074) ltac:(lia)) as HPb.
  unfold units in Ua, Ub.
  assert (HMa : 0 <= Ma) by nia.
  assert (HMb : 0 <= Mb) by nia.
  destruct Ma as [| pa | pa]; [| | lia].
  - destruct Sa as (sa & ->).
    split; [destruct sa; reflexivity |].
    destruct Mb as [| pb | pb]; [| | lia].
    + destruct Sb as (sb & ->). destruct sa, sb; reflexivity.
    + rewrite Sb. pose proof (binary_round_positive pb eb Heb) as Hp.
      unfold SFleb. unfold SFltb in Hp.
      destruct (binary_round prec emax false pb eb) as [sb | sb | | sb mb efb];
        destruct sa; cbn in Hp |- *; try discriminate Hp; try reflexivity;
        destruct sb; try discriminate Hp; reflexivity.
  - rewrite Sa. split.
    + pose proof (binary_round_positive pa ea Hea) as Hp.
      unfold SFleb. unfold SFltb in Hp.
      now destruct (SFcompare (S754_zero false) (binary_round prec emax false pa ea))
        as [[| |] |].
    + destruct Mb as [| pb | pb]; [nia | | lia].
      rewrite Sb. apply binary_round_mono; try assumption.
      unfold units. lia.
Qed.

(** The difference of a number and a smaller one is positive. *)
Lemma SFsub_positive (z y : spec_float) :
  valid_binary z = true -> valid_binary y = true ->
  finite_or_zero z = true -> finite_or_zero y = true ->
  Zval y < Zval z ->
  SFltb (S754_zero false) (SF64sub z y) = true.
Proof.
  intros Vz Vy Fz Fy Hlt.
  destruct (SFsub_exact z y Vz Vy Fz Fy) as (M & e & He & U & S).
  pose proof (pow2_pos (e + 1074) ltac:(lia)) as HP.
  unfold units in U.
  destruct M as [| p | p]; [lia | | nia].
  rewrite S. now apply binary_round_positive.
Qed.

(* ================================================================== *)
(** * The boundaries of %K *)
(* ================================================================== *)

(** The difference of two distinct finite numbers is not a zero: nothing
    underflows. *)
Lemma SFsub_nonzero (z y : spec_float) :
  valid_binary z = true -> valid_binary y = true ->
  finite_or_zero z = true -> finite_or_zero y = true ->
  Zval z <> Zval y ->
  match SF64sub z y with
  | S754_finite _ _ _ => True
  | S754_infinity _ => True
  | _ => False
  end.
Proof.
  intros Vz Vy Fz Fy Hne.
  destruct (SFsub_exact z y Vz Vy Fz Fy) as (M & e & He & U & S).
  unfold units in U.
  destruct M as [| p | p]; [lia | |]; rewrite S.
  - destruct (binary_round_value false p e He) as (r & _ & R).
    destruct (binary_round prec emax false p e); tauto.
  - destruct (binary_round_value true p e He) as (r & _ & R).
    destruct (binary_round prec emax true p e); tauto.
Qed.

(** A finite number divided by itself is one. *)
Lemma SFdiv_same (s : bool) (m : positive) (e : Z) :
  SF64div (S754_finite s m e) (S754_finite s m e) = SFone64.
Proof.
  unfold SF64div, SFdiv, SFdiv_core_binary. cbn [Zdigits2].
  rewrite xorb_nilpotent.
  replace (Z.pos (digits2_pos m) + e - (Z.pos (digits2_pos m) + e)) with 0 by lia.
  rewrite Z.sub_diag.
  change (Z.min (fexp prec emax 0) 0) with (-53).
  change (0 - -53) with 53.
  rewrite Z.shiftl_mul_pow2 by lia.
  rewrite (Z.mul_comm (Z.pos m)), div_eucl_exact by lia.
  replace (new_location (Z.pos m) 0) with loc_Exact.
  - reflexivity.
  - unfold new_location, new_location_even, new_location_odd.
    destruct (Z.even (Z.pos m)); reflexivity.
Qed.

(** Two finite numbers that compare equal are the same number, or two
    zeros. *)
Lemma SFeqb_same (x y : spec_float) :
  finite_or_zero x = true -> finite_or_zero y = true ->
  SFeqb x y = true ->
  x = y \/ (zero_or_nan x = true /\ zero_or_nan y = true).
Proof.
  intros Fx Fy. unfold SFeqb.
  destruct x as [sx | sx | | sx mx ex]; try discriminate Fx;
    destruct y as [sy | sy | | sy my ey]; try discriminate Fy;
    cbn [SFcompare zero_or_nan].
  - auto.
  - destruct sy; discriminate.
  - destruct sx; discriminate.
  - destruct sx, sy; try discriminate;
      destruct (Z.compare_spec ex ey) as [-> | |]; try discriminate;
      change (Pos.compare_cont Eq mx my) with (Pos.compare mx my);
      destruct (Pos.compare_spec mx my) as [-> | |]; try discriminate; auto.
Qed.

(** Subtracting the same number from two numbers that compare equal, and
    differ from it, gives the same difference. *)
Lemma SFsub_same (x z y : spec_float) :
  finite_or_zero x = true -> finite_or_zero z = true ->
  finite_or_zero y = true ->
  SFeqb x z = true -> Zval z <> Zval y ->
  SF64sub x y = SF64sub z y.
Proof.
  intros Fx Fz Fy Heq Hne.
  destruct (SFeqb_same x z Fx Fz Heq) as [-> | (Zx & Zz)]; [reflexivity |].
  destruct x as [sx | | |]; try discriminate Zx; try discriminate Fx.
  destruct z as [sz | | |]; try discriminate Zz; try discriminate Fz.
  destruct y as [sy | sy | | sy my ey]; try discriminate Fy;
    [now cbn in Hne | reflexivity].
Qed.

Lemma SF_percent_zero (CL HL : spec_float) :
  finite_or_zero CL = true -> zero_or_nan CL = true ->
  match HL with
  | S754_finite _ _ _ => True
  | S754_infinity _ => True
  | _ => False
  end ->
  SFeqb (SF64mul (SF64div CL HL) SFhundred) (S754_zero false) = true.
Proof.
  intros Fc Hz Hh.
  destruct CL as [sc | sc | | sc m1 e1]; try discriminate Hz;
    try discriminate Fc.
  destruct HL as [sh | sh | | sh m2 e2]; try contradiction;
    destruct sh, sc; reflexivity.
Qed.

Lemma SF_percent_hundred (HL : spec_float) :
  finite_or_zero HL = true ->
  match HL with
  | S754_finite _ _ _ => True
  | S754_infinity _ => True
  | _ => False
  end ->
  SF64mul (SF64div HL HL) SFhundred = SFhundred.
Proof.
  intros Fh Hh.
  destruct HL as [sh | sh | | sh m2 e2]; try contradiction;
    try discriminate Fh.
  rewrite SFdiv_same. vm_compute. reflexivity.
Qed.

(** The facts about the two differences that the range of %K rests on,
    for a close between the lowest low and the highest high. *)
Lemma differences_ordered (c LL HH : number) :
  is_finite c = true -> is_finite LL = true -> is_finite HH = true ->
  (LL <=? c)%float = true -> (c <=? HH)%float = true ->
  (HH =? LL)%float = false ->
  (0 <=? c - LL)%float = true
  /\ (c - LL <=? HH - LL)%float = true
  /\ (0 <? HH - LL)%float = true.
Proof.
  rewrite !is_finite_SF, !leb_spec, ltb_spec, eqb_spec, !sub_spec.
  change (Prim2SF 0) with (S754_zero false).
  intros Fc FL FH HLc HcH Hne.
  pose proof (Prim2SF_valid c) as Vc.
  pose proof (Prim2SF_valid LL) as VL.
  pose proof (Prim2SF_valid HH) as VH.
  rewrite SFleb_Zval in HLc, HcH by assumption.
  rewrite SFeqb_Zval in Hne by assumption.
  apply Z.leb_le in HLc, HcH. apply Z.eqb_neq in Hne.
  destruct (SFsub_mono (Prim2SF c) (Prim2SF LL) (Prim2SF HH))
    as (H0 & Hle); try assumption; [lia |].
  split; [exact H0 |]. split; [exact Hle |].
  apply SFsub_positive; try assumption. lia.
Qed.


Lemma eqb_Zval (x y : number) :
  is_finite x = true -> is_finite y = true ->
  (x =? y)%float = (Zval (Prim2SF x) =? Zval (Prim2SF y)).
Proof.
  rewrite !is_finite_SF, eqb_spec. intros Fx Fy.
  apply SFeqb_Zval; (assumption || apply Prim2SF_valid).
Qed.

(** %K from a close, a lowest low and a highest high that are finite and
    with [HH != LL]: it is 0 when the close equals [LL]; and when the
    difference [HH - LL] is finite, it is 100 when the close equals [HH],
    and it lies between 0 and 100 when the close lies between [LL] and
    [HH]. *)
Lemma percentK_bounded (c LL HH : number) :
  is_finite c = true -> is_finite LL = true -> is_finite HH = true ->
  (HH =? LL)%float = false ->
  ((c =? LL)%float = true -> (percentK c LL HH =? 0)%float = true)
  /\ (is_finite (HH - LL) = true ->
      ((c =? HH)%float = true -> (percentK c LL HH =? 100)%float = true)
      /\ ((LL <=? c)%float = true -> (c <=? HH)%float = true ->
          (0 <=? percentK c LL HH)%float = true
          /\ (percentK c LL HH <=? 100)%float = true)).
Proof.
  intros Fc FL FH Hne.
  pose proof (Prim2SF_valid c) as Vc.
  pose proof (Prim2SF_valid LL) as VL.
  pose proof (Prim2SF_valid HH) as VH.
  pose proof Fc as Fc'. pose proof FL as FL'. pose proof FH as FH'.
  rewrite is_finite_SF in Fc', FL', FH'.
  assert (HneZ : Zval (Prim2SF HH) <> Zval (Prim2SF LL)).
  { rewrite eqb_Zval in Hne by assumption. now apply Z.eqb_neq. }
  pose proof (SFsub_nonzero _ _ VH VL FH' FL' HneZ) as HLnz.
  split; [| intros Hfin; split].
  - intros Hlow. unfold percentK.
    rewrite eqb_spec, mul_spec, div_spec, !sub_spec, Prim2SF_hundred.
    change (Prim2SF 0) with (S754_zero false).
    rewrite eqb_spec in Hlow.
    apply SF_percent_zero; [| now apply SFsub_equal | exact HLnz].
    rewrite eqb_Zval in Hne by assumption.
    destruct (SFsub_exact _ _ Vc VL Fc' FL') as (M & e & He & U & S).
    rewrite SFeqb_Zval in Hlow by assumption. apply Z.eqb_eq in Hlow.
    unfold units in U. pose proof (pow2_pos (e + 1074) ltac:(lia)).
    destruct M as [| p | p]; [| lia | lia].
    destruct S as (s & ->). reflexivity.
  - intros Hhigh. unfold percentK.
    rewrite eqb_spec, mul_spec, div_spec, !sub_spec, Prim2SF_hundred.
    rewrite is_finite_SF, sub_spec in Hfin. rewrite eqb_spec in Hhigh.
    rewrite (SFsub_same (Prim2SF c) (Prim2SF HH) (Prim2SF LL)) by assumption.
    rewrite SF_percent_hundred by assumption. vm_compute. reflexivity.
  - intros HLc HcH.
    destruct (differences_ordered c LL HH Fc FL FH HLc HcH Hne)
      as (H0 & Hle & Hpos).
    exact (percentK_range c LL HH Hfin H0 Hle Hpos).
Qed.

(* ================================================================== *)
(** * The range of the raw line *)
(* ================================================================== *)

Lemma finite_bar_finite_fields (r : row) :
  is_finite_bar r = true ->
  is_finite (field r high) = true /\ is_finite (field r low) = true
  /\ is_finite (field r close) = true.
Proof.
  intros H.
  destruct (is_finite_bar_cells r H) as (o & h & l & c & -> & _ & Hh & Hl & Hc).
  auto.
Qed.

Lemma ordered_bar_close (r : row) :
  is_ordered_bar r = true ->
  is_finite_bar r = true
  /\ (field r low <=? field r close)%float = true
  /\ (field r close <=? field r high)%float = true.
Proof.
  destruct r as [cells | v]; cbn; [| discriminate].
  destruct cells as [| [o | |] [| [h | |] [| [l | |] [| [c | |] [|]]]]];
    try discriminate.
  intros H. repeat (apply andb_prop in H; destruct H as (H & ?)).
  cbn. repeat split; try assumption.
  repeat (apply andb_true_intro; split); assumption.
Qed.

(** The close of a bar that lies between its low and its high lies
    between the lowest low and the highest high of a window that holds
    the bar. *)
Lemma close_within_window (w : list row) (r : row) :
  Forall (fun b => is_finite_bar b = true) w -> In r w ->
  is_ordered_bar r = true ->
  (fold_left Math_min (map (fun b => field b low) w) infinity
   <=? field r close)%float = true
  /\ (field r close
      <=? fold_left Math_max (map (fun b => field b high) w) neg_infinity)%float
     = true.
Proof.
  intros Hfin Hr Hord.
  destruct (ordered_bar_close r Hord) as (Hrfin & Hlc & Hch).
  destruct (finite_bar_finite_fields r Hrfin) as (Fh & Fl & Fc).
  assert (Hnan : forall k, (k = low \/ k = high) ->
            Forall (fun x => is_nan x = false) (map (fun b => field b k) w)).
  { intros k Hk. apply Forall_forall. intros x Hx.
    apply in_map_iff in Hx as (b & <- & Hb).
    rewrite Forall_forall in Hfin.
    destruct (finite_bar_fields b (Hfin b Hb)) as (Hl & Hh).
    destruct Hk as [-> | ->]; assumption. }
  destruct (fold_min_spec (map (fun b => field b low) w) infinity eq_refl
              (Hnan low (or_introl eq_refl))) as (Nmin & _ & _ & Hmin).
  destruct (fold_max_spec (map (fun b => field b high) w) neg_infinity eq_refl
              (Hnan high (or_intror eq_refl))) as (Nmax & _ & _ & Hmax).
  split.
  - eapply leb_trans; [exact Nmin | | | | exact Hlc];
      try (apply is_finite_not_nan; assumption).
    apply Hmin. apply in_map_iff. now exists r.
  - eapply leb_trans; [| | exact Nmax | exact Hch |];
      try (apply is_finite_not_nan; assumption).
    apply Hmax. apply in_map_iff. now exists r.
Qed.

(** What [getArrayExtremes] returns on a window of finite bars, and where
    the bar at the end of the window sits in it. *)
Lemma window_extremes_finite (yVal : list row) (pK i : Z) (LL HH : number) :
  Forall (fun r => is_finite_bar r = true) yVal ->
  (1 <= pK)%Z -> (pK - 1 <= i < len yVal)%Z ->
  getArrayExtremes (window yVal pK i) low high = Ok (LL, HH) ->
  LL = fold_left Math_min (map (fun b => field b low) (window yVal pK i)) infinity
  /\ HH = fold_left Math_max (map (fun b => field b high) (window yVal pK i))
            neg_infinity
  /\ In (get_row yVal i) (window yVal pK i)
  /\ Forall (fun b => is_finite_bar b = true) (window yVal pK i)
  /\ is_finite LL = true /\ is_finite HH = true
  /\ is_finite (field (get_row yVal i) close) = true.
Proof.
  intros Hfin HpK Hi Hext.
  set (w := window yVal pK i) in *.
  assert (Hin : forall r, In r w -> In r yVal)
    by (intros r; apply In_slice).
  rewrite Forall_forall in Hfin.
  assert (Hwfin : Forall (fun b => is_finite_bar b = true) w)
    by (apply Forall_forall; intros b Hb; apply Hfin, Hin, Hb).
  rewrite getArrayExtremes_readable in Hext.
  2:{ apply Forall_forall. intros r Hr.
      apply is_bar_readable, finite_bar_is_bar, Hfin, Hin, Hr. }
  injection Hext as HLL HHH.
  destruct (window_shape yVal pK i) as (Hlen & Hcontent); [lia | lia |].
  fold w in Hlen, Hcontent.
  destruct (at_index_in_range yVal i ltac:(lia)) as (r & Hr & Hmem).
  assert (Hrow : get_row yVal i = r) by (unfold get_row; now rewrite Hr).
  assert (Hrw : In r w).
  { apply (at_index_In w (pK - 1)).
    rewrite Hcontent by lia. rewrite <- Hr. f_equal. lia. }
  assert (Hnonempty : forall f : row -> number, map f w <> []).
  { intros f E. destruct w; [contradiction | discriminate E]. }
  assert (Hnan : forall k, (k = low \/ k = high) ->
            Forall (fun x => is_nan x = false) (map (fun b => field b k) w)).
  { intros k Hk. apply Forall_forall. intros x Hx.
    apply in_map_iff in Hx as (b & <- & Hb).
    destruct (finite_bar_fields b (Hfin b (Hin b Hb))) as (Hl & Hh).
    destruct Hk as [-> | ->]; assumption. }
  rewrite Hrow. repeat split; auto.
  - destruct (lowest_of_fold (map (fun b => field b low) w))
      as (Hm & _); [apply Hnonempty | apply Hnan; now left |].
    rewrite HLL in Hm. apply in_map_iff in Hm as (b & <- & Hb).
    apply (finite_bar_finite_fields b), Hfin, Hin, Hb.
  - destruct (highest_of_fold (map (fun b => field b high) w))
      as (Hm & _); [apply Hnonempty | apply Hnan; now right |].
    rewrite HHH in Hm. apply in_map_iff in Hm as (b & <- & Hb).
    apply (finite_bar_finite_fields b), Hfin, Hin, Hb.
  - apply (finite_bar_finite_fields r), Hfin, Hmem.
Qed.


(** When [HH - LL] overflows, a close equal to [HH] gives NaN:
    [Infinity / Infinity]. *)
Lemma overflowing_range_gives_NaN :
  exists out,
    getValues widest_bar {| periodK := 1; periodD := 1 |} = Ok (Some out)
    /\ getArrayExtremes (window [bar 0 0x1p1023 (-0x1p1023) 0x1p1023]%float 1 0)
         low high = Ok ((-0x1p1023)%float, 0x1p1023%float)
    /\ K_out out 0 = Some nan.
Proof. eexists. split; [vm_compute; reflexivity |]. split; reflexivity. Qed.

(** C6, as stated, fails: with [HH != LL] the raw value can leave
    [[0, 100]].  The close of a bar is not required to lie between its low
    and its high, and [(5 - 1) / (2 - 1) * 100 = 400].  And on bars that
    do have [low <= close <= high] the difference [HH - LL] can overflow:
    with low [-2^1023] and high = close = [2^1023] the raw value is
    [Infinity / Infinity * 100], NaN, which is neither [>= 0] nor
    [<= 100]. *)
Lemma raw_K_outside_0_100 :
  ~ (forall (series : Series) (params : ParamsOptions) (yVal : list row)
            (out : IndicatorValues) (i : Z) (LL HH K : number),
        yData series = Some yVal ->
        Forall (fun r => is_finite_bar r = true) yVal ->
        (1 <= periodK params <= len yVal)%Z ->
        (periodK params - 1 <= i < len yVal)%Z ->
        getArrayExtremes (window yVal (periodK params) i) low high = Ok (LL, HH) ->
        (HH =? LL)%float = false ->
        getValues series params = Ok (Some out) ->
        K_out out (i - (periodK params - 1)) = Some K ->
        (0 <=? K)%float = true /\ (K <=? 100)%float = true)
  /\ ~ (forall (series : Series) (params : ParamsOptions) (yVal : list row)
              (out : IndicatorValues) (i : Z) (LL HH K : number),
          yData series = Some yVal ->
          Forall (fun r => is_ordered_bar r = true) yVal ->
          (1 <= periodK params <= len yVal)%Z ->
          (periodK params - 1 <= i < len yVal)%Z ->
          getArrayExtremes (window yVal (periodK params) i) low high = Ok (LL, HH) ->
          (HH =? LL)%float = false ->
          getValues series params = Ok (Some out) ->
          K_out out (i - (periodK params - 1)) = Some K ->
          (0 <=? K)%float = true /\ (K <=? 100)%float = true).
Proof.
  split; intros H.
  - specialize (H close_above_high {| periodK := 1; periodD := 1 |} _
                  {| values := [(VNum 1, 400, VNum 400)]%float;
                     ivXData := [VNum 1%float];
                     ivYData := [(400, VNum 400)]%float |}
                  0%Z 1%float 2%float 400%float eq_refl).
    cbn [periodK] in H.
    assert (E : (0 <=? 400)%float = true /\ (400 <=? 100)%float = true).
    { apply H.
      - repeat constructor.
      - cbn. lia.
      - cbn. lia.
      - vm_compute. reflexivity.
      - vm_compute. reflexivity.
      - vm_compute. reflexivity.
      - vm_compute. reflexivity. }
    destruct E as (_ & E). vm_compute in E. discriminate E.
  - specialize (H widest_bar {| periodK := 1; periodD := 1 |} _
                  {| values := [(VNum 1, nan, VNum nan)]%float;
                     ivXData := [VNum 1%float];
                     ivYData := [(nan, VNum nan)]%float |}
                  0%Z (-0x1p1023)%float 0x1p1023%float nan eq_refl).
    cbn [periodK] in H.
    assert (E : (0 <=? nan)%float = true /\ (nan <=? 100)%float = true).
    { apply H.
      - repeat constructor.
      - cbn. lia.
      - cbn. lia.
      - vm_compute. reflexivity.
      - vm_compute. reflexivity.
      - vm_compute. reflexivity.
      - vm_compute. reflexivity. }
    destruct E as (E & _). vm_compute in E. discriminate E.
Qed.

(** C6, amended: on a series of finite bars, take an index [i], with [LL]
    the lowest low and [HH] the highest high of its window, and
    [HH != LL].  A close equal to [LL] gives [K == 0].  When the
    difference [HH - LL] is finite (it does not overflow), a close equal
    to [HH] gives [K == 100], and [0 <= K <= 100] for every close that
    lies between [LL] and [HH], as the close of a bar with
    [low <= close <= high] does. *)
Theorem raw_K_between_0_and_100 (series : Series) (params : ParamsOptions)
    (yVal : list row) :
  yData series = Some yVal ->
  Forall (fun r => is_finite_bar r = true) yVal ->
  (1 <= periodK params <= len yVal)%Z ->
  exists out,
    getValues series params = Ok (Some out)
    /\ forall i LL HH,
         (periodK params - 1 <= i < len yVal)%Z ->
         getArrayExtremes (window yVal (periodK params) i) low high = Ok (LL, HH) ->
         (is_ordered_bar (get_row yVal i) = true ->
          (LL <=? field (get_row yVal i) close)%float = true
          /\ (field (get_row yVal i) close <=? HH)%float = true)
         /\ ((HH =? LL)%float = false ->
             exists K,
               K_out out (i - (periodK params - 1)) = Some K
               /\ ((field (get_row yVal i) close =? LL)%float = true ->
                   (K =? 0)%float = true)
               /\ (is_finite (HH - LL) = true ->
                   ((field (get_row yVal i) close =? HH)%float = true ->
                    (K =? 100)%float = true)
                   /\ ((LL <=? field (get_row yVal i) close)%float = true ->
                       (field (get_row yVal i) close <=? HH)%float = true ->
                       (0 <=? K)%float = true /\ (K <=? 100)%float = true))).
Proof.
  intros Hy Hfin HpK.
  assert (Hbars : Forall (fun r => is_bar r = true) yVal)
    by (revert Hfin; apply Forall_impl; exact finite_bar_is_bar).
  pose proof (bars_readable yVal Hbars) as Hread.
  destruct (getValues_runs series params yVal Hy HpK) as (st & Hrun & T);
    [apply bars_first_row_ok; [assumption | lia] | assumption |].
  eexists. split; [exact Hrun |].
  intros i LL HH Hi Hext.
  destruct (window_extremes_finite yVal (periodK params) i LL HH Hfin
              ltac:(lia) Hi Hext) as (HLL & HHH & Hrw & Hwfin & FL & FH & Fc).
  split.
  { intros Hord. rewrite HLL, HHH. now apply close_within_window. }
  intros Hne.
  unfold K_out. cbn [values].
  rewrite (trace_K _ _ _ _ _ _ _ T) by lia.
  replace (periodK params - 1 + (i - (periodK params - 1)))%Z with i by lia.
  eexists. split; [reflexivity |].
  unfold K_at. rewrite <- HLL, <- HHH.
  apply percentK_bounded; assumption.
Qed.

(** In the scenario of the specification, with [periodK = 3], the close
    of bar 2 lies between the extremes 4 and 8 of its window and the value
    for index 2 lies between 0 and 100. *)
Lemma raw_K_between_0_and_100_scenario :
  exists out K,
    getValues scenario {| periodK := 3; periodD := 3 |} = Ok (Some out)
    /\ K_out out 0 = Some K
    /\ (0 <=? K)%float = true /\ (K <=? 100)%float = true.
Proof.
  destruct (raw_K_between_0_and_100 scenario {| periodK := 3; periodD := 3 |}
              _ eq_refl) as (out & Hout & HK).
  - repeat constructor.
  - cbn. lia.
  - cbn [periodK] in HK.
    destruct (HK 2%Z 4%float 8%float) as (Hclose & HK2);
      [cbn; lia | vm_compute; reflexivity |].
    destruct Hclose as (HLc & HcH); [vm_compute; reflexivity |].
    destruct (HK2 eq_refl) as (K & HKout & _ & Hrange).
    exists out, K. split; [exact Hout |]. split; [exact HKout |].
    destruct Hrange as (_ & Hrange); [vm_compute; reflexivity |].
    exact (Hrange HLc HcH).
Defined.

(* ================================================================== *)
(** * Flat windows *)
(* ================================================================== *)





(* ================================================================== *)
(** * What a returning call tells about its arguments *)
(* ================================================================== *)

Lemma row_get_unreadable (r : row) (k : Z) :
  readable r = false -> row_get r k = TypeError.
Proof. destruct r as [cells | [x | |]]; cbn; congruence. Qed.

Lemma readable_dec (r : row) : {readable r = true} + {readable r = false}.
Proof. destruct (readable r); auto. Qed.

(** The reduction returns only when no row of the array is [null] or
    [undefined]. *)
Lemma getArrayExtremes_returns (arr : list row) (lo hi : Z)
    (p : number * number) :
  getArrayExtremes arr lo hi = Ok p -> Forall (fun r => readable r = true) arr.
Proof.
  unfold getArrayExtremes. generalize (infinity, neg_infinity).
  induction arr as [| r arr IH]; intros acc H; [constructor |].
  cbn [fold_left bind] in H.
  destruct (readable_dec r) as [Hr | Hr].
  - constructor; [exact Hr |].
    destruct (row_get_readable r lo Hr) as (l & El & _).
    destruct (row_get_readable r hi Hr) as (h & Eh & _).
    rewrite El, Eh in H. cbn [bind] in H. eapply IH. exact H.
  - rewrite (row_get_unreadable r lo Hr) in H. cbn [bind] in H.
    rewrite getArrayExtremes_thrown in H. discriminate H.
Qed.

Lemma readable_get_row (yVal : list row) (i : Z) :
  readable (get_row yVal i) = true -> (0 <= i < len yVal)%Z.
Proof.
  unfold get_row. intros H.
  destruct (Z.lt_ge_cases i 0) as [Hneg | Hpos].
  - rewrite at_index_out_of_range in H by lia. discriminate H.
  - destruct (Z.lt_ge_cases i (len yVal)) as [Hin | Hout]; [lia |].
    rewrite at_index_out_of_range in H by lia. discriminate H.
Qed.

(** One iteration returns only when the rows of its window and the row
    at its index can be read. *)
Lemma iteration_returns (pK pD : Z) (xVal : list value) (yVal : list row)
    (i : Z) (st st' : LoopState) :
  iteration pK pD xVal yVal i st = Ok st' ->
  Forall (fun r => readable r = true) (window yVal pK i)
  /\ (0 <= i < len yVal)%Z
  /\ SO st' = SO st ++ [(get xVal i, K_at yVal pK i, D st')]
  /\ lsXData st' = lsXData st ++ [get xVal i]
  /\ lsYData st' = lsYData st ++ [(K_at yVal pK i, D st')].
Proof.
  unfold iteration. intros H.
  destruct (getArrayExtremes (slice yVal (i - pK + 1) (i + 1)) low high)
    as [extremes |] eqn:E; [| discriminate H].
  pose proof (getArrayExtremes_returns _ _ _ _ E) as Hw.
  rewrite (getArrayExtremes_readable _ _ _ Hw) in E. injection E as <-.
  cbn [bind fst snd] in H.
  destruct (readable_dec (get_row yVal i)) as [Hr | Hr].
  - destruct (row_get_readable _ close Hr) as (c & Ec & Hc).
    rewrite Ec in H. cbn [bind] in H. rewrite set_last_smoothed_snoc in H.
    injection H as <-. cbn [SO lsXData lsYData D].
    unfold K_at, window. rewrite <- Hc.
    repeat split; try apply (readable_get_row yVal i Hr); exact Hw.
  - rewrite (row_get_unreadable _ close Hr) in H. discriminate H.
Qed.

Lemma iterate_returns (pK pD : Z) (xVal : list value) (yVal : list row)
    (n : nat) (i : Z) (st st' : LoopState) :
  iterate pK pD xVal yVal n i st = Ok st' ->
  forall k, (0 <= k < Z.of_nat n)%Z ->
    Forall (fun r => readable r = true) (window yVal pK (i + k))
    /\ (0 <= i + k < len yVal)%Z.
Proof.
  revert i st. induction n as [| n IH]; intros i st H k Hk; [lia |].
  rewrite iterate_S in H.
  destruct (iteration pK pD xVal yVal i st) as [st1 |] eqn:E;
    [| discriminate H].
  cbn [bind] in H.
  destruct (Z.eq_dec k 0) as [-> | Hne].
  - rewrite Z.add_0_r.
    destruct (iteration_returns _ _ _ _ _ _ _ E) as (Hw & Hi & _).
    now split.
  - replace (i + k) with (i + 1 + (k - 1)) by lia.
    apply (IH (i + 1) st1 H). lia.
Qed.

(** Every row is in the window of some iteration. *)
Lemma rows_of_windows (yVal : list row) (pK : Z) :
  (1 <= pK <= len yVal)%Z ->
  (forall i, (pK - 1 <= i < len yVal)%Z ->
     Forall (fun r => readable r = true) (window yVal pK i)) ->
  Forall (fun r => readable r = true) yVal.
Proof.
  intros HpK Hw. apply Forall_forall. intros r Hr.
  apply In_nth_error in Hr as (n & Hn).
  assert (Hlt : (n < length yVal)%nat)
    by (apply nth_error_Some; congruence).
  set (i := Z.max (Z.of_nat n) (pK - 1)).
  assert (Hi : (pK - 1 <= i < len yVal)%Z) by (unfold len in *; lia).
  specialize (Hw i Hi). rewrite Forall_forall in Hw. apply Hw.
  apply (at_index_In _ (Z.of_nat n - (i - pK + 1))).
  unfold window. rewrite at_index_slice by lia.
  replace (i - pK + 1 + (Z.of_nat n - (i - pK + 1))) with (Z.of_nat n) by lia.
  now rewrite at_index_nat.
Qed.

(** The arguments of a call that returns sequences, and the trace of its
    loop. *)
Lemma getValues_some (series : Series) (params : ParamsOptions)
    (out : IndicatorValues) :
  getValues series params = Ok (Some out) ->
  exists yVal st,
    yData series = Some yVal
    /\ (1 <= periodK params <= len yVal)%Z
    /\ first_row_ok yVal
    /\ Forall (fun r => readable r = true) yVal
    /\ out = {| values := SO st; ivXData := lsXData st; ivYData := lsYData st |}
    /\ Trace (periodK params) (periodD params) (xData series) yVal
         (Z.to_nat (len yVal - periodK params + 1)) st.
Proof.
  intros H.
  destruct (yData series) as [yVal |] eqn:Hy.
  2:{ unfold getValues in H. rewrite Hy in H.
      destruct (0 <? periodK params); discriminate H. }
  destruct (Z.lt_ge_cases (len yVal) (periodK params)) as [Hshort | Hlen].
  { rewrite (getValues_rejects series params yVal Hy) in H by (now left).
    discriminate H. }
  destruct (first_row_ok_dec yVal) as [Hfirst | Hfirst].
  2:{ rewrite (getValues_rejects series params yVal Hy) in H by (now right).
      discriminate H. }
  pose proof H as Hrun.
  rewrite (getValues_enters series params yVal Hy) in Hrun by (assumption || lia).
  destruct (iterate _ _ _ _ _ _ _) as [st0 |] eqn:E; [| discriminate Hrun].
  pose proof (iterate_returns _ _ _ _ _ _ _ _ E) as Hinv.
  assert (HpK : (1 <= periodK params)%Z).
  { destruct (Hinv 0) as (_ & H0); lia. }
  assert (Hall : Forall (fun r => readable r = true) yVal).
  { apply (rows_of_windows yVal (periodK params)); [lia |].
    intros i Hi.
    replace i with (periodK params - 1 + (i - (periodK params - 1))) by lia.
    apply Hinv. lia. }
  destruct (getValues_runs series params yVal Hy ltac:(lia) Hfirst Hall)
    as (st & Hst & T).
  exists yVal, st. rewrite Hst in H. injection H as <-.
  split; [reflexivity |]. split; [lia |]. split; [assumption |].
  split; [assumption |]. split; [reflexivity | exact T].
Qed.

(** The call returns sequences exactly when the series has a [yData] of
    at least [periodK >= 1] rows, the first of which is an array of length
    four, and none of which is [null] or [undefined]. *)
Theorem returns_sequences_iff (series : Series) (params : ParamsOptions) :
  (exists out, getValues series params = Ok (Some out))
  <-> exists yVal,
        yData series = Some yVal
        /\ (1 <= periodK params <= len yVal)%Z
        /\ first_row_ok yVal
        /\ Forall (fun r => readable r = true) yVal.
Proof.
  split.
  - intros (out & H).
    destruct (getValues_some series params out H)
      as (yVal & st & Hy & HpK & Hfirst & Hall & _).
    exists yVal. auto.
  - intros (yVal & Hy & HpK & Hfirst & Hall).
    destruct (getValues_runs series params yVal Hy HpK Hfirst Hall)
      as (st & Hst & _).
    eexists. exact Hst.
Qed.

(** The call throws exactly in two cases: the series has no [yData] and
    [periodK <= 0] (the entry test then reads [yVal[0]] on [undefined]);
    or the series passes the entry test and the loop reads a property of
    [undefined] or [null], which it does when [periodK <= 0] (the loop
    starts at a negative index) or when some row is [null] or
    [undefined]. *)
Theorem throws_iff (series : Series) (params : ParamsOptions) :
  getValues series params = TypeError
  <-> match yData series with
      | None => (periodK params <= 0)%Z
      | Some yVal =>
          (periodK params <= len yVal)%Z /\ first_row_ok yVal
          /\ ((periodK params <= 0)%Z
              \/ Exists (fun r => readable r = false) yVal)
      end.
Proof.
  destruct (yData series) as [yVal |] eqn:Hy.
  2:{ unfold getValues. rewrite Hy.
      destruct (Z.ltb_spec 0 (periodK params)); split;
        (discriminate || lia || reflexivity). }
  split.
  - intros H.
    destruct (Z.lt_ge_cases (len yVal) (periodK params)) as [Hshort | Hlen].
    { rewrite (getValues_rejects series params yVal Hy) in H by (now left).
      discriminate H. }
    destruct (first_row_ok_dec yVal) as [Hfirst | Hfirst].
    2:{ rewrite (getValues_rejects series params yVal Hy) in H by (now right).
        discriminate H. }
    split; [lia |]. split; [assumption |].
    destruct (Z.le_gt_cases (periodK params) 0) as [Hle | Hgt]; [now left |].
    right.
    destruct (Forall_Exists_dec (fun r => readable r = true)
                (fun r => bool_dec (readable r) true) yVal) as [Hall | Hex].
    + destruct (getValues_runs series params yVal Hy ltac:(lia) Hfirst Hall)
        as (st & Hst & _).
      rewrite Hst in H. discriminate H.
    + revert Hex. apply Exists_impl. intros r Hr.
      destruct (readable r); congruence.
  - intros (Hlen & Hfirst & Hbad).
    destruct (getValues series params) as [[out |] |] eqn:E; [| | reflexivity].
    + exfalso.
      destruct (getValues_some series params out E)
        as (yVal' & st & Hy' & HpK & _ & Hall & _).
      rewrite Hy in Hy'. injection Hy' as <-.
      destruct Hbad as [Hle | Hex]; [lia |].
      apply Exists_exists in Hex as (r & Hr & Hun).
      rewrite Forall_forall in Hall. rewrite (Hall r Hr) in Hun.
      discriminate Hun.
    + exfalso.
      rewrite (getValues_enters series params yVal Hy Hlen Hfirst) in E.
      destruct (iterate _ _ _ _ _ _ _); discriminate E.
Qed.

(* ================================================================== *)
(** * Appending bars *)
(* ================================================================== *)

Lemma at_index_app_l {A} (l l' : list A) (i : Z) :
  (i < len l)%Z -> at_index (l ++ l') i = at_index l i.
Proof.
  intros Hi. unfold at_index, len in *.
  destruct (Z.ltb_spec i 0); [reflexivity |].
  apply nth_error_app1. lia.
Qed.

(** An iteration whose window lies in the first part of the arrays does
    not see what follows. *)
Lemma iteration_app (pK pD : Z) (x1 x2 : list value) (y1 y2 : list row)
    (i : Z) (st : LoopState) :
  (0 <= i - pK + 1)%Z -> (i - pK + 1 <= i + 1)%Z ->
  (i < len y1)%Z -> (i < len x1)%Z ->
  iteration pK pD (x1 ++ x2) (y1 ++ y2) i st = iteration pK pD x1 y1 i st.
Proof.
  intros Ha Hab Hy Hx. unfold iteration.
  rewrite slice_app_prefix by lia.
  unfold get_row, get. rewrite !at_index_app_l by lia. reflexivity.
Qed.

Lemma iterate_app_inputs (pK pD : Z) (x1 x2 : list value) (y1 y2 : list row)
    (n : nat) (i : Z) (st : LoopState) :
  (1 <= pK)%Z -> (pK - 1 <= i)%Z ->
  (i + Z.of_nat n <= len y1)%Z -> (i + Z.of_nat n <= len x1)%Z ->
  iterate pK pD (x1 ++ x2) (y1 ++ y2) n i st = iterate pK pD x1 y1 n i st.
Proof.
  intros HpK. revert i st. induction n as [| n IH]; intros i st Hi Hy Hx;
    [reflexivity |].
  rewrite !iterate_S, iteration_app by lia.
  destruct (iteration pK pD x1 y1 i st) as [st1 |]; [| reflexivity].
  cbn [bind]. apply IH; lia.
Qed.

Lemma iterate_add (pK pD : Z) (xVal : list value) (yVal : list row)
    (n m : nat) (i : Z) (st : LoopState) :
  iterate pK pD xVal yVal (n + m) i st
  = (st' <- iterate pK pD xVal yVal n i st ;;
     iterate pK pD xVal yVal m (i + Z.of_nat n) st').
Proof.
  revert i st. induction n as [| n IH]; intros i st.
  - cbn [Nat.add iterate bind]. now rewrite Z.add_0_r.
  - change (S n + m)%nat with (S (n + m)). rewrite !iterate_S.
    destruct (iteration pK pD xVal yVal i st) as [st1 |]; [| reflexivity].
    cbn [bind]. rewrite IH.
    replace (i + 1 + Z.of_nat n) with (i + Z.of_nat (S n)) by lia.
    reflexivity.
Qed.

(** The loop only appends to the three output arrays. *)
Lemma iterate_appends (pK pD : Z) (xVal : list value) (yVal : list row)
    (n : nat) (i : Z) (st st' : LoopState) :
  iterate pK pD xVal yVal n i st = Ok st' ->
  exists mv mx my,
    SO st' = SO st ++ mv /\ lsXData st' = lsXData st ++ mx
    /\ lsYData st' = lsYData st ++ my.
Proof.
  revert i st. induction n as [| n IH]; intros i st H.
  - injection H as <-. exists [], [], []. now rewrite !app_nil_r.
  - rewrite iterate_S in H.
    destruct (iteration pK pD xVal yVal i st) as [st1 |] eqn:E;
      [| discriminate H].
    cbn [bind] in H.
    destruct (iteration_returns _ _ _ _ _ _ _ E) as (_ & _ & Hv & Hx & Hy).
    destruct (IH _ _ H) as (mv & mx & my & Hv' & Hx' & Hy').
    rewrite Hv', Hx', Hy', Hv, Hx, Hy, <- !app_assoc.
    eexists _, _, _. repeat split; reflexivity.
Qed.

Lemma first_row_ok_app (y1 y2 : list row) :
  (1 <= len y1)%Z -> first_row_ok (y1 ++ y2) -> first_row_ok y1.
Proof.
  intros Hlen (cells & Hrow & Hc). exists cells. split; [| exact Hc].
  unfold get_row in *. now rewrite at_index_app_l in Hrow by lia.
Qed.

(** No look-ahead: when bars (and their x values) are appended to a
    series that is long enough, the call on the longer series returns
    sequences that begin with the sequences of the call on the shorter
    one; no record that was there is changed by the bars that follow. *)
Theorem appended_bars_keep_records (series : Series) (params : ParamsOptions)
    (x2 : list value) (y1 y2 : list row) (out' : IndicatorValues) :
  yData series = Some y1 ->
  (periodK params <= len y1)%Z ->
  (len y1 <= len (xData series))%Z ->
  getValues {| xData := xData series ++ x2; yData := Some (y1 ++ y2) |} params
  = Ok (Some out') ->
  exists out mv mx my,
    getValues series params = Ok (Some out)
    /\ values out' = values out ++ mv
    /\ ivXData out' = ivXData out ++ mx
    /\ ivYData out' = ivYData out ++ my.
Proof.
  intros Hy Hlen Hx H.
  destruct (getValues_some _ _ _ H)
    as (yVal & st' & Hy' & HpK & Hfirst & Hall & -> & _).
  cbn [yData xData] in Hy'. injection Hy' as <-.
  rewrite len_app in HpK. pose proof (len_nonneg y2) as Hy2.
  apply Forall_app in Hall as (Hall1 & _).
  apply (first_row_ok_app y1 y2 ltac:(lia)) in Hfirst as Hfirst1.
  destruct (getValues_runs series params y1 Hy ltac:(lia) Hfirst1 Hall1)
    as (st & Hst & T).
  pose proof Hst as Hrun.
  rewrite (getValues_enters series params y1 Hy Hlen Hfirst1) in Hrun.
  destruct (iterate (periodK params) (periodD params) (xData series) y1 _ _ _)
    as [st0 |] eqn:E; [| discriminate Hrun].
  cbn [bind] in Hrun. injection Hrun as Hv0 Hx0 Hy0.
  rewrite (getValues_enters
             {| xData := xData series ++ x2; yData := Some (y1 ++ y2) |}
             params (y1 ++ y2) eq_refl) in H
    by (rewrite ?len_app; (assumption || lia)).
  cbn [xData] in H. rewrite len_app in H.
  replace (Z.to_nat (len y1 + len y2 - (periodK params - 1)))
    with (Z.to_nat (len y1 - (periodK params - 1)) + Z.to_nat (len y2))%nat
    in H by lia.
  rewrite iterate_add, iterate_app_inputs, E in H by lia.
  cbn [bind] in H.
  destruct (iterate _ _ _ _ (Z.to_nat (len y2)) _ st0) as [st2 |] eqn:E2;
    [| discriminate H].
  cbn [bind] in H. injection H as Hv2 Hx2 Hy2'.
  destruct (iterate_appends _ _ _ _ _ _ _ _ E2) as (mv & mx & my & Av & Ax & Ay).
  exists {| values := SO st; ivXData := lsXData st; ivYData := lsYData st |},
    mv, mx, my.
  cbn [values ivXData ivYData].
  split; [exact Hst |].
  rewrite <- Hv2, <- Hx2, <- Hy2', Av, Ax, Ay, Hv0, Hx0, Hy0. auto.
Qed.

(** The scenario is its first three bars followed by the fourth: its
    records begin with the one record of the first three bars. *)
Lemma appended_bars_keep_records_scenario :
  exists out out' mv,
    getValues scenario_start {| periodK := 3; periodD := 3 |} = Ok (Some out)
    /\ getValues scenario {| periodK := 3; periodD := 3 |} = Ok (Some out')
    /\ values out' = values out ++ mv.
Proof.
  destruct (appended_bars_keep_records scenario_start
              {| periodK := 3; periodD := 3 |} [VNum 4%float]
              [bar 5 6 4 5; bar 7 8 5 7; bar 6 7 4 6]%float
              [bar 9 10 5 9]%float
              {| values := [(VNum 3, 50, VNull);
                            (VNum 4, (9 - 4) / (10 - 4) * 100, VNull)]%float;
                 ivXData := [VNum 3; VNum 4]%float;
                 ivYData := [(50, VNull);
                             ((9 - 4) / (10 - 4) * 100, VNull)]%float |})
    as (out & mv & mx & my & H1 & H2 & H3 & H4).
  - reflexivity.
  - cbn. lia.
  - cbn. lia.
  - vm_compute. reflexivity.
  - eexists out, _, mv.
    split; [exact H1 |]. split; [vm_compute; reflexivity | exact H2].
Defined.

(* ================================================================== *)
(** * What the raw line does not depend on *)
(* ================================================================== *)

(** The raw line depends on the bars and on [periodK] only: two calls
    with the same [yData] and the same [periodK] return together, with the
    same raw values, whatever their x values and their [periodD]. *)
Theorem raw_line_ignores_xData_and_periodD (series series' : Series)
    (params params' : ParamsOptions) (out : IndicatorValues) :
  yData series = yData series' ->
  periodK params = periodK params' ->
  getValues series params = Ok (Some out) ->
  exists out',
    getValues series' params' = Ok (Some out')
    /\ map rec_k (values out') = map rec_k (values out).
Proof.
  intros Hsame HpK H.
  destruct (getValues_some _ _ _ H)
    as (yVal & st & Hy & Hlen & Hfirst & Hall & -> & T).
  rewrite HpK in Hlen. rewrite Hsame in Hy.
  destruct (getValues_runs series' params' yVal Hy Hlen Hfirst Hall)
    as (st' & Hst' & T').
  eexists. split; [exact Hst' |]. cbn [values].
  rewrite HpK in T. now rewrite (tr_ks T'), (tr_ks T).
Qed.

Lemma raw_line_ignores_xData_and_periodD_scenario :
  exists out',
    getValues scenario_respaced {| periodK := 3; periodD := 1 |} = Ok (Some out')
    /\ map rec_k (values out') = [50; (9 - 4) / (10 - 4) * 100]%float.
Proof.
  apply (raw_line_ignores_xData_and_periodD scenario scenario_respaced
           {| periodK := 3; periodD := 3 |} {| periodK := 3; periodD := 1 |}
           {| values := [(VNum 3, 50, VNull);
                         (VNum 4, (9 - 4) / (10 - 4) * 100, VNull)]%float;
              ivXData := [VNum 3; VNum 4]%float;
              ivYData := [(50, VNull);
                          ((9 - 4) / (10 - 4) * 100, VNull)]%float |}).
  - reflexivity.
  - reflexivity.
  - vm_compute. reflexivity.
Defined.

(* ================================================================== *)
(** * How far back a record looks *)
(* ================================================================== *)

(** Two arrays that hold the same elements between two indices have the
    same slice there. *)
Lemma slice_ext {A} (l l' : list A) (a b : Z) :
  (0 <= a <= b)%Z -> (b <= len l)%Z -> (b <= len l')%Z ->
  (forall k, (a <= k < b)%Z -> at_index l k = at_index l' k) ->
  slice l a b = slice l' a b.
Proof.
  intros Hab Hl Hl' Hsame. apply nth_error_ext. intros n.
  rewrite <- !at_index_nat.
  destruct (Z.lt_ge_cases (Z.of_nat n) (b - a)) as [Hin | Hout].
  - rewrite !at_index_slice by lia. apply Hsame. lia.
  - rewrite !at_index_out_of_range; [reflexivity | |];
      right; rewrite len_slice_in_range by lia; lia.
Qed.

Lemma K_at_ext (y y' : list row) (pK i : Z) :
  (1 <= pK)%Z -> (pK - 1 <= i < len y)%Z -> (i < len y')%Z ->
  (forall k, (i - pK + 1 <= k <= i)%Z -> at_index y k = at_index y' k) ->
  K_at y pK i = K_at y' pK i.
Proof.
  intros HpK Hi Hi' Hsame. unfold K_at, window, get_row.
  rewrite (slice_ext y y' (i - pK + 1) (i + 1)) by (try lia; intros; apply Hsame; lia).
  now rewrite (Hsame i) by lia.
Qed.

(** The record at output position [j], read off the trace. *)
Lemma trace_record (pK pD : Z) (xVal : list value) (yVal : list row) (n : nat)
    (st : LoopState) (j : Z) :
  Trace pK pD xVal yVal n st -> (1 <= pD)%Z -> (0 <= j < Z.of_nat n)%Z ->
  at_index (SO st) j
  = Some (get xVal (pK - 1 + j), K_at yVal pK (pK - 1 + j),
          D_at yVal pK pD (Z.to_nat j)).
Proof.
  intros T HpD Hj.
  pose proof (trace_K _ _ _ _ _ _ j T Hj) as HK.
  pose proof (trace_D _ _ _ _ _ _ j T HpD Hj) as HD.
  assert (HX : option_map rec_x (at_index (SO st) j)
               = Some (get xVal (pK - 1 + j))).
  { rewrite <- at_index_map, (tr_xs T). unfold Xs.
    rewrite at_index_map_seq by assumption. now rewrite Z2Nat.id by lia. }
  destruct (at_index (SO st) j) as [[[x k] d] |]; [| discriminate HK].
  cbn [option_map rec_x rec_k rec_d fst snd] in HK, HD, HX.
  injection HK as ->. injection HD as ->. injection HX as ->. reflexivity.
Qed.

Lemma D_at_ext (y y' : list row) (pK pD : Z) (j : nat) :
  (1 <= pD)%Z ->
  (forall k, (Z.of_nat j - pD + 1 <= k <= Z.of_nat j)%Z -> (0 <= k)%Z ->
     K_at y pK (pK - 1 + k) = K_at y' pK (pK - 1 + k)) ->
  D_at y pK pD j = D_at y' pK pD j.
Proof.
  intros HpD Hsame. unfold D_at.
  destruct (Z.ltb_spec (Z.of_nat j) (pD - 1)) as [_ | Hge]; [reflexivity |].
  do 2 f_equal.
  apply slice_ext; try (unfold len; rewrite length_Ks; lia); try lia.
  intros k Hk. unfold Ks.
  rewrite !at_index_map_seq by lia. f_equal.
  rewrite Z2Nat.id by lia. apply Hsame; lia.
Qed.

(** A record looks back over [periodK + periodD - 1] bars and no
    further: two series that hold the same rows at the indices
    [i - (periodK - 1) - (periodD - 1) .. i], and the same x value at [i],
    give the same record [[x, K, D]] for index [i]. *)
Theorem record_looks_back (series series' : Series) (params : ParamsOptions)
    (out out' : IndicatorValues) (y y' : list row) (i : Z) :
  getValues series params = Ok (Some out) ->
  getValues series' params = Ok (Some out') ->
  yData series = Some y -> yData series' = Some y' ->
  (1 <= periodD params)%Z ->
  (periodK params - 1 <= i < len y)%Z -> (i < len y')%Z ->
  (forall k, (i - (periodK params - 1) - (periodD params - 1) <= k <= i)%Z ->
     at_index y k = at_index y' k) ->
  get (xData series) i = get (xData series') i ->
  at_index (values out) (i - (periodK params - 1))
  = at_index (values out') (i - (periodK params - 1)).
Proof.
  intros H H' Hy Hy' HpD Hi Hi' Hsame Hx.
  destruct (getValues_some _ _ _ H)
    as (yVal & st & Ey & Hlen & _ & _ & -> & T).
  destruct (getValues_some _ _ _ H')
    as (yVal' & st' & Ey' & Hlen' & _ & _ & -> & T').
  rewrite Hy in Ey. injection Ey as <-.
  rewrite Hy' in Ey'. injection Ey' as <-.
  cbn [values].
  set (pK := periodK params) in *. set (pD := periodD params) in *.
  set (j := i - (pK - 1)).
  rewrite (trace_record _ _ _ _ _ _ j T HpD) by lia.
  rewrite (trace_record _ _ _ _ _ _ j T' HpD) by lia.
  replace (pK - 1 + j) with i by lia.
  rewrite Hx. do 2 f_equal.
  - f_equal. apply K_at_ext; try lia. intros k Hk. apply Hsame. lia.
  - apply D_at_ext; [assumption |]. intros k Hk Hk0.
    rewrite Z2Nat.id in Hk by lia.
    apply K_at_ext; try lia. intros k' Hk'. apply Hsame. lia.
Qed.

(** With [periodK = 2] and [periodD = 2] the record for index 3 looks
    back to index 1: the first bar does not matter. *)
Lemma record_looks_back_scenario :
  exists out out',
    getValues scenario {| periodK := 2; periodD := 2 |} = Ok (Some out)
    /\ getValues scenario_other_start {| periodK := 2; periodD := 2 |}
       = Ok (Some out')
    /\ at_index (values out) 2 = at_index (values out') 2.
Proof.
  eexists _, _.
  split; [vm_compute; reflexivity |].
  split; [vm_compute; reflexivity |].
  apply (record_looks_back scenario scenario_other_start
           {| periodK := 2; periodD := 2 |} _ _
           [bar 5 6 4 5; bar 7 8 5 7; bar 6 7 4 6; bar 9 10 5 9]%float
           [bar 1 2 1 1; bar 7 8 5 7; bar 6 7 4 6; bar 9 10 5 9]%float 3).
  - vm_compute. reflexivity.
  - vm_compute. reflexivity.
  - reflexivity.
  - reflexivity.
  - cbn. lia.
  - cbn. lia.
  - cbn. lia.
  - cbn [periodK periodD]. intros k Hk.
    assert (Hcases : k = 1 \/ k = 2 \/ k = 3) by lia.
    destruct Hcases as [-> | [-> | ->]]; reflexivity.
  - reflexivity.
Defined.

(* ================================================================== *)
(** * Fields that are not numbers *)
(* ================================================================== *)

Lemma is_nan_eq (x : number) : is_nan x = true -> x = nan.
Proof. intros H. apply eq_nan_spec. now apply is_nan_spec. Qed.

Lemma sub_nan_l (x : number) : (nan - x)%float = nan.
Proof.
  apply eq_nan_spec. rewrite sub_spec. change (Prim2SF nan) with S754_nan.
  reflexivity.
Qed.

Lemma sub_nan_r (x : number) : (x - nan)%float = nan.
Proof.
  apply eq_nan_spec. rewrite sub_spec. change (Prim2SF nan) with S754_nan.
  now destruct (Prim2SF x).
Qed.

Lemma div_nan_r (x : number) : (x / nan)%float = nan.
Proof.
  apply eq_nan_spec. rewrite div_spec. change (Prim2SF nan) with S754_nan.
  now destruct (Prim2SF x).
Qed.

(** %K is NaN as soon as one of its three arguments is. *)
Lemma percentK_nan (c LL HH : number) :
  is_nan c = true \/ is_nan LL = true \/ is_nan HH = true ->
  percentK c LL HH = nan.
Proof.
  unfold percentK. intros [H | [H | H]]; apply is_nan_eq in H; subst.
  - now rewrite sub_nan_l, div_nan_l, mul_nan_l.
  - now rewrite !sub_nan_r, div_nan_l, mul_nan_l.
  - now rewrite sub_nan_l, div_nan_r, mul_nan_l.
Qed.

Lemma Math_min_nan_l (x : number) : Math_min nan x = nan.
Proof. reflexivity. Qed.

Lemma Math_max_nan_l (x : number) : Math_max nan x = nan.
Proof. reflexivity. Qed.

Lemma Math_min_nan_r (a x : number) : is_nan x = true -> Math_min a x = nan.
Proof. unfold Math_min. intros ->. now rewrite orb_true_r. Qed.

Lemma Math_max_nan_r (a x : number) : is_nan x = true -> Math_max a x = nan.
Proof. unfold Math_max. intros ->. now rewrite orb_true_r. Qed.

Lemma fold_min_from_nan (l : list number) : fold_left Math_min l nan = nan.
Proof. induction l as [| x l IH]; [reflexivity | exact IH]. Qed.

Lemma fold_max_from_nan (l : list number) : fold_left Math_max l nan = nan.
Proof. induction l as [| x l IH]; [reflexivity | exact IH]. Qed.

(** One NaN among the numbers makes their minimum, and their maximum,
    NaN. *)
Lemma fold_min_with_nan (l : list number) (acc x : number) :
  In x l -> is_nan x = true -> fold_left Math_min l acc = nan.
Proof.
  revert acc. induction l as [| y l IH]; intros acc Hin Hx; [contradiction |].
  cbn [fold_left]. destruct Hin as [-> | Hin].
  - rewrite Math_min_nan_r by assumption. apply fold_min_from_nan.
  - now apply IH.
Qed.

Lemma fold_max_with_nan (l : list number) (acc x : number) :
  In x l -> is_nan x = true -> fold_left Math_max l acc = nan.
Proof.
  revert acc. induction l as [| y l IH]; intros acc Hin Hx; [contradiction |].
  cbn [fold_left]. destruct Hin as [-> | Hin].
  - rewrite Math_max_nan_r by assumption. apply fold_max_from_nan.
  - now apply IH.
Qed.

(** A field that does not read as a number spoils the raw value of every
    window that holds it: when the close of bar [i], or the low or the
    high of a row of the window of [i], is missing, [undefined] or NaN,
    the raw value for [i] is NaN. *)
Theorem missing_field_gives_NaN (series : Series) (params : ParamsOptions)
    (out : IndicatorValues) (yVal : list row) (i : Z) :
  getValues series params = Ok (Some out) ->
  yData series = Some yVal ->
  (periodK params - 1 <= i < len yVal)%Z ->
  is_nan (field (get_row yVal i) close) = true
  \/ (exists r, In r (window yVal (periodK params) i)
        /\ (is_nan (field r low) = true \/ is_nan (field r high) = true)) ->
  K_out out (i - (periodK params - 1)) = Some nan.
Proof.
  intros H Hy Hi Hbad.
  destruct (getValues_some _ _ _ H)
    as (yVal' & st & Ey & Hlen & _ & _ & -> & T).
  rewrite Hy in Ey. injection Ey as <-.
  unfold K_out. cbn [values].
  rewrite (trace_K _ _ _ _ _ _ _ T) by lia.
  replace (periodK params - 1 + (i - (periodK params - 1))) with i by lia.
  f_equal. unfold K_at. apply percentK_nan.
  destruct Hbad as [Hc | (r & Hr & [Hl | Hh])].
  - now left.
  - right. left. apply is_nan_spec, eq_nan_spec.
    apply (fold_min_with_nan _ _ (field r low)); [| assumption].
    apply in_map_iff. now exists r.
  - right. right. apply is_nan_spec, eq_nan_spec.
    apply (fold_max_with_nan _ _ (field r high)); [| assumption].
    apply in_map_iff. now exists r.
Qed.

(** In the series whose second row has a single field, with
    [periodK = 2], that row has no low: the first raw value, whose window
    holds it, is NaN. *)
Lemma missing_field_gives_NaN_ragged :
  exists out,
    getValues ragged_series {| periodK := 2; periodD := 1 |} = Ok (Some out)
    /\ K_out out 0 = Some nan.
Proof.
  eexists. split; [vm_compute; reflexivity |].
  apply (missing_field_gives_NaN ragged_series
           {| periodK := 2; periodD := 1 |} _ ragged_rows 1).
  - vm_compute. reflexivity.
  - reflexivity.
  - cbn. lia.
  - right. exists (RArray [VNum 1%float]). split.
    + vm_compute. auto.
    + left. reflexivity.
Defined.

(* ================================================================== *)
(** * A window of one bar *)
(* ================================================================== *)

Lemma not_nan_cases (x : number) : is_nan x = false ->
  match Prim2SF x with S754_nan => False | _ => True end.
Proof.
  intros H. destruct (Prim2SF x) eqn:E; try exact I.
  apply is_nan_spec in E. congruence.
Qed.

(** +Infinity is neutral for [Math.min], -Infinity for [Math.max]. *)
Lemma Math_min_infinity (x : number) : Math_min infinity x = x.
Proof.
  unfold Math_min. change (is_nan infinity) with false. cbn [orb].
  destruct (is_nan x) eqn:Hx; [symmetry; now apply is_nan_eq |].
  pose proof (not_nan_cases x Hx) as Hc.
  rewrite !ltb_spec. change (Prim2SF infinity) with (S754_infinity false).
  change (get_sign infinity) with false.
  destruct (Prim2SF x) as [s | [|] | | s m e]; try contradiction;
    cbn; try reflexivity; destruct s; reflexivity.
Qed.

Lemma Math_max_neg_infinity (x : number) : Math_max neg_infinity x = x.
Proof.
  unfold Math_max. change (is_nan neg_infinity) with false. cbn [orb].
  destruct (is_nan x) eqn:Hx; [symmetry; now apply is_nan_eq |].
  pose proof (not_nan_cases x Hx) as Hc.
  rewrite !ltb_spec. change (Prim2SF neg_infinity) with (S754_infinity true).
  change (get_sign neg_infinity) with true.
  destruct (Prim2SF x) as [s | [|] | | s m e]; try contradiction;
    cbn; try reflexivity; destruct s; reflexivity.
Qed.

(** With [periodK = 1] the window of an index is its own bar: there is
    one record per bar, and on a bar of four finite numbers the raw value
    is [(close - low) / (high - low) * 100] of that bar alone. *)
Theorem one_bar_window (series : Series) (params : ParamsOptions)
    (out : IndicatorValues) (yVal : list row) :
  getValues series params = Ok (Some out) ->
  yData series = Some yVal ->
  periodK params = 1 ->
  len (values out) = len yVal
  /\ forall i, (0 <= i < len yVal)%Z ->
       is_finite_bar (get_row yVal i) = true ->
       K_out out i
       = Some (percentK (field (get_row yVal i) close)
                 (field (get_row yVal i) low) (field (get_row yVal i) high)).
Proof.
  intros H Hy HpK.
  destruct (getValues_some _ _ _ H)
    as (yVal' & st & Ey & Hlen & _ & _ & -> & T).
  rewrite Hy in Ey. injection Ey as <-.
  pose proof (len_values_of_trace _ _ _ _ _ _ T) as HSO.
  cbn [values]. split; [rewrite HSO; lia |].
  intros i Hi _.
  unfold K_out. cbn [values].
  rewrite (trace_K _ _ _ _ _ _ _ T) by lia.
  rewrite HpK. replace (1 - 1 + i) with i by lia.
  unfold K_at, window.
  destruct (at_index_in_range yVal i Hi) as (r & Hr & _).
  replace (i - 1 + 1) with i by lia.
  rewrite (slice_single yVal i r Hr). unfold get_row. rewrite Hr.
  cbn [map fold_left].
  now rewrite Math_min_infinity, Math_max_neg_infinity.
Qed.

(** In the scenario of the specification with [periodK = 1] there are four
    records, and the raw value of the first bar is
    [(5 - 4) / (6 - 4) * 100 = 50]. *)
Lemma one_bar_window_scenario :
  exists out,
    getValues scenario {| periodK := 1; periodD := 1 |} = Ok (Some out)
    /\ len (values out) = 4%Z
    /\ K_out out 0 = Some 50%float.
Proof.
  destruct (getValues scenario {| periodK := 1; periodD := 1 |})
    as [[out |] |] eqn:E; try (vm_compute in E; discriminate E).
  exists out. split; [reflexivity |].
  destruct (one_bar_window scenario {| periodK := 1; periodD := 1 |} out
              [bar 5 6 4 5; bar 7 8 5 7; bar 6 7 4 6; bar 9 10 5 9]%float
              E eq_refl eq_refl) as (Hlen & HK).
  split; [exact Hlen |].
  apply (HK 0); [cbn; lia | reflexivity].
Defined.

(* ================================================================== *)
(** * A flat window with the close off its level *)
(* ================================================================== *)

(** The difference of a number and a greater one is negative. *)
Lemma SFsub_negative (z y : spec_float) :
  valid_binary z = true -> valid_binary y = true ->
  finite_or_zero z = true -> finite_or_zero y = true ->
  Zval z < Zval y ->
  match SF64sub z y with
  | S754_finite true _ _ => True
  | S754_infinity true => True
  | _ => False
  end.
Proof.
  intros Vz Vy Fz Fy Hlt.
  destruct (SFsub_exact z y Vz Vy Fz Fy) as (M & e & He & U & S).
  pose proof (pow2_pos (e + 1074) ltac:(lia)) as HP.
  unfold units in U.
  destruct M as [| p | p]; [lia | nia |]. rewrite S.
  destruct (binary_round_value true p e He) as (r & _ & R).
  destruct (binary_round prec emax true p e) as [| s | | s m ef];
    try contradiction; destruct R as (-> & _); exact I.
Qed.

(** The difference of two finite numbers that compare equal is a zero. *)
Lemma SFsub_level (z y : spec_float) :
  valid_binary z = true -> valid_binary y = true ->
  finite_or_zero z = true -> finite_or_zero y = true ->
  Zval z = Zval y ->
  exists s, SF64sub z y = S754_zero s
            /\ (zero_or_nan y = false -> s = false).
Proof.
  intros Vz Vy Fz Fy Heq.
  assert (Hcmp : SFeqb z y = true)
    by (rewrite SFeqb_Zval by assumption; now apply Z.eqb_eq).
  destruct (SFeqb_same z y Fz Fy Hcmp) as [-> | (Zz & Zy)].
  - destruct y as [s | s | | s m e]; try discriminate Fy.
    + exists (if s then false else false).
      split; [destruct s; reflexivity | discriminate].
    + exists false. split; [| reflexivity].
      unfold SF64sub, SFsub. now rewrite Z.sub_diag.
  - destruct z as [sz | | |]; try discriminate Zz; try discriminate Fz.
    destruct y as [sy | | |]; try discriminate Zy; try discriminate Fy.
    destruct sz, sy; eexists; (split; [reflexivity | discriminate]).
Qed.

(** A number that is not a zero, divided by a zero and multiplied by a
    hundred, is an infinity; its sign is that of the number when the zero
    is +0. *)
Lemma SF_percent_infinite (CL : spec_float) (s : bool) :
  match CL with
  | S754_finite _ _ _ => True
  | S754_infinity _ => True
  | _ => False
  end ->
  exists s', SF64mul (SF64div CL (S754_zero s)) SFhundred = S754_infinity s'
             /\ (s = false ->
                 s' = match CL with
                      | S754_finite sc _ _ => sc
                      | S754_infinity sc => sc
                      | _ => false
                      end).
Proof.
  destruct CL as [sc | sc | | sc m e]; try contradiction; intros _;
    exists (xorb (xorb sc s) false); (split; [reflexivity |]);
    intros ->; now destruct sc.
Qed.

(** %K on a flat pair of extremes with the close off their level. *)
Lemma percentK_off_level (c LL HH : number) :
  is_finite c = true -> is_finite LL = true -> is_finite HH = true ->
  (HH =? LL)%float = true -> (c =? LL)%float = false ->
  (percentK c LL HH = infinity \/ percentK c LL HH = neg_infinity)
  /\ ((LL =? 0)%float = false ->
      ((LL <? c)%float = true -> percentK c LL HH = infinity)
      /\ ((c <? LL)%float = true -> percentK c LL HH = neg_infinity)).
Proof.
  intros Fc FL FH Hflat Hoff.
  pose proof (Prim2SF_valid c) as Vc.
  pose proof (Prim2SF_valid LL) as VL.
  pose proof (Prim2SF_valid HH) as VH.
  pose proof Fc as Fc'. pose proof FL as FL'. pose proof FH as FH'.
  rewrite is_finite_SF in Fc', FL', FH'.
  rewrite eqb_Zval in Hflat, Hoff by assumption.
  apply Z.eqb_eq in Hflat. apply Z.eqb_neq in Hoff.
  destruct (SFsub_level _ _ VH VL FH' FL' Hflat) as (s & HHL & Hs).
  pose proof (SFsub_nonzero _ _ Vc VL Fc' FL' Hoff) as HCL.
  destruct (SF_percent_infinite (SF64sub (Prim2SF c) (Prim2SF LL)) s HCL)
    as (s' & HK & Hs').
  assert (HKsf : Prim2SF (percentK c LL HH) = S754_infinity s').
  { unfold percentK.
    now rewrite mul_spec, div_spec, !sub_spec, Prim2SF_hundred, HHL. }
  split.
  - destruct s'; [right | left]; apply Prim2SF_inj; rewrite HKsf; reflexivity.
  - intros HLnz.
    assert (Hsz : s = false).
    { apply Hs. rewrite eqb_spec in HLnz.
      change (Prim2SF 0) with (S754_zero false) in HLnz.
      destruct (Prim2SF LL) as [sl | | |]; try reflexivity;
        [destruct sl; discriminate HLnz | discriminate FL']. }
    specialize (Hs' Hsz). split; intros Hlt.
    + rewrite ltb_spec, SFltb_Zval in Hlt by assumption.
      apply Z.ltb_lt in Hlt.
      pose proof (SFsub_positive _ _ Vc VL Fc' FL' Hlt) as Hpos.
      apply Prim2SF_inj. rewrite HKsf. change (Prim2SF infinity) with (S754_infinity false).
      f_equal. rewrite Hs'.
      destruct (SF64sub (Prim2SF c) (Prim2SF LL)) as [sc | sc | | sc m e];
        try contradiction; destruct sc; try reflexivity; discriminate Hpos.
    + rewrite ltb_spec, SFltb_Zval in Hlt by assumption.
      apply Z.ltb_lt in Hlt.
      pose proof (SFsub_negative _ _ Vc VL Fc' FL' Hlt) as Hneg.
      apply Prim2SF_inj. rewrite HKsf.
      change (Prim2SF neg_infinity) with (S754_infinity true).
      f_equal. rewrite Hs'.
      destruct (SF64sub (Prim2SF c) (Prim2SF LL)) as [sc | sc | | sc m e];
        try contradiction; destruct sc; try reflexivity; contradiction.
Qed.

(** On finite bars, in a window whose highest high equals its lowest low
    ([HL] is a zero) and whose close differs from that level, the raw value
    is an infinity, not NaN: [+Infinity] or [-Infinity]; and when the
    level is not zero, [+Infinity] for a close above the level and
    [-Infinity] for a close below it. *)
Theorem flat_window_off_level_is_infinite (series : Series)
    (params : ParamsOptions) (out : IndicatorValues) (yVal : list row)
    (i : Z) (LL HH : number) :
  getValues series params = Ok (Some out) ->
  yData series = Some yVal ->
  Forall (fun r => is_finite_bar r = true) yVal ->
  (periodK params - 1 <= i < len yVal)%Z ->
  getArrayExtremes (window yVal (periodK params) i) low high = Ok (LL, HH) ->
  (HH =? LL)%float = true ->
  (field (get_row yVal i) close =? LL)%float = false ->
  (K_out out (i - (periodK params - 1)) = Some infinity
   \/ K_out out (i - (periodK params - 1)) = Some neg_infinity)
  /\ ((LL =? 0)%float = false ->
      ((LL <? field (get_row yVal i) close)%float = true ->
       K_out out (i - (periodK params - 1)) = Some infinity)
      /\ ((field (get_row yVal i) close <? LL)%float = true ->
          K_out out (i - (periodK params - 1)) = Some neg_infinity)).
Proof.
  intros H Hy Hfin Hi Hext Hflat Hoff.
  destruct (getValues_some _ _ _ H)
    as (yVal' & st & Ey & Hlen & _ & _ & -> & T).
  rewrite Hy in Ey. injection Ey as <-.
  destruct (window_extremes_finite yVal (periodK params) i LL HH Hfin
              ltac:(lia) Hi Hext) as (HLL & HHH & _ & _ & FL & FH & Fc).
  unfold K_out. cbn [values].
  rewrite (trace_K _ _ _ _ _ _ _ T) by lia.
  replace (periodK params - 1 + (i - (periodK params - 1))) with i by lia.
  unfold K_at. rewrite <- HLL, <- HHH. cbn [option_map].
  destruct (percentK_off_level _ LL HH Fc FL FH Hflat Hoff) as (Hinf & Hsign).
  split.
  - destruct Hinf as [-> | ->]; auto.
  - intros Hnz. destruct (Hsign Hnz) as (Hup & Hdown).
    split; intros Hlt; f_equal; auto.
Qed.

(** The bar with high = low = 1 and close = 2: the raw value is
    [+Infinity]. *)
Lemma flat_window_off_level_is_infinite_bar :
  exists out,
    getValues flat_bar_off_close {| periodK := 1; periodD := 1 |} = Ok (Some out)
    /\ K_out out 0 = Some infinity.
Proof.
  eexists. split; [vm_compute; reflexivity |].
  apply (flat_window_off_level_is_infinite flat_bar_off_close
           {| periodK := 1; periodD := 1 |} _ [bar 1 1 1 2]%float 0
           1%float 1%float).
  - vm_compute. reflexivity.
  - reflexivity.
  - repeat constructor.
  - cbn. lia.
  - vm_compute. reflexivity.
  - reflexivity.
  - reflexivity.
  - reflexivity.
  - reflexivity.
Defined.

(* ================================================================== *)
(** * The arrays of a result are all different *)
(* ================================================================== *)

Section Distinct.
Import Store.

Lemma refs_of_locs (ls : list loc) : refs (map Ref ls) = ls.
Proof.
  induction ls as [| l ls IH]; [reflexivity |].
  cbn [map]. change (refs (Ref l :: map Ref ls)) with (l :: refs (map Ref ls)).
  now rewrite IH.
Qed.

Lemma held_below (n : nat) (tail : heap) (ls : list loc) (os : list object) :
  Forall2 (held n tail) ls os ->
  Forall (fun l => (n + 3 <= l < n + 3 + length tail)%nat) ls.
Proof.
  induction 1 as [| l o ls os (Hl & Hnth) _ IH]; constructor; [| assumption].
  assert (l - (n + 3) < length tail)%nat
    by (apply nth_error_Some; congruence).
  lia.
Qed.

(** Two locations allocated after all the others, one after the other,
    are new among them. *)
Lemma NoDup_two_new (ts rs : list nat) (b r t : nat) :
  NoDup (ts ++ rs) ->
  Forall (fun l => (l < b)%nat) ts -> Forall (fun l => (l < b)%nat) rs ->
  (b <= r)%nat -> (r < t)%nat ->
  NoDup ((ts ++ [t]) ++ rs ++ [r]).
Proof.
  intros Hnd Hts Hrs Hr Ht.
  rewrite Forall_forall in Hts, Hrs.
  assert (Hold : forall l, In l (ts ++ rs) -> (l < b)%nat).
  { intros l Hl. apply in_app_or in Hl as [Hl | Hl]; auto. }
  assert (H1 : NoDup (ts ++ rs ++ [r])).
  { rewrite app_assoc. apply NoDup_app; [assumption | repeat constructor; auto |].
    intros l Hl [<- | []]. apply Hold in Hl. lia. }
  rewrite <- app_assoc. cbn [app].
  apply NoDup_Add with (a := t) (l := ts ++ rs ++ [r]).
  - apply Add_app.
  - split; [assumption |].
    rewrite app_assoc. intros Hin. apply in_app_or in Hin as [Hin | [Hin | []]].
    + apply Hold in Hin. lia.
    + lia.
Qed.

Variables (h0 : heap) (xVal yVal : loc) (xs : list value) (yv : object)
  (yrows : list row).
Hypothesis HxVal : (xVal < length h0)%nat.
Hypothesis Hxs : load h0 xVal = map Prim xs.
Hypothesis HyVal : (yVal < length h0)%nat.
Hypothesis Hyv : load h0 yVal = yv.
Hypothesis Hrows : Forall2 (slot_is h0) yv yrows.
Variables pK pD : Z.

(** An iteration that returns pushes two rows that it has just allocated,
    the [[K, D]] row before the [[x, K, D]] row, after every array of the
    store. *)
Lemma iteration_distinct (h : heap) (st : LoopState) (i : Z) :
  InvDistinct h0 h st ->
  let out := StoreCode.iteration pK pD xVal yVal (length h0 + 0) (length h0 + 1)
               (length h0 + 2) i (D st) h in
  match iteration pK pD xs yrows i st with
  | TypeError => True
  | Ok st' => InvDistinct h0 (fst out) st'
  end.
Proof.
  intros (ts & rs & tail & -> & Hrs & Hts & Hnd). cbv zeta.
  unfold StoreCode.iteration, iteration.
  rewrite step_gets, (read_yVal h0 yVal yv HyVal Hyv), step_alloc, step_gets.
  rewrite <- app_assoc, length_app, (read_rows_fresh_slice h0 yv yrows Hrows).
  destruct (getArrayExtremes (slice yrows (i - pK + 1) (i + 1)) low high)
    as [extremes |]; cbn [bind]; [| exact I].
  rewrite step_lift_ok, step_gets,
    (read_rows_yVal h0 yVal yv yrows HyVal Hyv Hrows).
  destruct (row_get (get_row yrows i) close) as [c |]; cbn [bind]; [| exact I].
  rewrite step_lift_ok, step_gets, (read_xVal h0 xVal xs HxVal Hxs),
    get_slot_prims.
  set (K := percentK (ToNumber c) (fst extremes) (snd extremes)).
  set (x := get xs i).
  rewrite step_push, load_app_r, update_app_r. cbn [app nth update].
  change [Prim x] with (map Prim [x]). rewrite <- map_app.
  rewrite step_alloc, <- app_assoc. cbn [app].
  rewrite step_push, load_app_r, update_app_r. cbn [nth update].
  set (sl := slice yv (i - pK + 1) (i + 1)).
  match goal with
  | |- context [Ref (length ?H)] => set (r := length H)
  end.
  assert (Hr : r = (length h0 + 3 + length (tail ++ [sl]))%nat).
  { unfold r. rewrite length_app. cbn [length]. lia. }
  change [Ref r] with (map Ref [r]). rewrite <- map_app.
  assert (Hrs1 : Forall2 (held (length h0)
                    ((tail ++ [sl]) ++ [[Prim (VNum K); Prim VNull]]))
                   (rs ++ [r]) (map row_object (lsYData st ++ [(K, VNull)]))).
  { rewrite map_app. apply Forall2_app.
    - rewrite <- app_assoc. now apply Forall2_held_extend.
    - constructor; [| constructor]. rewrite Hr. apply held_new. }
  destruct (smoothing_block h0 pK pD i (D st) (map Ref ts) (lsXData st ++ [x])
              (rs ++ [r]) _ _ Hrs1) as (extra & Hblock).
  rewrite (step_run _ _ _ _ _ Hblock).
  set (D1 := if (i >=? pK - 1 + (pD - 1))%Z then _ else D st).
  rewrite step_gets, (read_xVal h0 xVal xs HxVal Hxs), get_slot_prims. fold x.
  rewrite step_alloc.
  match goal with
  | |- context [Ref (length ?H)] => set (t := length H)
  end.
  assert (Ht : t = (length h0 + 3
                    + length (tail ++ sl :: [Prim (VNum K); Prim VNull] :: extra))%nat).
  { unfold t. rewrite <- !app_assoc. cbn [app].
    rewrite length_app. cbn [length]. lia. }
  norm_heap.
  rewrite step_push, load_app_r, update_app_r. cbn [nth update].
  change [Ref t] with (map Ref [t]). rewrite <- map_app.
  rewrite step_gets, load_app_r. cbn [nth].
  unfold last_row. rewrite get_slot_last_ref, step_ret.
  rewrite step_set_index.
  replace (tail ++ sl :: [Prim (VNum K); Prim VNull]
             :: extra ++ [[Prim x; Prim (VNum K); Prim D1]])
    with ((tail ++ [sl]) ++ [Prim (VNum K); Prim VNull]
             :: extra ++ [[Prim x; Prim (VNum K); Prim D1]])
    by (now rewrite <- app_assoc).
  rewrite (load_row_at h0 _ _ _ _ _ _ _ Hr), (update_row_at h0 _ _ _ _ _ _ _ _ Hr).
  cbn [update]. unfold ret. cbn [fst snd].
  exists (ts ++ [t]), (rs ++ [r]),
    ((tail ++ [sl]) ++ [Prim (VNum K); Prim D1]
       :: extra ++ [[Prim x; Prim (VNum K); Prim D1]]).
  cbn [SO lsXData lsYData]. split; [reflexivity |]. split; [| split].
  - rewrite set_last_smoothed_snoc, map_app. apply Forall2_app.
    + rewrite <- app_assoc. now apply Forall2_held_extend.
    + constructor; [| constructor]. rewrite Hr. apply held_new.
  - rewrite map_app. apply Forall2_app.
    + rewrite <- app_assoc. now apply Forall2_held_extend.
    + constructor; [| constructor].
      replace ((tail ++ [sl]) ++ [Prim (VNum K); Prim D1]
                 :: extra ++ [[Prim x; Prim (VNum K); Prim D1]])
        with (((tail ++ [sl]) ++ [Prim (VNum K); Prim D1] :: extra)
                ++ [[Prim x; Prim (VNum K); Prim D1]])
        by (now rewrite <- app_assoc).
      replace t with (length h0 + 3
                      + length ((tail ++ [sl]) ++ [Prim (VNum K); Prim D1] :: extra))%nat
        by (rewrite Ht, !length_app; cbn [length]; lia).
      apply held_new.
  - apply (NoDup_two_new ts rs (length h0 + 3 + length tail)%nat r t Hnd).
    + pose proof (held_below _ _ _ _ Hts) as B. revert B.
      apply Forall_impl. intros l. lia.
    + pose proof (held_below _ _ _ _ Hrs) as B. revert B.
      apply Forall_impl. intros l. lia.
    + rewrite Hr, length_app. lia.
    + rewrite Hr, Ht, !length_app. cbn [length]. lia.
Qed.

Lemma iterate_distinct (n : nat) (h : heap) (st : LoopState) (i : Z) :
  InvDistinct h0 h st ->
  let out := StoreCode.iterate pK pD xVal yVal (length h0 + 0) (length h0 + 1)
               (length h0 + 2) n i (D st) h in
  match iterate pK pD xs yrows n i st with
  | TypeError => True
  | Ok st' => InvDistinct h0 (fst out) st'
  end.
Proof.
  revert h st i. induction n as [| n IH]; intros h st i HI; cbv zeta.
  - cbn [iterate StoreCode.iterate]. unfold ret. cbn [fst snd]. auto.
  - pose proof (iteration_distinct h st i HI) as Hstep. cbv zeta in Hstep.
    assert (HI0 : Inv h0 h st).
    { destruct HI as (ts & rs & tail & E & Hrs & Hts & _).
      now exists ts, rs, tail. }
    pose proof (iteration_sim h0 xVal yVal xs yv yrows HxVal Hxs HyVal Hyv Hrows
                  pK pD h st i HI0) as Hsim.
    cbv zeta in Hsim.
    assert (E : StoreCode.iterate pK pD xVal yVal (length h0 + 0)
                  (length h0 + 1) (length h0 + 2) (S n) i (D st) h
                = match StoreCode.iteration pK pD xVal yVal (length h0 + 0)
                          (length h0 + 1) (length h0 + 2) i (D st) h with
                  | (h1, Ok D') =>
                      StoreCode.iterate pK pD xVal yVal (length h0 + 0)
                        (length h0 + 1) (length h0 + 2) n (i + 1) D' h1
                  | (h1, TypeError) => (h1, TypeError)
                  end) by reflexivity.
    rewrite E. clear E. cbn [iterate].
    destruct (StoreCode.iteration pK pD xVal yVal (length h0 + 0)
                (length h0 + 1) (length h0 + 2) i (D st) h) as [h1 r1].
    cbn [fst snd] in Hstep, Hsim.
    destruct (iteration pK pD xs yrows i st) as [st1 |]; cbn [bind]; [| exact I].
    destruct Hsim as (-> & _). apply (IH h1 st1 (i + 1)%Z Hstep).
Qed.

End Distinct.

Lemma InvDistinct_initial (h0 : list (list Store.slot)) :
  InvDistinct h0 (h0 ++ [[]; []; []]) initial.
Proof. exists [], [], []. repeat split; constructor. Qed.

(** After the loop the arrays reached through the result are all
    different. *)
Lemma InvDistinct_read (h0 h : list (list Store.slot)) (st : LoopState) :
  InvDistinct h0 h st ->
  NoDup (returned_arrays h
           {| Store.vr_values := length h0 + 0; Store.vr_xData := length h0 + 1;
              Store.vr_yData := length h0 + 2 |}).
Proof.
  intros (ts & rs & tail & -> & Hrs & Hts & Hnd).
  unfold returned_arrays. cbn [Store.vr_values Store.vr_xData Store.vr_yData].
  rewrite !load_app_r. cbn [nth]. rewrite !refs_of_locs.
  assert (Hge : forall l, In l (ts ++ rs) -> (length h0 + 3 <= l)%nat).
  { pose proof (held_below _ _ _ _ Hts) as Bt.
    pose proof (held_below _ _ _ _ Hrs) as Br.
    rewrite Forall_forall in Bt, Br.
    intros l Hl. apply in_app_or in Hl as [Hl | Hl];
      [apply Bt in Hl | apply Br in Hl]; lia. }
  repeat constructor; try assumption; cbn [In];
    intros Hin;
    repeat match goal with
           | H : _ \/ _ |- _ => destruct H as [H | H]
           end; try lia; apply Hge in Hin; lia.
Qed.

(** The arrays that a call returns share nothing: the three returned
    arrays, every [[x, K, D]] row of [values] and every [[K, D]] row of
    [yData] are arrays at different locations, so that writing to one of
    them changes no other. *)
Theorem returned_arrays_distinct (h : list (list Store.slot))
    (sr : Store.SeriesRef) (s : Series) (params : ParamsOptions) :
  represents h sr s ->
  let run := StoreCode.getValues sr params h in
  match snd run with
  | Ok (Some vr) => NoDup (returned_arrays (fst run) vr)
  | _ => True
  end.
Proof.
  intros (HxVal & Hxs & Hy) run. subst run.
  rewrite getValues_on_store. cbv zeta.
  destruct (Store.sr_yData sr) as [yVal |], (yData s) as [yrows |];
    try contradiction.
  2:{ destruct (0 <? periodK params)%Z; cbn [fst snd]; exact I. }
  destruct Hy as (HyVal & Hrows).
  destruct (len (Store.load h yVal) <? periodK params)%Z.
  { cbn [fst snd].
    unfold returned_arrays. cbn. exact I. }
  rewrite (read_rows_yVal h yVal (Store.load h yVal) yrows HyVal eq_refl Hrows).
  destruct (get_row yrows 0) as [cells | v]; [| exact I].
  destruct (negb (len cells =? 4)%Z); [exact I |].
  pose proof (iterate_distinct h (Store.sr_xData sr) yVal (xData s)
                (Store.load h yVal) yrows
                HxVal Hxs HyVal eq_refl Hrows (periodK params) (periodD params)
                (Z.to_nat (len (Store.load h yVal) - (periodK params - 1)))
                (h ++ [[]; []; []]) initial (periodK params - 1)
                (InvDistinct_initial h)) as Hd.
  pose proof (iterate_sim h (Store.sr_xData sr) yVal (xData s)
                (Store.load h yVal) yrows
                HxVal Hxs HyVal eq_refl Hrows (periodK params) (periodD params)
                (Z.to_nat (len (Store.load h yVal) - (periodK params - 1)))
                (h ++ [[]; []; []]) initial (periodK params - 1)
                (Inv_initial h)) as Hsim.
  cbv zeta in Hd, Hsim. cbn [D initial] in Hd, Hsim.
  unfold Store.mbind.
  destruct (StoreCode.iterate _ _ _ _ _ _ _ _ _ _ _) as [hf rf].
  cbn [fst snd] in Hd, Hsim.
  destruct (iterate _ _ _ _ _ _ _) as [st' |].
  - destruct Hsim as (-> & _). unfold Store.ret. cbn [fst snd].
    now apply (InvDistinct_read h hf st').
  - destruct Hsim as (-> & _). exact I.
Qed.

(** The scenario in its store, with periods 2 and 2: the three returned
    arrays and the six rows are nine different arrays. *)
Lemma returned_arrays_distinct_scenario :
  represents scenario_store scenario_ref scenario
  /\ let run := StoreCode.getValues scenario_ref {| periodK := 2; periodD := 2 |}
                  scenario_store in
     match snd run with
     | Ok (Some vr) => NoDup (returned_arrays (fst run) vr)
                       /\ length (returned_arrays (fst run) vr) = 9%nat
     | _ => False
     end.
Proof.
  assert (Hrep : represents scenario_store scenario_ref scenario).
  { unfold represents. cbn. repeat split; try lia.
    repeat constructor; cbn; (lia || reflexivity). }
  split; [exact Hrep |].
  pose proof (returned_arrays_distinct scenario_store scenario_ref scenario
                {| periodK := 2; periodD := 2 |} Hrep) as H.
  cbv zeta in H |- *.
  destruct (snd (StoreCode.getValues scenario_ref {| periodK := 2; periodD := 2 |}
                   scenario_store)) as [[vr |] |] eqn:E;
    try (vm_compute in E; discriminate E).
  split; [exact H |].
  vm_compute in E. injection E as <-. vm_compute. reflexivity.
Defined.
